(** * ReachInbox: the mailbox synchronisation core and its pipeline

    A shallow embedding of
      - [AIService.categorizeEmail] and its two provider paths
        (src/services/AIService.ts),
      - [ElasticsearchService.getEmailById] / [indexEmail] and the
        [emails] table of [DatabaseService.createTables]
        (src/services/DatabaseService.ts and the file that follows it),
      - [EmailSyncService] (parseEmail, processEmails, storeEmailInDatabase,
        fetchEmails, startSync, stopSync, startIDLEConnection, addAccount,
        loadAccounts, the listeners of a connection and of a fetch, ...),
      - [AIService.generateReplySuggestion] and [extractKeyInformation],
      - [DatabaseService.query] and [transaction] on the connection pool.

    JavaScript values are modelled as far as the code inspects them.  The
    collaborators (Postgres, Elasticsearch, the vector store, the chat and
    webhook sinks, the LLM providers, the IMAP library) are external: their
    answers are inputs of the model, chosen by an environment [Env]; the
    event loop is a step function over the events the runtime delivers. *)

From Stdlib Require Import QArith.
From stdpp Require Import gmap strings list fin_maps numbers.

Local Close Scope Q_scope.
Local Open Scope string_scope.
Local Open Scope list_scope.
Set Warnings "-register-all".

(* ===================================================================== *)
(** ** JavaScript values *)
(* ===================================================================== *)

(** A JS [number].  Finite doubles are rationals; the code below only
    compares and selects numbers (Math.min / Math.max), it never rounds. *)
Inductive number :=
| NaN
| NegInfinity
| Finite (q : Q)
| PosInfinity.

(** Every value the code can meet in a parsed provider answer, plus
    [undefined] for absent properties. *)
Inductive value :=
| VUndefined
| VNull
| VBool (b : bool)
| VNumber (n : number)
| VString (s : string)
| VArray (items : list value)
| VObject (props : list (string * value)).

(** Outcome of a call that may throw. *)
Inductive Result (A : Type) :=
| Ok (a : A)
| Throw (message : string).
Arguments Ok {A} a.
Arguments Throw {A} message.

(** The string builtins that ToNumber relies on: StringToNumber of
    ECMAScript, and Array.prototype.toString. *)
Record Builtins := {
  StringToNumber : string -> number;
  Array_toString : list value -> string
}.

(** ECMAScript ToNumber. *)
Definition ToNumber (bi : Builtins) (v : value) : number :=
  match v with
  | VUndefined => NaN
  | VNull => Finite 0
  | VBool true => Finite 1
  | VBool false => Finite 0
  | VNumber n => n
  | VString s => StringToNumber bi s
  | VArray items => StringToNumber bi (Array_toString bi items)
  | VObject _ => NaN
  end.

(** Math.max and Math.min on two numbers (NaN is contagious). *)
Definition Math_max (a b : number) : number :=
  match a, b with
  | NaN, _ | _, NaN => NaN
  | PosInfinity, _ | _, PosInfinity => PosInfinity
  | NegInfinity, x | x, NegInfinity => x
  | Finite x, Finite y => if Qle_bool x y then Finite y else Finite x
  end.

Definition Math_min (a b : number) : number :=
  match a, b with
  | NaN, _ | _, NaN => NaN
  | NegInfinity, _ | _, NegInfinity => NegInfinity
  | PosInfinity, x | x, PosInfinity => x
  | Finite x, Finite y => if Qle_bool x y then Finite x else Finite y
  end.

(** Own property [k] of an object literal read by JSON.parse: the last
    binding wins. *)
Fixpoint own_property (props : list (string * value)) (k : string) : value :=
  match props with
  | [] => VUndefined
  | (k', v) :: rest =>
      match own_property rest k with
      | VUndefined => if String.eqb k' k then v else VUndefined
      | later => later
      end
  end.

(** [v.k] for the keys the service reads (category, confidence, reasoning
    and the like): a TypeError on null and undefined, the own property of an
    object, undefined on every other value. *)
Definition get_property (v : value) (k : string) : Result value :=
  match v with
  | VUndefined | VNull => Throw "TypeError: Cannot read properties"
  | VObject props => Ok (own_property props k)
  | _ => Ok VUndefined
  end.

(** JS truthiness of a string-or-undefined: [s || d]. *)
Definition or_else (o : option string) (d : string) : string :=
  match o with
  | Some s => if String.eqb s "" then d else s
  | None => d
  end.

(** A log line: level and message. *)
Inductive Level := LInfo | LWarn | LError | LDebug.
Definition LogEntry : Type := Level * string.

(* ===================================================================== *)
(** ** AIService *)
(* ===================================================================== *)

Record EmailCategorization := {
  category : value;
  confidence : number;
  reasoning : value
}.

(** A string returned by a provider, together with what JSON.parse does on
    it ([None]: SyntaxError). *)
Record Text := {
  chars : string;
  JSON_parse : option value
}.

(** openai.chat.completions.create(...): it rejects (network, timeout,
    malformed answer object), or resolves and
    [response.choices[0]?.message?.content] is read. *)
Inductive OpenAIReply :=
| OpenAIRejects (message : string)
| OpenAIResolves (content : option Text).

(** anthropic.messages.create(...): it rejects (or answers without a
    first content block, and reading the block throws), or resolves and
    [response.content[0]] has a [type] and a [text]. *)
Inductive AnthropicReply :=
| AnthropicRejects (message : string)
| AnthropicResolves (block_type : string) (block_text : Text).

(** The service object: the provider name and the two optional clients, a
    client being its answer to a prompt. *)
Record AIService := {
  provider : string;
  openai : option (string -> OpenAIReply);
  anthropic : option (string -> AnthropicReply)
}.

(** The fixed instruction text around the three interpolated fields
    (abridged: no code path inspects it). *)
Definition prompt_intro : string :=
  "You are an AI assistant that categorizes emails for a business outreach platform.".
Definition prompt_outro : string :=
  "Respond with a JSON object containing: category, confidence, reasoning".

Definition buildCategorizationPrompt (subject body fromEmail : string) : string :=
  prompt_intro
  +:+ "Subject: " +:+ subject
  +:+ "From: " +:+ fromEmail
  +:+ "Body: " +:+ String.substring 0 1000 body +:+ "..."
  +:+ prompt_outro.

(** The object literal built from the parsed answer, inside the inner
    try: any throw there is replaced by 'Invalid response format from AI'. *)
Definition categorization_of_parsed (bi : Builtins) (who : string)
    (parsed : option value) : Result EmailCategorization * list LogEntry :=
  match parsed with
  | None => (Throw "Invalid response format from AI",
             [(LError, "Failed to parse " +:+ who +:+ " response:")])
  | Some p =>
      match get_property p "category", get_property p "confidence",
            get_property p "reasoning" with
      | Ok cat, Ok conf, Ok why =>
          (Ok {| category := cat;
                 confidence := Math_min (Math_max (ToNumber bi conf) (Finite 0)) (Finite 1);
                 reasoning := why |}, [])
      | _, _, _ => (Throw "Invalid response format from AI",
                    [(LError, "Failed to parse " +:+ who +:+ " response:")])
      end
  end.

Definition categorizeWithOpenAI (bi : Builtins) (ai : AIService) (prompt : string)
  : Result EmailCategorization * list LogEntry :=
  match openai ai with
  | None => (Throw "OpenAI client not initialized", [])
  | Some create =>
      match create prompt with
      | OpenAIRejects e => (Throw e, [])
      | OpenAIResolves None => (Throw "No response from OpenAI", [])
      | OpenAIResolves (Some content) =>
          if String.eqb (chars content) ""
          then (Throw "No response from OpenAI", [])
          else categorization_of_parsed bi "OpenAI" (JSON_parse content)
      end
  end.

Definition categorizeWithAnthropic (bi : Builtins) (ai : AIService) (prompt : string)
  : Result EmailCategorization * list LogEntry :=
  match anthropic ai with
  | None => (Throw "Anthropic client not initialized", [])
  | Some create =>
      match create prompt with
      | AnthropicRejects e => (Throw e, [])
      | AnthropicResolves ty txt =>
          if String.eqb ty "text"
          then categorization_of_parsed bi "Anthropic" (JSON_parse txt)
          else (Throw "Unexpected response type from Anthropic", [])
      end
  end.

Definition default_categorization : EmailCategorization :=
  {| category := VString "Not Interested";
     confidence := Finite (1 # 2);
     reasoning := VString "AI categorization failed, defaulting to Not Interested" |}.

(** categorizeEmail: the whole body sits in one try; the catch logs and
    returns the default categorization. *)
Definition categorizeEmail (bi : Builtins) (ai : AIService)
    (subject body fromEmail : string) : EmailCategorization * list LogEntry :=
  let prompt := buildCategorizationPrompt subject body fromEmail in
  let attempt :=
    if String.eqb (provider ai) "openai" && bool_decide (is_Some (openai ai))
    then categorizeWithOpenAI bi ai prompt
    else if bool_decide (is_Some (anthropic ai))
    then categorizeWithAnthropic bi ai prompt
    else (Throw "No AI provider configured", []) in
  match attempt with
  | (Ok c, logs) => (c, logs)
  | (Throw _, logs) =>
      (default_categorization, logs ++ [(LError, "Failed to categorize email:")])
  end.

(** *** generateReplySuggestion

    The same two clients, asked for a reply; [ai] gives their answers to
    the requests of this method. *)

Module Reply.

Record ReplySuggestion := {
  suggestedReply : value;
  confidence : number;
  reasoning : value
}.

Record OriginalEmail := {
  subject : string;
  body : string;
  fromEmail : string
}.

(** The fixed text around the interpolated fields, abridged as for the
    categorization prompt. *)
Definition prompt_intro : string :=
  "You are an AI assistant that generates professional email replies for business outreach.".
Definition prompt_outro : string :=
  "Respond with a JSON object containing: suggestedReply, confidence, reasoning".

(** The body is interpolated whole. *)
Definition buildReplySuggestionPrompt (originalEmail : OriginalEmail)
    (context productInfo agenda : string) : string :=
  prompt_intro
  +:+ "Subject: " +:+ subject originalEmail
  +:+ "From: " +:+ fromEmail originalEmail
  +:+ "Body: " +:+ body originalEmail
  +:+ "Context: " +:+ context
  +:+ "Product Information: " +:+ productInfo
  +:+ "Outreach Agenda: " +:+ agenda
  +:+ prompt_outro.

Definition suggestion_of_parsed (bi : Builtins) (who : string)
    (parsed : option value) : Result ReplySuggestion * list LogEntry :=
  match parsed with
  | None => (Throw "Invalid response format from AI",
             [(LError, "Failed to parse " +:+ who +:+ " reply response:")])
  | Some p =>
      match get_property p "suggestedReply", get_property p "confidence",
            get_property p "reasoning" with
      | Ok reply, Ok conf, Ok why =>
          (Ok {| suggestedReply := reply;
                 confidence := Math_min (Math_max (ToNumber bi conf) (Finite 0)) (Finite 1);
                 reasoning := why |}, [])
      | _, _, _ => (Throw "Invalid response format from AI",
                    [(LError, "Failed to parse " +:+ who +:+ " reply response:")])
      end
  end.

Definition generateReplyWithOpenAI (bi : Builtins) (ai : AIService) (prompt : string)
  : Result ReplySuggestion * list LogEntry :=
  match openai ai with
  | None => (Throw "OpenAI client not initialized", [])
  | Some create =>
      match create prompt with
      | OpenAIRejects e => (Throw e, [])
      | OpenAIResolves None => (Throw "No response from OpenAI", [])
      | OpenAIResolves (Some content) =>
          if String.eqb (chars content) ""
          then (Throw "No response from OpenAI", [])
          else suggestion_of_parsed bi "OpenAI" (JSON_parse content)
      end
  end.

Definition generateReplyWithAnthropic (bi : Builtins) (ai : AIService) (prompt : string)
  : Result ReplySuggestion * list LogEntry :=
  match anthropic ai with
  | None => (Throw "Anthropic client not initialized", [])
  | Some create =>
      match create prompt with
      | AnthropicRejects e => (Throw e, [])
      | AnthropicResolves ty txt =>
          if String.eqb ty "text"
          then suggestion_of_parsed bi "Anthropic" (JSON_parse txt)
          else (Throw "Unexpected response type from Anthropic", [])
      end
  end.

Definition fallback : ReplySuggestion :=
  {| suggestedReply := VString "Thank you for your email. I will get back to you soon.";
     confidence := Finite (3 # 10);
     reasoning := VString "AI reply generation failed, using fallback response" |}.

Definition generateReplySuggestion (bi : Builtins) (ai : AIService)
    (originalEmail : OriginalEmail) (context productInfo agenda : string)
  : ReplySuggestion * list LogEntry :=
  let prompt := buildReplySuggestionPrompt originalEmail context productInfo agenda in
  let attempt :=
    if String.eqb (provider ai) "openai" && bool_decide (is_Some (openai ai))
    then generateReplyWithOpenAI bi ai prompt
    else if bool_decide (is_Some (anthropic ai))
    then generateReplyWithAnthropic bi ai prompt
    else (Throw "No AI provider configured", []) in
  match attempt with
  | (Ok r, logs) => (r, logs)
  | (Throw _, logs) =>
      (fallback, logs ++ [(LError, "Failed to generate reply suggestion:")])
  end.

End Reply.

(** *** extractKeyInformation

    Only the OpenAI client is ever asked; what it answers is returned as
    JSON.parse gives it. *)

(** The prompt (its fixed text abridged): the subject, and the first
    1500 characters of the body. *)
Definition key_information_prompt (subject body : string) : string :=
  "Analyze the following email and extract key information:"
  +:+ "Subject: " +:+ subject
  +:+ "Body: " +:+ String.substring 0 1500 body +:+ "..."
  +:+ "Respond with JSON format.".

Definition fallback_analysis : value :=
  VObject [("keyPoints", VArray [VString "Email received"]);
           ("sentiment", VString "neutral");
           ("urgency", VString "low");
           ("actionRequired", VBool false)].

Definition extractKeyInformation (ai : AIService) (subject body : string)
  : value * list LogEntry :=
  let prompt := key_information_prompt subject body in
  let attempt : Result value :=
    match openai ai with
    | Some create =>
        if String.eqb (provider ai) "openai"
        then match create prompt with
             | OpenAIRejects e => Throw e
             | OpenAIResolves None => Throw "No response from OpenAI"
             | OpenAIResolves (Some content) =>
                 if String.eqb (chars content) ""
                 then Throw "No response from OpenAI"
                 else match JSON_parse content with
                      | Some v => Ok v
                      | None => Throw "SyntaxError: Unexpected token"
                      end
             end
        else Ok fallback_analysis
    | None => Ok fallback_analysis
    end in
  match attempt with
  | Ok v => (v, [])
  | Throw _ => (fallback_analysis, [(LError, "Failed to extract key information:")])
  end.

(* ===================================================================== *)
(** ** Map<number, V>: insertion-ordered, as the for-of loops see it *)
(* ===================================================================== *)

Definition JsMap (V : Type) : Type := list (Z * V).

Fixpoint Map_get {V} (m : JsMap V) (k : Z) : option V :=
  match m with
  | [] => None
  | (k', v) :: rest => if Z.eqb k' k then Some v else Map_get rest k
  end.

(** set: an existing key keeps its place, a new key goes last. *)
Fixpoint Map_set {V} (m : JsMap V) (k : Z) (v : V) : JsMap V :=
  match m with
  | [] => [(k, v)]
  | (k', v') :: rest =>
      if Z.eqb k' k then (k, v) :: rest else (k', v') :: Map_set rest k v
  end.

Fixpoint Map_delete {V} (m : JsMap V) (k : Z) : JsMap V :=
  match m with
  | [] => []
  | (k', v') :: rest =>
      if Z.eqb k' k then Map_delete rest k else (k', v') :: Map_delete rest k
  end.

Definition Map_clear {V} (m : JsMap V) : JsMap V := [].

(* ===================================================================== *)
(** ** Accounts, parsed mail, documents *)
(* ===================================================================== *)

Record IMAPAccount := {
  id : Z;
  name : string;
  host : string;
  port : Z;
  secure : bool;
  username : string;
  password : string;
  folders : list string;
  isActive : bool
}.

(** mailparser's address objects, as far as parseEmail reads them. *)
Record EmailAddress := {
  address : option string;
  addr_name : option string
}.

Record AddressObject := {
  addr_value : list EmailAddress
}.

Record ParsedAttachment := {
  att_filename : option string;
  att_contentType : string;
  att_size : Z;
  att_cid : option string
}.

(** ParsedMail: every field parseEmail reads; [None] is undefined.  Dates
    are held as their toISOString(). *)
Record ParsedMail := {
  p_messageId : option string;
  p_from : option AddressObject;
  p_to : option AddressObject;
  p_cc : option AddressObject;
  p_bcc : option AddressObject;
  p_subject : option string;
  p_date : option string;
  p_receivedDate : option string;
  p_text : option string;
  p_html : option string;
  p_attachments : option (list ParsedAttachment);
  p_flags : option (list string)
}.

Record Attachment := {
  filename : string;
  contentType : string;
  size_bytes : Z;
  cid : option string
}.

Record EmailDocument := {
  doc_id : string;
  messageId : string;
  accountId : Z;
  accountName : string;
  folder : string;
  subject : string;
  fromEmail : string;
  fromName : string;
  toEmails : list (option string);
  ccEmails : list (option string);
  bccEmails : list (option string);
  date : string;
  receivedDate : string;
  size : Z;
  flags : list string;
  bodyText : string;
  bodyHtml : string;
  attachments : list Attachment;
  aiCategory : value;
  aiConfidence : number;
  isRead : bool;
  isImportant : bool;
  createdAt : string;
  updatedAt : string
}.

(** What one run of parseEmail draws from outside its arguments: one
    uuidv4() and (up to) four readings of the clock, new Date().toISOString(). *)
Record Draws := {
  uuidv4 : string;
  now_date : string;
  now_receivedDate : string;
  now_createdAt : string;
  now_updatedAt : string
}.

Definition addresses (o : option AddressObject) : list (option string) :=
  match o with
  | Some a => map address (addr_value a)
  | None => []
  end.

Definition first_address (o : option AddressObject) : option EmailAddress :=
  match o with
  | Some a => head (addr_value a)
  | None => None
  end.

(** parseEmail.  [this.accounts] is the first argument. *)
Definition parseEmail (accounts : JsMap IMAPAccount) (d : Draws)
    (parsed : ParsedMail) (accountId : Z) (folderName : string)
  : option EmailDocument :=
  match Map_get accounts accountId with
  | None => None
  | Some account =>
      let emailId := uuidv4 d in
      let messageId := or_else (p_messageId parsed) emailId in
      let fromEmail := or_else (first_address (p_from parsed) ≫= address) "" in
      let fromName := or_else (first_address (p_from parsed) ≫= addr_name) "" in
      let attachments :=
        match p_attachments parsed with
        | Some atts =>
            map (fun att => {| filename := or_else (att_filename att) "unknown";
                               contentType := att_contentType att;
                               size_bytes := att_size att;
                               cid := att_cid att |}) atts
        | None => []
        end in
      Some {|
        doc_id := emailId;
        messageId := messageId;
        accountId := accountId;
        accountName := name account;
        folder := folderName;
        subject := or_else (p_subject parsed) "";
        fromEmail := fromEmail;
        fromName := fromName;
        toEmails := addresses (p_to parsed);
        ccEmails := addresses (p_cc parsed);
        bccEmails := addresses (p_bcc parsed);
        date := default (now_date d) (p_date parsed);
        receivedDate := default (now_receivedDate d) (p_receivedDate parsed);
        size := match p_text parsed with
                | Some t => Z.of_nat (String.length t)
                | None => 0
                end;
        flags := default [] (p_flags parsed);
        bodyText := or_else (p_text parsed) "";
        bodyHtml := or_else (p_html parsed) "";
        attachments := attachments;
        aiCategory := VString "Not Interested";
        aiConfidence := Finite (1 # 2);
        isRead := false;
        isImportant := false;
        createdAt := now_createdAt d;
        updatedAt := now_updatedAt d
      |}
  end.

(** email.aiCategory = ...; email.aiConfidence = ... *)
Definition set_categorization (e : EmailDocument) (c : EmailCategorization)
  : EmailDocument :=
  {| doc_id := doc_id e; messageId := messageId e; accountId := accountId e;
     accountName := accountName e; folder := folder e; subject := subject e;
     fromEmail := fromEmail e; fromName := fromName e; toEmails := toEmails e;
     ccEmails := ccEmails e; bccEmails := bccEmails e; date := date e;
     receivedDate := receivedDate e; size := size e; flags := flags e;
     bodyText := bodyText e; bodyHtml := bodyHtml e; attachments := attachments e;
     aiCategory := category c;
     aiConfidence := confidence c;
     isRead := isRead e; isImportant := isImportant e;
     createdAt := createdAt e; updatedAt := updatedAt e |}.

(* ===================================================================== *)
(** ** The external world: Postgres, Elasticsearch, the trace of calls *)
(* ===================================================================== *)

(** A row of [emails] (createTables): SERIAL id, message_id UNIQUE NOT
    NULL, and the other 21 columns the INSERT fills. *)
Record EmailRow := {
  row_id : Z;
  message_id : string;
  account_id : Z;
  row_folder : string;
  row_subject : string;
  from_email : string;
  from_name : string;
  to_emails : list (option string);
  cc_emails : list (option string);
  bcc_emails : list (option string);
  row_date : string;
  received_date : string;
  row_size : Z;
  row_flags : list string;
  body_text : string;
  body_html : string;
  row_attachments : list Attachment;
  ai_category : value;
  ai_confidence : number;
  is_read : bool;
  is_important : bool;
  created_at : string;
  updated_at : string
}.

(** A row of [email_accounts]; is_active is BOOLEAN DEFAULT true, nullable. *)
Record AccountRow := {
  acc_id : Z;
  acc_name : string;
  acc_host : string;
  acc_port : Z;
  acc_secure : bool;
  acc_username : string;
  acc_password : string;
  acc_folders : list string;
  is_active : option bool
}.

(** The payload of the 'newEmail' event. *)
Record NewEmail := {
  ev_id : string;
  ev_subject : string;
  ev_fromEmail : string;
  ev_fromName : string;
  ev_aiCategory : value;
  ev_aiConfidence : number;
  ev_date : string
}.

(** The three statements the sync service sends through
    DatabaseService.query. *)
Inductive Statement :=
| SelectActiveAccounts
| UpsertEmail (e : EmailDocument)
| InsertAccount (a : IMAPAccount).

Inductive QueryResult :=
| Rows (rows : list AccountRow)
| Done
| Returning (new_id : Z).

(** A call that leaves the orchestrator for a collaborator. *)
Inductive Call :=
| EsGet (doc : string)
| Classify (subject body fromEmail : string)
| PgQuery (s : Statement)
| EsIndex (e : EmailDocument)
| ChromaAdd (e : EmailDocument)
| SlackPost (e : EmailDocument)
| WebhookPost (e : EmailDocument)
| IoEmit (ev : NewEmail).

Record World := {
  es_index : gmap string EmailDocument;
  emails_table : list EmailRow;
  emails_serial : Z;
  accounts_table : list AccountRow;
  accounts_serial : Z;
  calls : list Call;
  logs : list LogEntry
}.

(** What the outside decides: configuration read from the process
    environment at construction, and, at every call, whether the
    collaborator fails.  A decision may depend on the whole world, hence on
    everything that happened before. *)
Record Env := {
  builtins : Builtins;
  AI_PROVIDER : option string;
  OPENAI_API_KEY : bool;
  ANTHROPIC_API_KEY : bool;
  SLACK_WEBHOOK_URL : string;
  WEBHOOK_URL : string;
  chroma_collection : bool;
  openai_create : World -> string -> OpenAIReply;
  anthropic_create : World -> string -> AnthropicReply;
  pg_rejects : World -> Statement -> bool;
  es_get_fails : World -> string -> bool;
  es_index_fails : World -> EmailDocument -> bool;
  chroma_add_fails : World -> EmailDocument -> bool;
  slack_post_fails : World -> EmailDocument -> bool;
  webhook_post_fails : World -> EmailDocument -> bool;
  imap_end_throws : World -> nat -> bool;
  intervalMinutes : Z
}.

Definition set_es_index (f : gmap string EmailDocument -> gmap string EmailDocument)
    (w : World) : World :=
  {| es_index := f (es_index w); emails_table := emails_table w;
     emails_serial := emails_serial w; accounts_table := accounts_table w;
     accounts_serial := accounts_serial w; calls := calls w; logs := logs w |}.

Definition set_emails (t : list EmailRow) (serial : Z) (w : World) : World :=
  {| es_index := es_index w; emails_table := t;
     emails_serial := serial; accounts_table := accounts_table w;
     accounts_serial := accounts_serial w; calls := calls w; logs := logs w |}.

Definition set_accounts_table (t : list AccountRow) (serial : Z) (w : World) : World :=
  {| es_index := es_index w; emails_table := emails_table w;
     emails_serial := emails_serial w; accounts_table := t;
     accounts_serial := serial; calls := calls w; logs := logs w |}.

Definition record_call (c : Call) (w : World) : World :=
  {| es_index := es_index w; emails_table := emails_table w;
     emails_serial := emails_serial w; accounts_table := accounts_table w;
     accounts_serial := accounts_serial w; calls := calls w ++ [c]; logs := logs w |}.

Definition log_lines (l : list LogEntry) (w : World) : World :=
  {| es_index := es_index w; emails_table := emails_table w;
     emails_serial := emails_serial w; accounts_table := accounts_table w;
     accounts_serial := accounts_serial w; calls := calls w; logs := logs w ++ l |}.

(** *** A state-and-exception monad

    [ST St A]: a computation over a state [St] that returns an [A] or
    throws.  The pipeline runs in [M = ST World]; the service (further
    down) in [ST State]. *)

Definition ST (St A : Type) : Type := St -> Result A * St.

Definition ret {St A} (a : A) : ST St A := fun s => (Ok a, s).

Definition bind {St A B} (m : ST St A) (k : A -> ST St B) : ST St B :=
  fun s => match m s with
           | (Ok a, s') => k a s'
           | (Throw e, s') => (Throw e, s')
           end.

Definition throw {St A} (e : string) : ST St A := fun s => (Throw e, s).

(** try { body } catch (error) { handler } *)
Definition try_catch {St A} (body : ST St A) (handler : string -> ST St A) : ST St A :=
  fun s => match body s with
           | (Ok a, s') => (Ok a, s')
           | (Throw e, s') => handler e s'
           end.

Definition get {St} : ST St St := fun s => (Ok s, s).

Definition modify {St} (f : St -> St) : ST St unit := fun s => (Ok tt, f s).

Notation "x <- m ;; k" := (bind m (fun x => k))
  (at level 100, m at next level, right associativity).
Notation "m ;;; k" := (bind m (fun _ => k))
  (at level 100, right associativity).

(** for (const x of xs) { body }: a throw leaves the loop. *)
Fixpoint for_of {St A} (body : A -> ST St unit) (xs : list A) : ST St unit :=
  match xs with
  | [] => ret tt
  | x :: rest => body x ;;; for_of body rest
  end.

Definition M (A : Type) : Type := ST World A.

Definition logger (lv : Level) (msg : string) : M unit :=
  modify (log_lines [(lv, msg)]).

Definition call (c : Call) : M unit := modify (record_call c).

Definition get_world : M World := get.

(* ===================================================================== *)
(** ** DatabaseService.query, on the statements the service sends *)
(* ===================================================================== *)

Definition row_of_email (serial : Z) (e : EmailDocument) : EmailRow :=
  {| row_id := serial; message_id := messageId e; account_id := accountId e;
     row_folder := folder e; row_subject := subject e; from_email := fromEmail e;
     from_name := fromName e; to_emails := toEmails e; cc_emails := ccEmails e;
     bcc_emails := bccEmails e; row_date := date e; received_date := receivedDate e;
     row_size := size e; row_flags := flags e; body_text := bodyText e;
     body_html := bodyHtml e; row_attachments := attachments e;
     ai_category := aiCategory e; ai_confidence := aiConfidence e;
     is_read := isRead e; is_important := isImportant e;
     created_at := createdAt e; updated_at := updatedAt e |}.

(** ON CONFLICT (message_id) DO UPDATE SET updated_at = $22,
    ai_category = $17, ai_confidence = $18 *)
Definition on_conflict_update (e : EmailDocument) (r : EmailRow) : EmailRow :=
  {| row_id := row_id r; message_id := message_id r; account_id := account_id r;
     row_folder := row_folder r; row_subject := row_subject r;
     from_email := from_email r; from_name := from_name r;
     to_emails := to_emails r; cc_emails := cc_emails r;
     bcc_emails := bcc_emails r; row_date := row_date r;
     received_date := received_date r; row_size := row_size r;
     row_flags := row_flags r; body_text := body_text r;
     body_html := body_html r; row_attachments := row_attachments r;
     ai_category := aiCategory e; ai_confidence := aiConfidence e;
     is_read := is_read r; is_important := is_important r;
     created_at := created_at r; updated_at := updatedAt e |}.

Definition conflicts (mid : string) (r : EmailRow) : bool :=
  String.eqb (message_id r) mid.

(** INSERT INTO emails ... ON CONFLICT (message_id) DO UPDATE ... *)
Definition upsert_email (e : EmailDocument) (t : list EmailRow) (serial : Z)
  : list EmailRow :=
  if existsb (conflicts (messageId e)) t
  then map (fun r => if conflicts (messageId e) r then on_conflict_update e r else r) t
  else t ++ [row_of_email serial e].

Definition row_of_account (serial : Z) (a : IMAPAccount) : AccountRow :=
  {| acc_id := serial; acc_name := name a; acc_host := host a; acc_port := port a;
     acc_secure := secure a; acc_username := username a;
     acc_password := password a; acc_folders := folders a;
     is_active := Some (isActive a) |}.

Definition is_active_true (r : AccountRow) : bool :=
  match is_active r with
  | Some true => true
  | _ => false
  end.

(** query(text, params): the statement reaches Postgres, which carries it
    out or rejects it (connection lost, constraint violated, ...); a
    rejection is thrown to the caller. *)
Definition query (env : Env) (s : Statement) : M QueryResult :=
  w <- get_world ;;
  call (PgQuery s) ;;;
  if pg_rejects env w s then throw "pg: statement failed"
  else
    match s with
    | SelectActiveAccounts =>
        ret (Rows (filter (fun r => is_active_true r = true) (accounts_table w)))
    | UpsertEmail e =>
        modify (fun w' => set_emails
                             (upsert_email e (emails_table w') (emails_serial w'))
                             (emails_serial w' + 1) w') ;;;
        ret Done
    | InsertAccount a =>
        modify (fun w' => set_accounts_table
                             (accounts_table w' ++ [row_of_account (accounts_serial w') a])
                             (accounts_serial w' + 1) w') ;;;
        ret (Returning (accounts_serial w))
    end.

(* ===================================================================== *)
(** ** DatabaseService.query and transaction, on the pool *)
(* ===================================================================== *)

(** try { body } finally { fin }: [fin] always runs; what it throws
    replaces the outcome of [body]. *)
Definition finally {St A} (body : ST St A) (fin : ST St unit) : ST St A :=
  fun s => match body s with
           | (r, s') =>
               match fin s' with
               | (Ok _, s'') => (r, s'')
               | (Throw e, s'') => (Throw e, s'')
               end
           end.

Module Pool.

(** What is asked of the pg pool and of the client checked out of it. *)
Inductive Op :=
| PoolConnect
| ClientQuery (text : string)
| ClientRelease.

(** Postgres, seen from the service: after the operations [ops], whether
    pool.connect() rejects, and what client.query(text) answers. *)
Record Pg (R : Type) := {
  connect_rejects : list Op -> bool;
  client_answers : list Op -> string -> Result R
}.
Arguments connect_rejects {R} _ _.
Arguments client_answers {R} _ _ _.

(** The operations so far are the state. *)
Definition P (A : Type) : Type := ST (list Op) A.

Definition pool_connect {R} (pg : Pg R) : P unit :=
  ops <- get ;;
  modify (fun t => t ++ [PoolConnect]) ;;;
  if connect_rejects pg ops then throw "pool: connect failed" else ret tt.

Definition client_query {R} (pg : Pg R) (text : string) : P R :=
  ops <- get ;;
  modify (fun t => t ++ [ClientQuery text]) ;;;
  match client_answers pg ops text with
  | Ok r => ret r
  | Throw e => throw e
  end.

Definition client_release : P unit :=
  modify (fun t => t ++ [ClientRelease]).

Definition query {R} (pg : Pg R) (text : string) : P R :=
  pool_connect pg ;;;
  finally (client_query pg text) client_release.

(** transaction(callback): the callback is given the client, that is, it
    runs in [P]. *)
Definition transaction {R T} (pg : Pg R) (callback : P T) : P T :=
  pool_connect pg ;;;
  finally
    (try_catch
       (client_query pg "BEGIN" ;;;
        result <- callback ;;
        client_query pg "COMMIT" ;;;
        ret result)
       (fun error => client_query pg "ROLLBACK" ;;; throw error))
    client_release.

End Pool.

(* ===================================================================== *)
(** ** ElasticsearchService *)
(* ===================================================================== *)

(** getEmailById: the document, null on a 404, any other failure is
    logged and thrown again. *)
Definition getEmailById (env : Env) (doc : string) : M (option EmailDocument) :=
  w <- get_world ;;
  call (EsGet doc) ;;;
  if es_get_fails env w doc
  then logger LError "Failed to get email by ID:" ;;; throw "es: get failed"
  else ret (es_index w !! doc).

(** indexEmail: index under email.id; a failure is logged and thrown again. *)
Definition indexEmail (env : Env) (e : EmailDocument) : M unit :=
  w <- get_world ;;
  call (EsIndex e) ;;;
  if es_index_fails env w e
  then logger LError "Failed to index email:" ;;; throw "es: index failed"
  else modify (set_es_index (insert (doc_id e) e)) ;;;
       logger LDebug "Email indexed".

(* ===================================================================== *)
(** ** VectorDBService, SlackService, WebhookService *)
(* ===================================================================== *)

(** VectorDBService.storeEmail: everything inside one try; the catch only
    logs. *)
Definition VectorDB_storeEmail (env : Env) (e : EmailDocument) : M unit :=
  try_catch
    (if chroma_collection env
     then w <- get_world ;;
          call (ChromaAdd e) ;;;
          if chroma_add_fails env w e then throw "chroma: add failed"
          else logger LDebug "Email stored in vector database"
     else throw "Collection not initialized")
    (fun _ => logger LError "Failed to store email in vector database:").

Definition sendInterestedEmailNotification (env : Env) (e : EmailDocument) : M unit :=
  if String.eqb (SLACK_WEBHOOK_URL env) ""
  then logger LWarn "Slack webhook URL not configured"
  else
    try_catch
      (w <- get_world ;;
       call (SlackPost e) ;;;
       if slack_post_fails env w e then throw "axios: post failed"
       else logger LInfo "Slack notification sent")
      (fun _ => logger LError "Failed to send Slack notification:").

Definition triggerInterestedEmailWebhook (env : Env) (e : EmailDocument) : M unit :=
  if String.eqb (WEBHOOK_URL env) ""
  then logger LWarn "Webhook URL not configured"
  else
    try_catch
      (w <- get_world ;;
       call (WebhookPost e) ;;;
       if webhook_post_fails env w e then throw "axios: post failed"
       else logger LInfo "Webhook triggered for interested email")
      (fun _ => logger LError "Failed to trigger webhook:").

(* ===================================================================== *)
(** ** EmailSyncService: the pipeline *)
(* ===================================================================== *)

(** The AIService object as the orchestrator finds it at world [w]: the
    constructor's configuration, and clients that answer as the
    environment decides at [w]. *)
Definition aiService (env : Env) (w : World) : AIService :=
  {| provider := or_else (AI_PROVIDER env) "openai";
     openai := if OPENAI_API_KEY env then Some (openai_create env w) else None;
     anthropic := if ANTHROPIC_API_KEY env then Some (anthropic_create env w) else None |}.

(** this.aiService.categorizeEmail(subject, bodyText, fromEmail), seen
    from the orchestrator. *)
Definition aiService_categorizeEmail (env : Env) (subject body fromEmail : string)
  : M EmailCategorization :=
  w <- get_world ;;
  call (Classify subject body fromEmail) ;;;
  let r := categorizeEmail (builtins env) (aiService env w) subject body fromEmail in
  modify (log_lines (snd r)) ;;;
  ret (fst r).

Definition storeEmailInDatabase (env : Env) (email : EmailDocument) : M unit :=
  try_catch
    (query env (UpsertEmail email) ;;; ret tt)
    (fun _ => logger LError "Error storing email in database:").

Definition handleInterestedEmail (env : Env) (email : EmailDocument) : M unit :=
  try_catch
    (sendInterestedEmailNotification env email ;;;
     triggerInterestedEmailWebhook env email ;;;
     logger LInfo "Handled interested email")
    (fun _ => logger LError "Error handling interested email:").

(** [v === s] for a string literal [s]. *)
Definition strict_equal_string (v : value) (s : string) : bool :=
  match v with
  | VString t => String.eqb t s
  | _ => false
  end.

Definition newEmail_of (email : EmailDocument) : NewEmail :=
  {| ev_id := doc_id email; ev_subject := subject email;
     ev_fromEmail := fromEmail email; ev_fromName := fromName email;
     ev_aiCategory := aiCategory email; ev_aiConfidence := aiConfidence email;
     ev_date := date email |}.

(** One turn of the for-of loop of processEmails. *)
Definition processEmails_body (env : Env) (email : EmailDocument) : M unit :=
  existing <- getEmailById env (doc_id email) ;;
  match existing with
  | Some _ => ret tt
  | None =>
      categorization <- aiService_categorizeEmail env
                          (subject email) (bodyText email) (fromEmail email) ;;
      let email := set_categorization email categorization in
      storeEmailInDatabase env email ;;;
      indexEmail env email ;;;
      VectorDB_storeEmail env email ;;;
      (if strict_equal_string (category categorization) "Interested"
       then handleInterestedEmail env email
       else ret tt) ;;;
      call (IoEmit (newEmail_of email))
  end.

(** processEmails: the try encloses the loop. *)
Definition processEmails (env : Env) (emails : list EmailDocument) : M unit :=
  try_catch
    (for_of (processEmails_body env) emails)
    (fun _ => logger LError "Error processing emails:").

(* ===================================================================== *)
(** ** EmailSyncService: the object, and the runtime around it *)
(* ===================================================================== *)

(** The mutable fields of the service object.  A connection is the handle
    of an Imap object. *)
Record Service := {
  accounts : JsMap IMAPAccount;
  connections : JsMap nat;
  isRunning : bool;
  syncInterval : option nat
}.

(** An Imap object made by startIDLEConnection: the arguments its
    closures captured, which of its three once-listeners are still
    registered, whether end() was called on it, and the folders for which
    startIDLE registered a 'mail' listener. *)
Record Imap := {
  imap_accountId : Z;
  imap_account : IMAPAccount;
  once_ready : bool;
  once_error : bool;
  once_end : bool;
  end_called : bool;
  mail_listeners : list string
}.

(** An armed timer and the closure it will run. *)
Inductive Timer :=
| ReconnectTimeout (delay : Z) (accountId : Z) (account : IMAPAccount)
| PeriodicInterval (period : Z).

(** A request handed to the IMAP library whose callback has not run yet. *)
Inductive Request :=
| OpenBox (c : nat) (folderName : string)
| SearchSince (c : nat) (folderName : string)
| SearchUnseen (c : nat) (folderName : string).

(** What was asked of the IMAP library, in order. *)
Inductive Command :=
| Connect (c : nat)
| End (c : nat)
| OpenBoxCmd (c : nat) (folderName : string)
| SearchCmd (c : nat) (folderName : string)
| Idle (c : nat)
| IdleStop (c : nat)
| FetchCmd (c : nat) (uids : list nat).

(** A running imap.fetch(uids): the closure of fetchEmails with its local
    [emails] array, and the ids whose message has not been delivered yet. *)
Record Fetch := {
  f_accountId : Z;
  f_folderName : string;
  f_awaited : list nat;
  f_emails : list EmailDocument;
  f_ended : bool
}.

(** A running simpleParser(buffer) of fetch [job_fetch]; [job_result] is
    what it will answer ([None]: it rejects). *)
Record ParseJob := {
  job_fetch : nat;
  job_uid : nat;
  job_result : option ParsedMail
}.

Record Runtime := {
  imaps : gmap nat Imap;
  timers : gmap nat Timer;
  requests : list Request;
  fetches : gmap nat Fetch;
  parsing : gmap nat ParseJob;
  commands : list Command;
  next_handle : nat
}.

Record State := {
  service : Service;
  runtime : Runtime;
  world : World
}.

Definition Sync (A : Type) : Type := ST State A.

(** *** Field updates *)

Definition set_service (f : Service -> Service) (st : State) : State :=
  {| service := f (service st); runtime := runtime st; world := world st |}.

Definition set_runtime (f : Runtime -> Runtime) (st : State) : State :=
  {| service := service st; runtime := f (runtime st); world := world st |}.

Definition set_world (f : World -> World) (st : State) : State :=
  {| service := service st; runtime := runtime st; world := f (world st) |}.

Definition set_accounts (f : JsMap IMAPAccount -> JsMap IMAPAccount) (s : Service) : Service :=
  {| accounts := f (accounts s); connections := connections s;
     isRunning := isRunning s; syncInterval := syncInterval s |}.

Definition set_connections (f : JsMap nat -> JsMap nat) (s : Service) : Service :=
  {| accounts := accounts s; connections := f (connections s);
     isRunning := isRunning s; syncInterval := syncInterval s |}.

Definition set_isRunning (b : bool) (s : Service) : Service :=
  {| accounts := accounts s; connections := connections s;
     isRunning := b; syncInterval := syncInterval s |}.

Definition set_syncInterval (t : option nat) (s : Service) : Service :=
  {| accounts := accounts s; connections := connections s;
     isRunning := isRunning s; syncInterval := t |}.

Definition set_imaps (f : gmap nat Imap -> gmap nat Imap) (r : Runtime) : Runtime :=
  {| imaps := f (imaps r); timers := timers r; requests := requests r;
     fetches := fetches r; parsing := parsing r; commands := commands r;
     next_handle := next_handle r |}.

Definition set_timers (f : gmap nat Timer -> gmap nat Timer) (r : Runtime) : Runtime :=
  {| imaps := imaps r; timers := f (timers r); requests := requests r;
     fetches := fetches r; parsing := parsing r; commands := commands r;
     next_handle := next_handle r |}.

Definition set_requests (f : list Request -> list Request) (r : Runtime) : Runtime :=
  {| imaps := imaps r; timers := timers r; requests := f (requests r);
     fetches := fetches r; parsing := parsing r; commands := commands r;
     next_handle := next_handle r |}.

Definition set_fetches (f : gmap nat Fetch -> gmap nat Fetch) (r : Runtime) : Runtime :=
  {| imaps := imaps r; timers := timers r; requests := requests r;
     fetches := f (fetches r); parsing := parsing r; commands := commands r;
     next_handle := next_handle r |}.

Definition set_parsing (f : gmap nat ParseJob -> gmap nat ParseJob) (r : Runtime) : Runtime :=
  {| imaps := imaps r; timers := timers r; requests := requests r;
     fetches := fetches r; parsing := f (parsing r); commands := commands r;
     next_handle := next_handle r |}.

Definition issue (c : Command) (r : Runtime) : Runtime :=
  {| imaps := imaps r; timers := timers r; requests := requests r;
     fetches := fetches r; parsing := parsing r; commands := commands r ++ [c];
     next_handle := next_handle r |}.

Definition bump (r : Runtime) : Runtime :=
  {| imaps := imaps r; timers := timers r; requests := requests r;
     fetches := fetches r; parsing := parsing r; commands := commands r;
     next_handle := S (next_handle r) |}.

(** *** Small steps of the service monad *)

(** Run a pipeline computation on the world of the state. *)
Definition lift {A} (m : M A) : Sync A :=
  fun st => let r := m (world st) in
            (fst r, set_world (fun _ => snd r) st).

Definition log (lv : Level) (msg : string) : Sync unit := lift (logger lv msg).

Definition update_service (f : Service -> Service) : Sync unit := modify (set_service f).

Definition update_runtime (f : Runtime -> Runtime) : Sync unit := modify (set_runtime f).

(** A fresh handle for an object of the runtime. *)
Definition fresh : Sync nat :=
  st <- get ;;
  update_runtime bump ;;;
  ret (next_handle (runtime st)).

(** The state right after the constructor. *)
Definition new_Service : Service :=
  {| accounts := []; connections := []; isRunning := false; syncInterval := None |}.

Definition empty_Runtime : Runtime :=
  {| imaps := ∅; timers := ∅; requests := []; fetches := ∅; parsing := ∅;
     commands := []; next_handle := 0 |}.

Definition initial_State (w : World) : State :=
  {| service := new_Service; runtime := empty_Runtime; world := w |}.

(* ===================================================================== *)
(** ** EmailSyncService: connections *)
(* ===================================================================== *)

(** startIDLEConnection: a new Imap object with its three once-listeners,
    then imap.connect().  Nothing is put in [connections] here: that is
    done by the 'ready' listener. *)
Definition new_Imap (accountId : Z) (account : IMAPAccount) : Imap :=
  {| imap_accountId := accountId; imap_account := account;
     once_ready := true; once_error := true; once_end := true;
     end_called := false; mail_listeners := [] |}.

Definition startIDLEConnection (accountId : Z) (account : IMAPAccount) : Sync unit :=
  c <- fresh ;;
  update_runtime (set_imaps (insert c (new_Imap accountId account))) ;;;
  update_runtime (issue (Connect c)).

(** uids.slice(-50) *)
Definition slice_last (n : nat) (uids : list nat) : list nat :=
  drop (length uids - n) uids.

(** fetchEmails up to the registration of the listeners: imap.fetch(uids)
    and the empty [emails] array.  The listeners are the steps
    [on_message_end], [on_parser_done], [on_fetch_end] below. *)
Definition fetchEmails (accountId : Z) (c : nat) (folderName : string)
    (uids : list nat) : Sync unit :=
  match uids with
  | [] => ret tt
  | _ =>
      f <- fresh ;;
      update_runtime (issue (FetchCmd c uids)) ;;;
      update_runtime (set_fetches (insert f
        {| f_accountId := accountId; f_folderName := folderName;
           f_awaited := uids; f_emails := []; f_ended := false |}))
  end.

(** startIDLE: one openBox per folder of the account. *)
Definition startIDLE (accountId : Z) (c : nat) (account : IMAPAccount) : Sync unit :=
  for_of (fun folderName =>
            update_runtime (issue (OpenBoxCmd c folderName)) ;;;
            update_runtime (set_requests (fun q => q ++ [OpenBox c folderName])))
         (folders account).

(** handleNewMail, up to the callback of the search. *)
Definition handleNewMail (accountId : Z) (c : nat) (folderName : string) : Sync unit :=
  try_catch
    (update_runtime (issue (IdleStop c)) ;;;
     update_runtime (issue (SearchCmd c folderName)) ;;;
     update_runtime (set_requests (fun q => q ++ [SearchUnseen c folderName])))
    (fun _ => log LError "Error handling new mail:").

Definition Request_eqb (a b : Request) : bool :=
  match a, b with
  | OpenBox c f, OpenBox c' f' => Nat.eqb c c' && String.eqb f f'
  | SearchSince c f, SearchSince c' f' => Nat.eqb c c' && String.eqb f f'
  | SearchUnseen c f, SearchUnseen c' f' => Nat.eqb c c' && String.eqb f f'
  | _, _ => false
  end.

(** Take the first pending request equal to [r], if there is one. *)
Fixpoint take_request (r : Request) (q : list Request) : option (list Request) :=
  match q with
  | [] => None
  | r' :: rest =>
      if Request_eqb r r' then Some rest
      else cons r' <$> take_request r rest
  end.

Definition set_imap_flags (ready error ended called : bool) (i : Imap) : Imap :=
  {| imap_accountId := imap_accountId i; imap_account := imap_account i;
     once_ready := once_ready i && ready; once_error := once_error i && error;
     once_end := once_end i && ended; end_called := end_called i || called;
     mail_listeners := mail_listeners i |}.

Definition add_mail_listener (folderName : string) (i : Imap) : Imap :=
  {| imap_accountId := imap_accountId i; imap_account := imap_account i;
     once_ready := once_ready i; once_error := once_error i;
     once_end := once_end i; end_called := end_called i;
     mail_listeners := mail_listeners i ++ [folderName] |}.

(** imap.once('ready', ...) *)
Definition on_ready (c : nat) (i : Imap) : Sync unit :=
  update_runtime (set_imaps (insert c (set_imap_flags false true true false i))) ;;;
  log LInfo "IMAP connection ready for account" ;;;
  update_service (set_connections (fun m => Map_set m (imap_accountId i) c)) ;;;
  startIDLE (imap_accountId i) c (imap_account i).

(** imap.once('error', ...): forget the connection and arm the timer. *)
Definition on_error (c : nat) (i : Imap) : Sync unit :=
  update_runtime (set_imaps (insert c (set_imap_flags true false true false i))) ;;;
  log LError "IMAP error for account" ;;;
  update_service (set_connections (fun m => Map_delete m (imap_accountId i))) ;;;
  t <- fresh ;;
  update_runtime (set_timers (insert t
    (ReconnectTimeout 30000 (imap_accountId i) (imap_account i)))).

(** imap.once('end', ...) *)
Definition on_end (c : nat) (i : Imap) : Sync unit :=
  update_runtime (set_imaps (insert c (set_imap_flags true true false false i))) ;;;
  log LInfo "IMAP connection ended for account" ;;;
  update_service (set_connections (fun m => Map_delete m (imap_accountId i))).

(** The callback of openBox in startIDLE. *)
Definition on_box_opened (c : nat) (i : Imap) (folderName : string) (err : bool)
  : Sync unit :=
  if err then log LError "Error opening folder"
  else
    update_runtime (issue (SearchCmd c folderName)) ;;;
    update_runtime (set_requests (fun q => q ++ [SearchSince c folderName])) ;;;
    update_runtime (issue (Idle c)) ;;;
    update_runtime (set_imaps (insert c (add_mail_listener folderName i))).

(** The callback of the SINCE search in startIDLE ([None]: err). *)
Definition on_search_done (c : nat) (i : Imap) (folderName : string)
    (results : option (list nat)) : Sync unit :=
  match results with
  | None => log LError "Error searching folder"
  | Some [] => ret tt
  | Some uids => fetchEmails (imap_accountId i) c folderName (slice_last 50 uids)
  end.

(** imap.on('mail', ...): every listener registered on the object runs. *)
Definition on_mail (c : nat) (i : Imap) : Sync unit :=
  for_of (fun folderName =>
            log LInfo "New mail detected" ;;;
            handleNewMail (imap_accountId i) c folderName)
         (mail_listeners i).

(** The callback of the UNSEEN search in handleNewMail. *)
Definition on_unseen_done (c : nat) (i : Imap) (folderName : string)
    (results : option (list nat)) : Sync unit :=
  match results with
  | None => log LError "Error searching for new mail:"
  | Some uids =>
      (match uids with
       | [] => ret tt
       | _ => fetchEmails (imap_accountId i) c folderName uids
       end) ;;;
      update_runtime (issue (Idle c))
  end.

(* ===================================================================== *)
(** ** EmailSyncService: the listeners of one fetch *)
(* ===================================================================== *)

Definition set_fetch (awaited : list nat) (emails : list EmailDocument)
    (ended : bool) (f : Fetch) : Fetch :=
  {| f_accountId := f_accountId f; f_folderName := f_folderName f;
     f_awaited := awaited; f_emails := emails; f_ended := ended |}.

(** msg.once('end', async () => ...), up to its first await: the next
    awaited message has been read into [buffer] and simpleParser(buffer) is
    started; [result] is what that parser will answer. *)
Definition on_message_end (fid : nat) (f : Fetch) (result : option ParsedMail)
  : Sync unit :=
  match f_awaited f with
  | [] => ret tt
  | uid :: rest =>
      update_runtime (set_fetches (insert fid (set_fetch rest (f_emails f) (f_ended f) f))) ;;;
      j <- fresh ;;
      update_runtime (set_parsing (insert j
        {| job_fetch := fid; job_uid := uid; job_result := result |}))
  end.

(** The rest of that listener, run when simpleParser settles: parseEmail
    and emails.push, or the catch. *)
Definition on_parser_done (j : nat) (job : ParseJob) (d : Draws) : Sync unit :=
  update_runtime (set_parsing (delete j)) ;;;
  match job_result job with
  | None => log LError "Error parsing email:"
  | Some parsed =>
      st <- get ;;
      match fetches (runtime st) !! job_fetch job with
      | None => ret tt
      | Some f =>
          match parseEmail (accounts (service st)) d parsed
                           (f_accountId f) (f_folderName f) with
          | Some emailDoc =>
              update_runtime (set_fetches (insert (job_fetch job)
                (set_fetch (f_awaited f) (f_emails f ++ [emailDoc]) (f_ended f) f)))
          | None => ret tt
          end
      end
  end.

(** fetch.once('end', ...): the batch handed to processEmails is the
    [emails] array as it stands when the event arrives.  (The array is
    shared: a document pushed while processEmails is suspended on a
    collaborator would still be reached by its for-of.  The turns of two
    listeners are not interleaved here, so a later push reaches no one.) *)
Definition on_fetch_end (env : Env) (fid : nat) (f : Fetch) : Sync unit :=
  update_runtime (set_fetches (insert fid
    (set_fetch (f_awaited f) (f_emails f) true f))) ;;;
  match f_emails f with
  | [] => ret tt
  | emails =>
      lift (processEmails env emails) ;;;
      log LInfo "Processed emails from folder"
  end.

Definition on_fetch_error (fid : nat) : Sync unit :=
  log LError "Error fetching emails:".

(* ===================================================================== *)
(** ** EmailSyncService: lifecycle *)
(* ===================================================================== *)

Definition account_of_row (row : AccountRow) : IMAPAccount :=
  {| id := acc_id row; name := acc_name row; host := acc_host row;
     port := acc_port row; secure := acc_secure row;
     username := acc_username row; password := acc_password row;
     folders := acc_folders row;
     isActive := is_active_true row |}.

(** loadAccounts: SELECT ... WHERE is_active = true, then refill the map. *)
(** this.accounts.set(row.id, {...}) *)
Definition load_account (row : AccountRow) : Sync unit :=
  update_service (set_accounts (fun m => Map_set m (acc_id row) (account_of_row row))).

Definition loadAccounts (env : Env) : Sync unit :=
  try_catch
    (result <- lift (query env SelectActiveAccounts) ;;
     update_service (set_accounts Map_clear) ;;;
     for_of load_account (match result with Rows rows => rows | _ => [] end) ;;;
     log LInfo "Loaded active email accounts")
    (fun e => log LError "Failed to load email accounts:" ;;; throw e).

(** startPeriodicSync: setInterval(..., intervalMinutes * 60 * 1000). *)
Definition startPeriodicSync (env : Env) : Sync unit :=
  t <- fresh ;;
  update_runtime (set_timers (insert t
    (PeriodicInterval (intervalMinutes env * 60 * 1000)))) ;;;
  update_service (set_syncInterval (Some t)).

(** if (account.isActive) await this.startIDLEConnection(accountId, account) *)
Definition connect_if_active (entry : Z * IMAPAccount) : Sync unit :=
  if isActive entry.2 then startIDLEConnection entry.1 entry.2 else ret tt.

Definition startSync (env : Env) : Sync unit :=
  try_catch
    (log LInfo "Starting email synchronization..." ;;;
     loadAccounts env ;;;
     st <- get ;;
     for_of connect_if_active (accounts (service st)) ;;;
     startPeriodicSync env ;;;
     update_service (set_isRunning true) ;;;
     log LInfo "Email synchronization started successfully")
    (fun e => log LError "Failed to start email synchronization:" ;;; throw e).

(** connection.end() *)
Definition imap_end (env : Env) (c : nat) : Sync unit :=
  st <- get ;;
  update_runtime (issue (End c)) ;;;
  if imap_end_throws env (world st) c then throw "imap: end failed"
  else update_runtime (set_imaps (alter (set_imap_flags true true true true) c)).

(** The body of the loop of stopSync over [connections]. *)
Definition close_connection (env : Env) (entry : Z * nat) : Sync unit :=
  try_catch
    (imap_end env entry.2 ;;;
     log LInfo "Closed IMAP connection for account")
    (fun _ => log LError "Error closing connection for account").

Definition stopSync (env : Env) : Sync unit :=
  try_catch
    (log LInfo "Stopping email synchronization..." ;;;
     update_service (set_isRunning false) ;;;
     st <- get ;;
     (match syncInterval (service st) with
      | Some t =>
          update_runtime (set_timers (delete t)) ;;;
          update_service (set_syncInterval None)
      | None => ret tt
      end) ;;;
     for_of (close_connection env) (connections (service st)) ;;;
     update_service (set_connections Map_clear) ;;;
     log LInfo "Email synchronization stopped")
    (fun _ => log LError "Error stopping email synchronization:").

Definition syncAccount (accountId : Z) (account : IMAPAccount) : Sync unit :=
  log LDebug "Syncing account".

Definition syncAllAccounts : Sync unit :=
  st <- get ;;
  for_of (fun entry : Z * IMAPAccount =>
            if isActive entry.2
            then try_catch (syncAccount entry.1 entry.2)
                           (fun _ => log LError "Error syncing account")
            else ret tt)
         (accounts (service st)).

Definition with_id (a : IMAPAccount) (new_id : Z) : IMAPAccount :=
  {| id := new_id; name := name a; host := host a; port := port a;
     secure := secure a; username := username a; password := password a;
     folders := folders a; isActive := isActive a |}.

(** addAccount; the [id] of [accountData] is not read. *)
Definition addAccount (env : Env) (accountData : IMAPAccount) : Sync Z :=
  try_catch
    (result <- lift (query env (InsertAccount accountData)) ;;
     match result with
     | Returning accountId =>
         update_service (set_accounts
           (fun m => Map_set m accountId (with_id accountData accountId))) ;;;
         (if isActive accountData
          then startIDLEConnection accountId (with_id accountData accountId)
          else ret tt) ;;;
         log LInfo "Added new email account" ;;;
         ret accountId
     | _ => throw "TypeError: Cannot read properties of undefined"
     end)
    (fun e => log LError "Error adding email account:" ;;; throw e).

(** A timer fires.  A timeout is spent; an interval stays armed. *)
Definition on_timer (t : nat) (tm : Timer) : Sync unit :=
  match tm with
  | ReconnectTimeout _ accountId account =>
      update_runtime (set_timers (delete t)) ;;;
      st <- get ;;
      if isRunning (service st)
      then startIDLEConnection accountId account
      else ret tt
  | PeriodicInterval _ =>
      st <- get ;;
      if isRunning (service st)
      then log LInfo "Running periodic email sync..." ;;; syncAllAccounts
      else ret tt
  end.

(* ===================================================================== *)
(** ** The event loop *)
(* ===================================================================== *)

(** What can happen to the service: a call from the hosting application,
    an event of the IMAP library, a callback of one of its requests, a
    parser that settles, a timer that fires. *)
Inductive Event :=
| CallStartSync
| CallStopSync
| CallAddAccount (accountData : IMAPAccount)
| ImapReady (c : nat)
| ImapError (c : nat)
| ImapEnd (c : nat)
| BoxOpened (c : nat) (folderName : string) (err : bool)
| SearchDone (c : nat) (folderName : string) (results : option (list nat))
| UnseenDone (c : nat) (folderName : string) (results : option (list nat))
| Mail (c : nat)
| MessageEnd (f : nat) (result : option ParsedMail)
| ParserDone (j : nat) (d : Draws)
| FetchEnd (f : nat)
| FetchError (f : nat)
| TimerFires (t : nat).

(** Run the callback of a pending request; an event for a request that
    was never made is not an event of this program. *)
Definition answer (r : Request) (k : Sync unit) : Sync unit :=
  st <- get ;;
  match take_request r (requests (runtime st)) with
  | Some rest => update_runtime (set_requests (fun _ => rest)) ;;; k
  | None => ret tt
  end.

(** One turn of the event loop: the listener registered for the event
    runs to its end, through its awaits on the collaborators as well (the
    turns of two listeners are not interleaved).  An event nobody listens to
    changes nothing. *)
Definition step (env : Env) (ev : Event) : Sync unit :=
  st <- get ;;
  let rt := runtime st in
  match ev with
  | CallStartSync => startSync env
  | CallStopSync => stopSync env
  | CallAddAccount a => addAccount env a ;;; ret tt
  | ImapReady c =>
      match imaps rt !! c with
      | Some i => if once_ready i then on_ready c i else ret tt
      | None => ret tt
      end
  | ImapError c =>
      match imaps rt !! c with
      | Some i => if once_error i then on_error c i else ret tt
      | None => ret tt
      end
  | ImapEnd c =>
      match imaps rt !! c with
      | Some i => if once_end i then on_end c i else ret tt
      | None => ret tt
      end
  | BoxOpened c folderName err =>
      match imaps rt !! c with
      | Some i => answer (OpenBox c folderName) (on_box_opened c i folderName err)
      | None => ret tt
      end
  | SearchDone c folderName results =>
      match imaps rt !! c with
      | Some i => answer (SearchSince c folderName) (on_search_done c i folderName results)
      | None => ret tt
      end
  | UnseenDone c folderName results =>
      match imaps rt !! c with
      | Some i => answer (SearchUnseen c folderName) (on_unseen_done c i folderName results)
      | None => ret tt
      end
  | Mail c =>
      match imaps rt !! c with
      | Some i => on_mail c i
      | None => ret tt
      end
  | MessageEnd fid result =>
      match fetches rt !! fid with
      | Some f => if f_ended f then ret tt else on_message_end fid f result
      | None => ret tt
      end
  | ParserDone j d =>
      match parsing rt !! j with
      | Some job => on_parser_done j job d
      | None => ret tt
      end
  | FetchEnd fid =>
      match fetches rt !! fid with
      | Some f => if f_ended f then ret tt else on_fetch_end env fid f
      | None => ret tt
      end
  | FetchError fid =>
      match fetches rt !! fid with
      | Some f => on_fetch_error fid
      | None => ret tt
      end
  | TimerFires t =>
      match timers rt !! t with
      | Some tm => on_timer t tm
      | None => ret tt
      end
  end.

(** A run: the events one after the other.  What a call throws goes to its
    caller and the loop goes on. *)
Fixpoint run (env : Env) (evs : list Event) (st : State) : State :=
  match evs with
  | [] => st
  | ev :: rest => run env rest (snd (step env ev st))
  end.

(* ===================================================================== *)
(** ** Vocabulary of the properties *)
(* ===================================================================== *)

(** A confidence in the closed interval [0, 1]. *)
Definition in_unit_interval (n : number) : Prop :=
  match n with
  | Finite q => (0 <= q)%Q /\ (q <= 1)%Q
  | _ => False
  end.

(** The provider that categorizeEmail selects rejects the request (an
    error of the SDK, a timeout of the SDK). *)
Definition collaborator_throws (ai : AIService) (prompt : string) : Prop :=
  if String.eqb (provider ai) "openai" && bool_decide (is_Some (openai ai))
  then exists create e, openai ai = Some create /\ create prompt = OpenAIRejects e
  else exists create e, anthropic ai = Some create /\ create prompt = AnthropicRejects e.

(** The rows of [emails] stored under a message identifier. *)
Definition stored_records (mid : string) (t : list EmailRow) : list EmailRow :=
  List.filter (conflicts mid) t.

(** The UNIQUE constraint on emails.message_id. *)
Definition message_id_unique (t : list EmailRow) : Prop :=
  NoDup (map message_id t).

(** The PRIMARY KEY constraint on email_accounts.id. *)
Definition account_id_unique (t : list AccountRow) : Prop :=
  NoDup (map acc_id t).

(** The calls that belong to the downstream pipeline: all of them but the
    statements on [email_accounts]. *)
Definition is_pipeline_call (c : Call) : bool :=
  match c with
  | PgQuery SelectActiveAccounts | PgQuery (InsertAccount _) => false
  | _ => true
  end.

Definition pipeline_calls (w : World) : list Call :=
  List.filter is_pipeline_call (calls w).

(** A short name for a call, to read traces: the kind of the call and the
    document id it is about. *)
Definition call_name (c : Call) : string :=
  match c with
  | EsGet doc => "getEmailById " +:+ doc
  | Classify _ _ _ => "categorizeEmail"
  | PgQuery SelectActiveAccounts => "select accounts"
  | PgQuery (UpsertEmail e) => "upsert " +:+ doc_id e
  | PgQuery (InsertAccount _) => "insert account"
  | EsIndex e => "indexEmail " +:+ doc_id e
  | ChromaAdd e => "vector storeEmail " +:+ doc_id e
  | SlackPost e => "slack " +:+ doc_id e
  | WebhookPost e => "webhook " +:+ doc_id e
  | IoEmit ev => "emit newEmail " +:+ ev_id ev
  end.

(** The timers that would retry a connection. *)
Definition is_reconnect (tm : Timer) : bool :=
  match tm with
  | ReconnectTimeout _ _ _ => true
  | PeriodicInterval _ => false
  end.

(** The Connect commands among the commands issued. *)
Definition connects (r : Runtime) : list Command :=
  List.filter (fun c => match c with Connect _ => true | _ => false end) (commands r).

(** The worlds one turn of the loop of processEmails goes through for a
    message that is not indexed yet and whose classification fails: when
    the classifier is called, when the row is stored, when the document is
    indexed. *)
Definition world_at_classify (email : EmailDocument) (w : World) : World :=
  record_call (EsGet (doc_id email)) w.

Definition world_at_store (email : EmailDocument) (w : World) : World :=
  log_lines [(LError, "Failed to categorize email:")]
    (record_call (Classify (subject email) (bodyText email) (fromEmail email))
       (world_at_classify email w)).

Definition world_at_index (env : Env) (email : EmailDocument) (w : World) : World :=
  snd (storeEmailInDatabase env (set_categorization email default_categorization)
         (world_at_store email w)).

(** [w'] has the [emails] table of [w] and a longer trace of calls. *)
Definition keeps_table (w w' : World) : Prop :=
  emails_table w' = emails_table w /\ exists cs, calls w' = calls w ++ cs.

(** The subjects of the documents handed to indexEmail, in order. *)
Definition indexed_subjects (w : World) : list string :=
  omap (fun c => match c with EsIndex e => Some (subject e) | _ => None end) (calls w).


(** loadAccounts before its loop: the statement was sent and the map is
    cleared. *)
Definition loading (s : State) : State :=
  {| service := set_accounts Map_clear (service s);
     runtime := runtime s;
     world := record_call (PgQuery SelectActiveAccounts) (world s) |}.

(** Every Imap object and every pending reconnection belongs to an
    account whose isActive was true when the connection was started, and
    every entry of [connections] is one of these Imap objects. *)
Definition only_active (st : State) : Prop :=
  (forall c i, imaps (runtime st) !! c = Some i -> isActive (imap_account i) = true) /\
  (forall t d k a, timers (runtime st) !! t = Some (ReconnectTimeout d k a) ->
     isActive a = true) /\
  (forall k c, (k, c) ∈ connections (service st) -> is_Some (imaps (runtime st) !! c)).

(** From [s] to [s']: an Imap object keeps its account, a new one is for
    an active account, none disappears; a new reconnection is for an active
    account; a new entry of [connections] is an Imap object. *)
Definition evolves (s s' : State) : Prop :=
  (forall c i', imaps (runtime s') !! c = Some i' ->
     (exists i, imaps (runtime s) !! c = Some i /\ imap_account i' = imap_account i) \/
     isActive (imap_account i') = true) /\
  (forall c, is_Some (imaps (runtime s) !! c) -> is_Some (imaps (runtime s') !! c)) /\
  (forall t d k a, timers (runtime s') !! t = Some (ReconnectTimeout d k a) ->
     timers (runtime s) !! t = Some (ReconnectTimeout d k a) \/ isActive a = true) /\
  (forall k c, (k, c) ∈ connections (service s') ->
     (k, c) ∈ connections (service s) \/ is_Some (imaps (runtime s') !! c)).

(** A computation that keeps [only_active], step by step. *)
Definition keeps_active {A} (m : Sync A) : Prop :=
  forall s, only_active s -> evolves s (snd (m s)).

(** From [w] to [w']: the index changed at most under the id [doc], and
    the trace of calls only grew. *)
Definition touches_only (doc : string) (w w' : World) : Prop :=
  (forall d, d <> doc -> es_index w' !! d = es_index w !! d) /\
  (exists cs, calls w' = calls w ++ cs).

(** A pipeline computation that, from every world, touches the index
    only under [doc]. *)
Definition about (doc : string) {A} (m : M A) : Prop :=
  forall w, touches_only doc w (snd (m w)).

(** A pipeline computation under which a property of the world is stable. *)
Definition preserves (I : World -> Prop) {A} (m : M A) : Prop :=
  forall w, I w -> I (snd (m w)).

(** The same for a computation of the service. *)
Definition maintains (I : World -> Prop) {A} (m : Sync A) : Prop :=
  forall st, I (world st) -> I (world (snd (m st))).

(** Every document posted to Slack or to the webhook carries the label
    'Interested'. *)
Definition posts_are_Interested (w : World) : Prop :=
  forall e, SlackPost e ∈ calls w \/ WebhookPost e ∈ calls w ->
    aiCategory e = VString "Interested".

(** Every 'newEmail' event emitted is about a document that the index
    holds under the id of the event. *)
Definition emitted_are_indexed (w : World) : Prop :=
  forall ev, IoEmit ev ∈ calls w -> is_Some (es_index w !! ev_id ev).

(** The calls of a turn of processEmails after indexEmail: the vector
    store, then the two notifications, the latter for [e] labelled
    'Interested' only. *)
Definition is_follow_up (e : EmailDocument) (c : Call) : Prop :=
  c = ChromaAdd e \/
  ((c = SlackPost e \/ c = WebhookPost e) /\ aiCategory e = VString "Interested").


(** startSync when it calls loadAccounts: the first line is logged. *)
Definition starting (st : State) : State :=
  set_world (log_lines [(LInfo, "Starting email synchronization...")]) st.

(* ===================================================================== *)
(** ** Scenarios *)
(* ===================================================================== *)

Definition no_builtins : Builtins :=
  {| StringToNumber := fun _ => NaN; Array_toString := fun _ => "" |}.

(** No AI key, no Slack or webhook URL; every collaborator answers
    except Elasticsearch when it is asked to index a document whose id is
    in [index_down_for]. *)
Definition quiet_env (index_down_for : list string) : Env :=
  {| builtins := no_builtins;
     AI_PROVIDER := None; OPENAI_API_KEY := false; ANTHROPIC_API_KEY := false;
     SLACK_WEBHOOK_URL := ""; WEBHOOK_URL := ""; chroma_collection := true;
     openai_create := fun _ _ => OpenAIRejects "unreachable";
     anthropic_create := fun _ _ => AnthropicRejects "unreachable";
     pg_rejects := fun _ _ => false;
     es_get_fails := fun _ _ => false;
     es_index_fails := fun _ e => existsb (String.eqb (doc_id e)) index_down_for;
     chroma_add_fails := fun _ _ => false;
     slack_post_fails := fun _ _ => false;
     webhook_post_fails := fun _ _ => false;
     imap_end_throws := fun _ _ => false;
     intervalMinutes := 5 |}.

(** An OpenAI key is configured and the provider is down. *)
Definition openai_down_env : Env :=
  {| builtins := no_builtins;
     AI_PROVIDER := Some "openai"; OPENAI_API_KEY := true; ANTHROPIC_API_KEY := false;
     SLACK_WEBHOOK_URL := ""; WEBHOOK_URL := ""; chroma_collection := true;
     openai_create := fun _ _ => OpenAIRejects "Request timed out.";
     anthropic_create := fun _ _ => AnthropicRejects "unreachable";
     pg_rejects := fun _ _ => false;
     es_get_fails := fun _ _ => false;
     es_index_fails := fun _ _ => false;
     chroma_add_fails := fun _ _ => false;
     slack_post_fails := fun _ _ => false;
     webhook_post_fails := fun _ _ => false;
     imap_end_throws := fun _ _ => false;
     intervalMinutes := 5 |}.

(** An OpenAI client that answers with the JSON text of an empty object. *)
Definition openai_answers_empty_object : AIService :=
  {| provider := "openai";
     openai := Some (fun _ => OpenAIResolves
                 (Some {| chars := "{}"; JSON_parse := Some (VObject []) |}));
     anthropic := None |}.

Definition account_A : IMAPAccount :=
  {| id := 1; name := "A"; host := "imap.example.org"; port := 993;
     secure := true; username := "a@example.org"; password := "secret";
     folders := ["INBOX"]; isActive := true |}.

Definition account_B : IMAPAccount :=
  {| id := 2; name := "B"; host := "imap.example.org"; port := 993;
     secure := true; username := "b@example.org"; password := "secret";
     folders := ["INBOX"]; isActive := false |}.

(** Empty stores; [email_accounts] holds A (active) and B (inactive). *)
Definition world_AB : World :=
  {| es_index := ∅; emails_table := []; emails_serial := 1;
     accounts_table := [row_of_account 1 account_A; row_of_account 2 account_B];
     accounts_serial := 3; calls := []; logs := [] |}.

(** A parsed message with the given Message-ID header and subject, no
    Date header. *)
Definition mail (mid : option string) (subj : string) : ParsedMail :=
  {| p_messageId := mid; p_from := None; p_to := None; p_cc := None;
     p_bcc := None; p_subject := Some subj; p_date := None;
     p_receivedDate := None; p_text := Some "hello"; p_html := None;
     p_attachments := None; p_flags := None |}.

(** The draws of one parse: the uuid, and the clock. *)
Definition draws (uuid clock : string) : Draws :=
  {| uuidv4 := uuid; now_date := clock; now_receivedDate := clock;
     now_createdAt := clock; now_updatedAt := clock |}.

Definition blank : EmailDocument :=
  {| doc_id := ""; messageId := ""; accountId := 0; accountName := "";
     folder := ""; subject := ""; fromEmail := ""; fromName := "";
     toEmails := []; ccEmails := []; bccEmails := []; date := "";
     receivedDate := ""; size := 0; flags := []; bodyText := ""; bodyHtml := "";
     attachments := []; aiCategory := VUndefined; aiConfidence := NaN;
     isRead := false; isImportant := false; createdAt := ""; updatedAt := "" |}.

(** The document parseEmail builds for account A from [mail mid subj]
    when uuidv4() answers [uuid]. *)
Definition document (uuid : string) (mid : option string) (subj : string)
  : EmailDocument :=
  default blank
    (parseEmail [(1%Z, account_A)] (draws uuid "2024-01-01T00:00:00.000Z")
                (mail mid subj) 1 "INBOX").

(** startSync, the connection of A becomes ready, its INBOX opens. *)
Definition connected : list Event :=
  [CallStartSync; ImapReady 0; BoxOpened 0 "INBOX" false].

(** One fetch burst for message 7 of INBOX: the search (SINCE at start,
    UNSEEN after a 'mail' event) answers [7], the message is read, parsed
    with the given uuid, and the fetch ends.  [f] and [j] are the handles
    the fetch and the parser get. *)
Definition first_burst (f j : nat) (uuid : string) : list Event :=
  [SearchDone 0 "INBOX" (Some [7]);
   MessageEnd f (Some (mail (Some "<m1@example.org>") "offer"));
   ParserDone j (draws uuid "2024-01-01T00:00:00.000Z");
   FetchEnd f].

Definition later_burst (f j : nat) (uuid : string) : list Event :=
  [Mail 0;
   UnseenDone 0 "INBOX" (Some [7]);
   MessageEnd f (Some (mail (Some "<m1@example.org>") "offer"));
   ParserDone j (draws uuid "2024-01-01T00:07:00.000Z");
   FetchEnd f].

(** The three messages of a fetch of ids 1, 2, 3; the second one cannot
    be parsed. *)
Definition three_messages (f : nat) : list Event :=
  [SearchDone 0 "INBOX" (Some [1; 2; 3]);
   MessageEnd f (Some (mail (Some "<m1@example.org>") "first"));
   MessageEnd f None;
   MessageEnd f (Some (mail (Some "<m3@example.org>") "third"))].

(** A body of 1200 characters. *)
Definition long_body : string :=
  String.concat "" (repeat "0123456789" 120).

(** A service with both clients, each answering a JSON object that
    carries the given confidence. *)
Definition answers_with (p : string) (conf : value) : AIService :=
  let answer := {| chars := "{...}";
                   JSON_parse := Some (VObject [("category", VString "Interested");
                                                ("confidence", conf);
                                                ("reasoning", VString "asks for a demo")]) |} in
  {| provider := p;
     openai := Some (fun _ => OpenAIResolves (Some answer));
     anthropic := Some (fun _ => AnthropicResolves "text" answer) |}.

(** A Postgres that accepts connections and answers every statement but
    the ones listed, which it rejects. *)
Definition pg_rejecting (texts : list string) : Pool.Pg unit :=
  {| Pool.connect_rejects := fun _ => false;
     Pool.client_answers := fun _ text =>
       if existsb (String.eqb text) texts then Throw ("pg: " +:+ text +:+ " failed")
       else Ok tt |}.

(** A transaction callback that sends one UPDATE through the client. *)
Definition one_update (pg : Pool.Pg unit) : Pool.P unit :=
  Pool.client_query pg "UPDATE emails SET is_read = true".

(** An OpenAI client that labels every message 'Interested'; both
    notification URLs are configured and Slack is down. *)
Definition interested_env : Env :=
  {| builtins := no_builtins;
     AI_PROVIDER := Some "openai"; OPENAI_API_KEY := true; ANTHROPIC_API_KEY := false;
     SLACK_WEBHOOK_URL := "https://hooks.slack.example/T0";
     WEBHOOK_URL := "https://webhook.example/in";
     chroma_collection := true;
     openai_create := fun _ _ =>
       OpenAIResolves (Some {| chars := "{...}";
                               JSON_parse := Some (VObject
                                 [("category", VString "Interested");
                                  ("confidence", VNumber (Finite (9 # 10)));
                                  ("reasoning", VString "asks for a demo")]) |});
     anthropic_create := fun _ _ => AnthropicRejects "unreachable";
     pg_rejects := fun _ _ => false;
     es_get_fails := fun _ _ => false;
     es_index_fails := fun _ _ => false;
     chroma_add_fails := fun _ _ => false;
     slack_post_fails := fun _ _ => true;
     webhook_post_fails := fun _ _ => false;
     imap_end_throws := fun _ _ => false;
     intervalMinutes := 5 |}.

(** Postgres rejects every statement. *)
Definition pg_down_env : Env :=
  {| builtins := no_builtins;
     AI_PROVIDER := None; OPENAI_API_KEY := false; ANTHROPIC_API_KEY := false;
     SLACK_WEBHOOK_URL := ""; WEBHOOK_URL := ""; chroma_collection := true;
     openai_create := fun _ _ => OpenAIRejects "unreachable";
     anthropic_create := fun _ _ => AnthropicRejects "unreachable";
     pg_rejects := fun _ _ => true;
     es_get_fails := fun _ _ => false;
     es_index_fails := fun _ _ => false;
     chroma_add_fails := fun _ _ => false;
     slack_post_fails := fun _ _ => false;
     webhook_post_fails := fun _ _ => false;
     imap_end_throws := fun _ _ => false;
     intervalMinutes := 5 |}.

(* ===================================================================== *)
(** * Properties *)
(* ===================================================================== *)

(** ** Map<number, V> *)

Section JsMapFacts.
Context {V : Type}.
Implicit Types (m : JsMap V) (k : Z) (v : V).

Lemma Map_get_set_eq m k v : Map_get (Map_set m k v) k = Some v.
Proof.
  induction m as [|[k' v'] m IH]; simpl.
  - by rewrite Z.eqb_refl.
  - destruct (Z.eqb k' k) eqn:E; simpl.
    + by rewrite Z.eqb_refl.
    + by rewrite E.
Qed.

Lemma Map_get_set_ne m k k' v : k <> k' -> Map_get (Map_set m k v) k' = Map_get m k'.
Proof.
  intros Hne. induction m as [|[k0 v0] m IH]; simpl.
  - destruct (Z.eqb_spec k k'); [done|done].
  - destruct (Z.eqb_spec k0 k) as [->|Hk]; simpl.
    + destruct (Z.eqb_spec k k'); [done|done].
    + destruct (Z.eqb_spec k0 k'); [done|apply IH].
Qed.

Lemma Map_get_delete_eq m k : Map_get (Map_delete m k) k = None.
Proof.
  induction m as [|[k' v'] m IH]; simpl; [done|].
  destruct (Z.eqb k' k) eqn:E; simpl; [done|]. by rewrite E.
Qed.

Lemma Map_get_delete_ne m k k' : k <> k' -> Map_get (Map_delete m k) k' = Map_get m k'.
Proof.
  intros Hne. induction m as [|[k0 v0] m IH]; simpl; [done|].
  destruct (Z.eqb_spec k0 k) as [->|Hk]; simpl.
  - destruct (Z.eqb_spec k k'); [done|apply IH].
  - destruct (Z.eqb_spec k0 k'); [done|apply IH].
Qed.

(** Whatever is in the map after a set was there before or is the new
    binding. *)
Lemma Map_set_elem m k v k' v' :
  (k', v') ∈ Map_set m k v -> (k', v') ∈ m \/ (k' = k /\ v' = v).
Proof.
  induction m as [|[k0 v0] m IH]; simpl.
  - intros H. apply list_elem_of_singleton in H. injection H as -> ->. by right.
  - destruct (Z.eqb_spec k0 k) as [->|Hk]; intros H;
      apply elem_of_cons in H as [H|H].
    + injection H as -> ->. by right.
    + left. apply elem_of_cons. by right.
    + left. apply elem_of_cons. by left.
    + destruct (IH H) as [?|?]; [left; apply elem_of_cons; by right | by right].
Qed.
End JsMapFacts.

(** ** AIService *)

Lemma clamp_is_NaN_or_in_range (n : number) :
  let c := Math_min (Math_max n (Finite 0)) (Finite 1) in
  c = NaN \/ in_unit_interval c.
Proof.
  destruct n as [| |q|]; simpl.
  - by left.
  - right. simpl. split; [apply Qle_refl | discriminate].
  - right. destruct (Qle_bool q 0) eqn:E0; simpl.
    + split; [apply Qle_refl | discriminate].
    + assert (0 <= q)%Q as Hq.
      { apply Qnot_lt_le. intros Hlt. apply Qlt_le_weak in Hlt.
        apply Qle_bool_iff in Hlt. congruence. }
      destruct (Qle_bool q 1) eqn:E1; simpl.
      * split; [done | by apply Qle_bool_iff].
      * split; [discriminate | apply Qle_refl].
  - right. simpl. split; [discriminate | apply Qle_refl].
Qed.

Lemma categorization_of_parsed_range bi who parsed c :
  fst (categorization_of_parsed bi who parsed) = Ok c ->
  confidence c = NaN \/ in_unit_interval (confidence c).
Proof.
  unfold categorization_of_parsed.
  destruct parsed as [p|]; [|discriminate].
  destruct (get_property p "category"); [|discriminate].
  destruct (get_property p "confidence"); [|discriminate].
  destruct (get_property p "reasoning"); [|discriminate].
  simpl. intros [= <-]. apply clamp_is_NaN_or_in_range.
Qed.

Lemma default_categorization_in_range :
  in_unit_interval (confidence default_categorization).
Proof. simpl. split; discriminate. Qed.

(** categorizeEmail is a total function: on every input and every
    behaviour of the providers it returns a categorization; the confidence
    it returns is NaN or lies in [0, 1]. *)
Lemma categorizeEmail_confidence bi ai subject body fromEmail :
  let c := fst (categorizeEmail bi ai subject body fromEmail) in
  confidence c = NaN \/ in_unit_interval (confidence c).
Proof.
  unfold categorizeEmail.
  set (prompt := buildCategorizationPrompt subject body fromEmail).
  match goal with |- context [match ?a with _ => _ end] => destruct a as [[c|e] logs] eqn:Ha end;
    simpl; [|right; apply default_categorization_in_range].
  revert Ha.
  destruct (String.eqb (provider ai) "openai" && bool_decide (is_Some (openai ai))).
  - unfold categorizeWithOpenAI. destruct (openai ai) as [create|]; [|discriminate].
    destruct (create prompt) as [?|[content|]]; try discriminate.
    destruct (String.eqb (chars content) ""); [discriminate|].
    intros Ha. apply (categorization_of_parsed_range bi "OpenAI" (JSON_parse content)).
    by rewrite Ha.
  - destruct (bool_decide (is_Some (anthropic ai))); [|discriminate].
    unfold categorizeWithAnthropic. destruct (anthropic ai) as [create|]; [|discriminate].
    destruct (create prompt) as [?|ty txt]; try discriminate.
    destruct (String.eqb ty "text"); [|discriminate].
    intros Ha. apply (categorization_of_parsed_range bi "Anthropic" (JSON_parse txt)).
    by rewrite Ha.
Qed.

(** C10. categorizeEmail returns a value on every input, but the
    confidence is not always in [0, 1]: when the provider answers with a
    JSON object that has no [confidence] (here the text of an empty object),
    Math.max(undefined, 0) is NaN, the clamp keeps it, and the categorization
    returned has confidence NaN and category undefined. *)
Theorem categorizeEmail_confidence_NaN bi subject body fromEmail :
  let c := fst (categorizeEmail bi openai_answers_empty_object subject body fromEmail) in
  confidence c = NaN /\ category c = VUndefined /\ ~ in_unit_interval (confidence c).
Proof. simpl. split; [done|]. split; [done|]. intros []. Qed.

(** When the selected provider rejects, categorizeEmail returns the
    default categorization. *)
Lemma categorizeEmail_default bi ai subject body fromEmail :
  collaborator_throws ai (buildCategorizationPrompt subject body fromEmail) ->
  categorizeEmail bi ai subject body fromEmail
  = (default_categorization, [(LError, "Failed to categorize email:")]).
Proof.
  unfold collaborator_throws, categorizeEmail.
  destruct (String.eqb (provider ai) "openai" && bool_decide (is_Some (openai ai))).
  - intros (create & e & Hc & He). unfold categorizeWithOpenAI. by rewrite Hc, He.
  - intros (create & e & Hc & He).
    rewrite Hc. rewrite bool_decide_eq_true_2 by eauto.
    unfold categorizeWithAnthropic. by rewrite Hc, He.
Qed.

(** ** parseEmail *)

(** C5, as the code has it.  Two parses of the same message for the same
    account and folder agree on every field taken from the message; they
    agree on the identifier when the message carries a Message-ID, or else
    when the two uuidv4() draws agree; on the date when the message carries
    one, or else when the two clock readings agree; and with equal draws
    the two documents are equal. *)
Theorem parseEmail_two_runs accounts d1 d2 parsed aid folderName e1 e2 :
  parseEmail accounts d1 parsed aid folderName = Some e1 ->
  parseEmail accounts d2 parsed aid folderName = Some e2 ->
  (subject e1 = subject e2 /\ fromEmail e1 = fromEmail e2 /\
   fromName e1 = fromName e2 /\ toEmails e1 = toEmails e2 /\
   ccEmails e1 = ccEmails e2 /\ bccEmails e1 = bccEmails e2 /\
   size e1 = size e2 /\ flags e1 = flags e2 /\ bodyText e1 = bodyText e2 /\
   bodyHtml e1 = bodyHtml e2 /\ attachments e1 = attachments e2 /\
   accountId e1 = accountId e2 /\ accountName e1 = accountName e2 /\
   folder e1 = folder e2 /\ aiCategory e1 = aiCategory e2 /\
   aiConfidence e1 = aiConfidence e2) /\
  doc_id e1 = uuidv4 d1 /\ doc_id e2 = uuidv4 d2 /\
  messageId e1 = or_else (p_messageId parsed) (uuidv4 d1) /\
  messageId e2 = or_else (p_messageId parsed) (uuidv4 d2) /\
  date e1 = default (now_date d1) (p_date parsed) /\
  date e2 = default (now_date d2) (p_date parsed) /\
  (d1 = d2 -> e1 = e2).
Proof.
  unfold parseEmail. destruct (Map_get accounts aid) as [account|]; [|discriminate].
  intros [= <-] [= <-]. simpl.
  repeat split; try reflexivity. by intros ->.
Qed.

(** A message with a Message-ID and no Date, parsed twice. *)
Lemma parseEmail_two_runs_witness :
  let e1 := document "uuid-1" (Some "<m1@example.org>") "offer" in
  let e2 := document "uuid-2" (Some "<m1@example.org>") "offer" in
  messageId e1 = messageId e2 /\ subject e1 = subject e2 /\
  doc_id e1 = "uuid-1" /\ doc_id e2 = "uuid-2".
Proof.
  intros e1 e2.
  destruct (parseEmail_two_runs [(1%Z, account_A)]
              (draws "uuid-1" "2024-01-01T00:00:00.000Z")
              (draws "uuid-2" "2024-01-01T00:00:00.000Z")
              (mail (Some "<m1@example.org>") "offer") 1 "INBOX" e1 e2 eq_refl eq_refl)
    as ((Hsubj & _) & Hid1 & Hid2 & Hm1 & Hm2 & _).
  rewrite Hm1, Hm2, Hid1, Hid2. done.
Defined.

(** C5 as stated fails: the same message, without a Message-ID and without
    a Date, parsed twice, gets two different identifiers and two different
    dates when uuidv4() and the clock answer differently. *)
Lemma parseEmail_not_deterministic :
  let once := parseEmail [(1%Z, account_A)]
                (draws "0b7e0a3c-0000-4000-8000-000000000001" "2024-01-01T00:00:00.000Z")
                (mail None "hi") 1 "INBOX" in
  let again := parseEmail [(1%Z, account_A)]
                (draws "9d2f6c1e-0000-4000-8000-000000000002" "2024-01-01T00:05:00.000Z")
                (mail None "hi") 1 "INBOX" in
  messageId <$> once <> messageId <$> again /\ date <$> once <> date <$> again.
Proof. simpl. split; discriminate. Qed.

(** ** The emails table *)

Lemma stored_records_absent mid (t : list EmailRow) :
  mid ∉ map message_id t -> stored_records mid t = [].
Proof.
  unfold stored_records, conflicts. induction t as [|r t IH]; simpl; [done|].
  intros Hnot. apply not_elem_of_cons in Hnot as [Hr Ht].
  destruct (String.eqb_spec (message_id r) mid); [congruence|]. by apply IH.
Qed.

Lemma stored_records_at_most_one mid (t : list EmailRow) :
  message_id_unique t -> length (stored_records mid t) <= 1.
Proof.
  unfold message_id_unique. induction t as [|r t IH]; simpl; [lia|].
  intros Hnd. apply list.NoDup_cons in Hnd as [Hr Ht].
  unfold stored_records in *. simpl. unfold conflicts at 1.
  destruct (String.eqb_spec (message_id r) mid) as [<-|Hne]; [|by apply IH].
  simpl. fold (stored_records (message_id r) t).
  by rewrite stored_records_absent.
Qed.

Lemma existsb_conflicts mid (t : list EmailRow) :
  existsb (conflicts mid) t = true <-> mid ∈ map message_id t.
Proof.
  unfold conflicts. induction t as [|r t IH]; simpl.
  - split; [discriminate | intros H; by apply elem_of_nil in H].
  - rewrite orb_true_iff, IH, elem_of_cons.
    destruct (String.eqb_spec (message_id r) mid) as [->|Hne].
    + split; intros _; by left.
    + split; intros [H|H]; try (by right); congruence.
Qed.

Lemma stored_records_present mid (t : list EmailRow) :
  mid ∈ map message_id t -> 1 <= length (stored_records mid t).
Proof.
  unfold stored_records, conflicts. induction t as [|r t IH]; simpl.
  - intros H. by apply elem_of_nil in H.
  - intros H. apply elem_of_cons in H as [->|H].
    + rewrite String.eqb_refl. simpl. lia.
    + destruct (String.eqb (message_id r) (mid)); simpl; [lia | by apply IH].
Qed.

(** The update of ON CONFLICT keeps every row where it is, with its
    message_id and its SERIAL id. *)
Lemma on_conflict_update_keys e (t : list EmailRow) :
  let t' := map (fun r => if conflicts (messageId e) r
                          then on_conflict_update e r else r) t in
  map message_id t' = map message_id t /\ map row_id t' = map row_id t.
Proof.
  induction t as [|r t [IH1 IH2]]; simpl; [done|].
  split; f_equal; try done; by destruct (conflicts (messageId e) r).
Qed.

Lemma stored_records_depends_on_keys mid (t t' : list EmailRow) :
  map message_id t = map message_id t' ->
  length (stored_records mid t) = length (stored_records mid t').
Proof.
  unfold stored_records, conflicts. revert t'.
  induction t as [|r t IH]; intros [|r' t']; simpl; try done.
  intros [= -> Ht]. destruct (String.eqb (message_id r') mid); simpl; auto.
Qed.

Lemma upsert_email_unique e (t : list EmailRow) serial :
  message_id_unique t -> message_id_unique (upsert_email e t serial).
Proof.
  unfold message_id_unique, upsert_email. intros Hnd.
  destruct (existsb (conflicts (messageId e)) t) eqn:Hex.
  - by rewrite (proj1 (on_conflict_update_keys e t)).
  - rewrite map_app. simpl. apply list.NoDup_app. split; [done|]. split.
    + intros mid Hin Hnew. apply list_elem_of_singleton in Hnew as ->.
      apply existsb_conflicts in Hin. congruence.
    + apply NoDup_singleton.
Qed.

(** After the statement, exactly one row is stored under the message id. *)
Lemma upsert_email_one_record e (t : list EmailRow) serial :
  message_id_unique t ->
  length (stored_records (messageId e) (upsert_email e t serial)) = 1.
Proof.
  intros Hnd. pose proof (upsert_email_unique e t serial Hnd) as Hnd'.
  apply (stored_records_at_most_one (messageId e)) in Hnd'.
  cut (1 <= length (stored_records (messageId e) (upsert_email e t serial))); [lia|].
  apply stored_records_present. unfold upsert_email.
  destruct (existsb (conflicts (messageId e)) t) eqn:Hex.
  - rewrite (proj1 (on_conflict_update_keys e t)). by apply existsb_conflicts.
  - rewrite map_app. apply elem_of_app. right. simpl. apply list_elem_of_singleton. done.
Qed.


(** The rows stored under the message id carry the label, the confidence
    and the update time of the last statement. *)
Lemma upsert_email_label e (t : list EmailRow) serial r :
  r ∈ stored_records (messageId e) (upsert_email e t serial) ->
  ai_category r = aiCategory e /\ ai_confidence r = aiConfidence e /\
  updated_at r = updatedAt e.
Proof.
  unfold stored_records, upsert_email. intros Hin.
  apply list_elem_of_In, filter_In in Hin as [Hin Hc].
  destruct (existsb (conflicts (messageId e)) t) eqn:Hex.
  - apply in_map_iff in Hin as (r0 & Hr & _).
    destruct (conflicts (messageId e) r0) eqn:Hc0; subst r; [done|congruence].
  - apply in_app_iff in Hin as [Hin|[<-|[]]]; [|done].
    assert (existsb (conflicts (messageId e)) t = true); [|congruence].
    apply existsb_exists. eauto.
Qed.

(** ** The pipeline, operation by operation *)

Ltac run_monad :=
  unfold bind, ret, throw, try_catch, get_world, call, logger, get, modify; simpl.

Lemma query_upsert env e w :
  query env (UpsertEmail e) w =
  if pg_rejects env w (UpsertEmail e)
  then (Throw "pg: statement failed", record_call (PgQuery (UpsertEmail e)) w)
  else (Ok Done,
        set_emails (upsert_email e (emails_table w) (emails_serial w))
                   (emails_serial w + 1) (record_call (PgQuery (UpsertEmail e)) w)).
Proof. unfold query. run_monad. by destruct (pg_rejects env w (UpsertEmail e)). Qed.

(** storeEmailInDatabase never throws; the table is the upserted one, or
    the old one when Postgres rejects the statement. *)
Lemma storeEmailInDatabase_spec env e w :
  storeEmailInDatabase env e w =
  (Ok tt,
   if pg_rejects env w (UpsertEmail e)
   then log_lines [(LError, "Error storing email in database:")]
          (record_call (PgQuery (UpsertEmail e)) w)
   else set_emails (upsert_email e (emails_table w) (emails_serial w))
          (emails_serial w + 1) (record_call (PgQuery (UpsertEmail e)) w)).
Proof.
  unfold storeEmailInDatabase, try_catch, bind at 1. rewrite query_upsert.
  by destruct (pg_rejects env w (UpsertEmail e)).
Qed.

Lemma storeEmailInDatabase_table env e w :
  emails_table (snd (storeEmailInDatabase env e w)) =
  if pg_rejects env w (UpsertEmail e)
  then emails_table w
  else upsert_email e (emails_table w) (emails_serial w).
Proof.
  rewrite storeEmailInDatabase_spec. simpl.
  by destruct (pg_rejects env w (UpsertEmail e)).
Qed.



Lemma getEmailById_spec env doc w :
  getEmailById env doc w =
  if es_get_fails env w doc
  then (Throw "es: get failed",
        log_lines [(LError, "Failed to get email by ID:")] (record_call (EsGet doc) w))
  else (Ok (es_index w !! doc), record_call (EsGet doc) w).
Proof. unfold getEmailById. run_monad. by destruct (es_get_fails env w doc). Qed.

Lemma indexEmail_spec env e w :
  indexEmail env e w =
  if es_index_fails env w e
  then (Throw "es: index failed",
        log_lines [(LError, "Failed to index email:")] (record_call (EsIndex e) w))
  else (Ok tt,
        log_lines [(LDebug, "Email indexed")]
          (set_es_index (insert (doc_id e) e) (record_call (EsIndex e) w))).
Proof. unfold indexEmail. run_monad. by destruct (es_index_fails env w e). Qed.

Lemma aiService_categorizeEmail_spec env subject body fromEmail w :
  aiService_categorizeEmail env subject body fromEmail w =
  let r := categorizeEmail (builtins env) (aiService env w) subject body fromEmail in
  (Ok (fst r), log_lines (snd r) (record_call (Classify subject body fromEmail) w)).
Proof. reflexivity. Qed.

(** The vector store step never throws and leaves the table and the index
    as they are; it only adds to the trace and to the log. *)
Lemma VectorDB_storeEmail_spec env e w :
  exists cs ls,
    VectorDB_storeEmail env e w =
    (Ok tt, log_lines ls (fold_left (fun w c => record_call c w) cs w)).
Proof.
  unfold VectorDB_storeEmail. run_monad.
  destruct (chroma_collection env); simpl.
  - destruct (chroma_add_fails env w e); simpl.
    + by exists [ChromaAdd e], [(LError, "Failed to store email in vector database:")].
    + by exists [ChromaAdd e], [(LDebug, "Email stored in vector database")].
  - by exists [], [(LError, "Failed to store email in vector database:")].
Qed.

(** ** processEmails *)

(** One turn of the loop when the classifier is down: what is left after
    the default categorization has been stored. *)
Lemma processEmails_body_classifier_down env email w :
  es_get_fails env w (doc_id email) = false ->
  es_index w !! doc_id email = None ->
  collaborator_throws (aiService env (world_at_classify email w))
    (buildCategorizationPrompt (subject email) (bodyText email) (fromEmail email)) ->
  let email' := set_categorization email default_categorization in
  processEmails_body env email w =
  (indexEmail env email' ;;;
   VectorDB_storeEmail env email' ;;;
   call (IoEmit (newEmail_of email'))) (world_at_index env email w).
Proof.
  intros Hget Hnew Hthrow email'.
  unfold processEmails_body. unfold bind at 1.
  rewrite getEmailById_spec, Hget, Hnew.
  unfold bind at 1. rewrite aiService_categorizeEmail_spec. cbv zeta.
  fold (world_at_classify email w).
  rewrite (categorizeEmail_default _ _ _ _ _ Hthrow).
  simpl fst. simpl snd. fold (world_at_store email w).
  unfold bind at 1. fold email'. unfold world_at_index. fold email'.
  rewrite storeEmailInDatabase_spec. cbn [fst snd].
  unfold bind, ret.
  destruct (indexEmail env email' _) as [[[]|?] ?]; [|done].
  destruct (VectorDB_storeEmail env email' _) as [[[]|?] ?]; done.
Qed.

Lemma keeps_table_refl w : keeps_table w w.
Proof. split; [done|]. exists []. by rewrite app_nil_r. Qed.

Lemma keeps_table_trans w1 w2 w3 :
  keeps_table w1 w2 -> keeps_table w2 w3 -> keeps_table w1 w3.
Proof.
  intros [H1 [cs1 Hc1]] [H2 [cs2 Hc2]]. split; [congruence|].
  exists (cs1 ++ cs2). by rewrite Hc2, Hc1, app_assoc.
Qed.

Lemma indexEmail_keeps_table env e w : keeps_table w (snd (indexEmail env e w)).
Proof.
  rewrite indexEmail_spec. destruct (es_index_fails env w e); simpl;
    (split; [done|by exists [EsIndex e]]).
Qed.

Lemma fold_record_calls cs w :
  emails_table (fold_left (fun w c => record_call c w) cs w) = emails_table w /\
  calls (fold_left (fun w c => record_call c w) cs w) = calls w ++ cs.
Proof.
  revert w. induction cs as [|c cs IH]; intros w; simpl.
  - by rewrite app_nil_r.
  - destruct (IH (record_call c w)) as [-> ->]. simpl. by rewrite <- app_assoc.
Qed.

Lemma VectorDB_storeEmail_keeps_table env e w :
  fst (VectorDB_storeEmail env e w) = Ok tt /\
  keeps_table w (snd (VectorDB_storeEmail env e w)).
Proof.
  destruct (VectorDB_storeEmail_spec env e w) as (cs & ls & ->). simpl.
  split; [done|]. destruct (fold_record_calls cs w) as [Ht Hc].
  split; [done|]. by exists cs.
Qed.

Lemma after_store_keeps_table env e w :
  exists w',
    (indexEmail env e ;;; VectorDB_storeEmail env e ;;;
     call (IoEmit (newEmail_of e))) w =
    (if es_index_fails env w e then Throw "es: index failed" else Ok tt, w') /\
    keeps_table w w'.
Proof.
  unfold bind at 1.
  pose proof (indexEmail_keeps_table env e w) as Hi.
  rewrite indexEmail_spec in *.
  destruct (es_index_fails env w e); cbn [fst snd] in *.
  { eexists. split; [reflexivity | exact Hi]. }
  unfold bind at 1.
  match goal with |- context [VectorDB_storeEmail env e ?w1] =>
    destruct (VectorDB_storeEmail_keeps_table env e w1) as [Hv1 Hv2];
    destruct (VectorDB_storeEmail env e w1) as [[[]|?] w2] end;
    cbn [fst snd] in *; [|done].
  eexists. split; [reflexivity|].
  eapply keeps_table_trans; [exact Hi|]. eapply keeps_table_trans; [exact Hv2|].
  split; [done|]. by eexists [_].
Qed.

(** C4.  A message that is not indexed yet reaches the classifier and
    the selected provider rejects (an error, a timeout of the SDK).  Then
    categorizeEmail returns the default categorization instead of throwing;
    storeEmailInDatabase is called with that label, and when Postgres
    carries the statement out the table holds exactly one row for the
    message, labelled 'Not Interested' with confidence 0.5; and unless the
    index step of this message fails, the turn ends normally and the rest of
    the batch is processed from the world this message leaves. *)
Theorem classification_failure_is_absorbed env email rest w :
  es_get_fails env w (doc_id email) = false ->
  es_index w !! doc_id email = None ->
  collaborator_throws (aiService env (world_at_classify email w))
    (buildCategorizationPrompt (subject email) (bodyText email) (fromEmail email)) ->
  let email' := set_categorization email default_categorization in
  let after := snd (processEmails_body env email w) in
  fst (aiService_categorizeEmail env (subject email) (bodyText email)
         (fromEmail email) (world_at_classify email w)) = Ok default_categorization /\
  PgQuery (UpsertEmail email') ∈ calls after /\
  (pg_rejects env (world_at_store email w) (UpsertEmail email') = false ->
   message_id_unique (emails_table w) ->
   exists r, stored_records (messageId email) (emails_table after) = [r] /\
             ai_category r = VString "Not Interested" /\
             ai_confidence r = Finite (1 # 2)) /\
  (es_index_fails env (world_at_index env email w) email' = false ->
   fst (processEmails_body env email w) = Ok tt /\
   processEmails env (email :: rest) w = processEmails env rest after).
Proof.
  intros Hget Hnew Hthrow email' after.
  pose proof (processEmails_body_classifier_down env email w Hget Hnew Hthrow) as Hbody.
  cbv zeta in Hbody. fold email' in Hbody.
  destruct (after_store_keeps_table env email' (world_at_index env email w))
    as (w' & Hrun & Htable & cs & Hcalls).
  rewrite <- Hbody in Hrun.
  assert (after = w') as -> by (unfold after; by rewrite Hrun).
  assert (emails_table (world_at_index env email w) =
          if pg_rejects env (world_at_store email w) (UpsertEmail email')
          then emails_table w
          else upsert_email email' (emails_table w) (emails_serial w)) as Hidx.
  { unfold world_at_index. fold email'. by rewrite storeEmailInDatabase_table. }
  split.
  { rewrite aiService_categorizeEmail_spec. cbv zeta.
    by rewrite (categorizeEmail_default _ _ _ _ _ Hthrow). }
  split.
  { rewrite Hcalls. apply elem_of_app. left.
    unfold world_at_index. fold email'. rewrite storeEmailInDatabase_spec. simpl.
    destruct (pg_rejects env (world_at_store email w) (UpsertEmail email')); simpl;
      apply elem_of_app; right; by apply list_elem_of_singleton. }
  split.
  { intros Hpg Hu. rewrite Htable, Hidx, Hpg.
    pose proof (upsert_email_one_record email' (emails_table w) (emails_serial w) Hu) as Hone.
    change (messageId email') with (messageId email) in Hone.
    destruct (stored_records (messageId email)
                (upsert_email email' (emails_table w) (emails_serial w)))
      as [|r [|r' l]] eqn:Hrec; simpl in Hone; try lia.
    exists r. split; [done|].
    assert (r ∈ stored_records (messageId email')
                  (upsert_email email' (emails_table w) (emails_serial w))) as Hr.
    { change (messageId email') with (messageId email). rewrite Hrec.
      by apply list_elem_of_singleton. }
    apply upsert_email_label in Hr as (Hc & Hf & _). by rewrite Hc, Hf. }
  intros Hix. rewrite Hix in Hrun. split; [by rewrite Hrun|].
  unfold processEmails. simpl for_of. unfold try_catch, bind at 1.
  by rewrite Hrun.
Qed.

(** Concrete instance of C4: OpenAI is configured and times out on the
    first of two new messages. *)
Lemma classification_failure_is_absorbed_witness :
  let email := document "uuid-1" (Some "<m1@example.org>") "offer" in
  let next := document "uuid-2" (Some "<m2@example.org>") "invoice" in
  let after := snd (processEmails_body openai_down_env email world_AB) in
  processEmails openai_down_env [email; next] world_AB =
  processEmails openai_down_env [next] after /\
  PgQuery (UpsertEmail (set_categorization email default_categorization)) ∈ calls after.
Proof.
  intros email next after.
  assert (collaborator_throws
            (aiService openai_down_env (world_at_classify email world_AB))
            (buildCategorizationPrompt (subject email) (bodyText email) (fromEmail email)))
    as Hdown.
  { unfold collaborator_throws. simpl. eexists _, _. split; reflexivity. }
  destruct (classification_failure_is_absorbed openai_down_env email [next] world_AB
              eq_refl eq_refl Hdown) as (_ & Hcall & _ & Hrest).
  split; [apply (Hrest eq_refl) | exact Hcall].
Defined.

Lemma for_of_app {St A} (body : A -> ST St unit) (xs ys : list A) (s : St) :
  for_of body (xs ++ ys) s =
  match for_of body xs s with
  | (Ok _, s') => for_of body ys s'
  | (Throw e, s') => (Throw e, s')
  end.
Proof.
  revert s. induction xs as [|x xs IH]; intros s; simpl; [done|].
  unfold bind. destruct (body x s) as [[[]|e] s']; [apply IH | done].
Qed.

(** C2, as the code has it.  The try of processEmails encloses the whole
    loop: when the turn of one message throws (getEmailById and indexEmail
    throw again what Elasticsearch answers), processEmails catches the
    error, logs it and returns, and the world it leaves is the world that
    message left, plus the log line: no turn is run for the messages that
    follow it in the batch. *)
Theorem processEmails_abandons_batch env before email rest w w1 e :
  for_of (processEmails_body env) before w = (Ok tt, w1) ->
  fst (processEmails_body env email w1) = Throw e ->
  processEmails env (before ++ email :: rest) w =
  (Ok tt, log_lines [(LError, "Error processing emails:")]
            (snd (processEmails_body env email w1))).
Proof.
  intros Hbefore Hthrow. unfold processEmails, try_catch.
  rewrite for_of_app, Hbefore. simpl. unfold bind.
  destruct (processEmails_body env email w1) as [[[]|e'] w2]; [discriminate|].
  reflexivity.
Qed.

(** The batch of C2: Elasticsearch fails to index the first of two new
    messages; the second one is never looked at. *)
Lemma processEmails_abandons_batch_witness :
  let first := document "uuid-1" (Some "<m1@example.org>") "offer" in
  let second := document "uuid-2" (Some "<m2@example.org>") "invoice" in
  let r := processEmails (quiet_env ["uuid-1"]) [first; second] world_AB in
  fst r = Ok tt /\
  map call_name (calls (snd r)) =
    ["getEmailById uuid-1"; "categorizeEmail"; "upsert uuid-1"; "indexEmail uuid-1"] /\
  (LError, "Error processing emails:") ∈ logs (snd r).
Proof.
  intros first second r. subst r.
  pose proof (processEmails_abandons_batch (quiet_env ["uuid-1"]) [] first [second]
                world_AB world_AB "es: index failed" eq_refl eq_refl) as Hrun.
  cbn [app] in Hrun. rewrite Hrun.
  split; [by vm_compute|]. split; [by vm_compute|].
  apply list_elem_of_In. vm_compute. repeat (first [left; reflexivity | right]).
Defined.

(** ** The existence check of processEmails *)

Lemma touches_only_refl doc w : touches_only doc w w.
Proof. split; [done|]. exists []. by rewrite app_nil_r. Qed.

Lemma touches_only_trans doc w1 w2 w3 :
  touches_only doc w1 w2 -> touches_only doc w2 w3 -> touches_only doc w1 w3.
Proof.
  intros [A1 [cs1 A2]] [B1 [cs2 B2]]. split.
  - intros d Hd. by rewrite B1, A1.
  - exists (cs1 ++ cs2). by rewrite B2, A2, app_assoc.
Qed.

Lemma about_ret doc {A} (a : A) : about doc (ret a).
Proof. intros w. apply touches_only_refl. Qed.

Lemma about_throw doc {A} e : about doc (throw (A := A) e).
Proof. intros w. apply touches_only_refl. Qed.

Lemma about_bind doc {A B} (m : M A) (k : A -> M B) :
  about doc m -> (forall a, about doc (k a)) -> about doc (bind m k).
Proof.
  intros Hm Hk w. unfold bind. specialize (Hm w).
  destruct (m w) as [[a|e] w1]; simpl in *; [|done].
  eapply touches_only_trans; [exact Hm | apply Hk].
Qed.

Lemma about_try_catch doc {A} (m : M A) (h : string -> M A) :
  about doc m -> (forall e, about doc (h e)) -> about doc (try_catch m h).
Proof.
  intros Hm Hh w. unfold try_catch. specialize (Hm w).
  destruct (m w) as [[a|e] w1]; simpl in *; [done|].
  eapply touches_only_trans; [exact Hm | apply Hh].
Qed.

Lemma about_get_world doc : about doc get_world.
Proof. intros w. apply touches_only_refl. Qed.

Lemma about_logger doc lv msg : about doc (logger lv msg).
Proof. intros w. split; [done|]. exists []. simpl. by rewrite app_nil_r. Qed.

Lemma about_call doc c : about doc (call c).
Proof. intros w. split; [done|]. by exists [c]. Qed.

(** A change of the world that leaves the index and the trace alone. *)
Lemma about_modify doc (f : World -> World) :
  (forall w, es_index (f w) = es_index w) -> (forall w, calls (f w) = calls w) ->
  about doc (modify f).
Proof.
  intros Hi Hc w. unfold touches_only, modify. simpl. split; [intros; by rewrite Hi|].
  exists []. by rewrite Hc, app_nil_r.
Qed.

Lemma about_index (e : EmailDocument) :
  about (doc_id e) (modify (set_es_index (insert (doc_id e) e))).
Proof.
  intros w. unfold touches_only, modify. simpl. split.
  - intros d Hd. by rewrite lookup_insert_ne.
  - exists []. by rewrite app_nil_r.
Qed.

Ltac pipeline :=
  repeat first
    [ apply about_ret | apply about_throw | apply about_logger | apply about_call
    | apply about_get_world | apply about_index
    | apply about_modify; [done|done]
    | apply about_bind; [|intros ?]
    | apply about_try_catch; [|intros ?] ].

Lemma about_handleInterestedEmail doc env e : about doc (handleInterestedEmail env e).
Proof.
  unfold handleInterestedEmail, sendInterestedEmailNotification,
    triggerInterestedEmailWebhook.
  pipeline.
  - destruct (String.eqb (SLACK_WEBHOOK_URL env) ""); pipeline.
    destruct (slack_post_fails _ _ _); pipeline.
  - destruct (String.eqb (WEBHOOK_URL env) ""); pipeline.
    destruct (webhook_post_fails _ _ _); pipeline.
Qed.

Ltac pipeline_steps :=
  repeat first [ apply about_handleInterestedEmail | progress pipeline ].

Lemma about_storeEmailInDatabase doc env e : about doc (storeEmailInDatabase env e).
Proof.
  unfold storeEmailInDatabase, query. pipeline. destruct (pg_rejects _ _ _); pipeline.
Qed.

Lemma about_after_store env email (c : EmailCategorization) :
  let email' := set_categorization email c in
  about (doc_id email)
    (indexEmail env email' ;;;
     VectorDB_storeEmail env email' ;;;
     (if strict_equal_string (category c) "Interested"
      then handleInterestedEmail env email'
      else ret tt) ;;;
     call (IoEmit (newEmail_of email'))).
Proof.
  cbv zeta. unfold indexEmail, VectorDB_storeEmail.
  apply about_bind.
  { pipeline. destruct (es_index_fails _ _ _); pipeline.
    change (doc_id email) with (doc_id (set_categorization email c)). apply about_index. }
  intros _. apply about_bind.
  { pipeline. destruct (chroma_collection env); pipeline.
    destruct (chroma_add_fails _ _ _); pipeline. }
  intros _. apply about_bind; [|intros _; apply about_call].
  destruct (strict_equal_string _ _); [apply about_handleInterestedEmail | apply about_ret].
Qed.

Lemma about_processEmails_body env email :
  about (doc_id email) (processEmails_body env email).
Proof.
  unfold processEmails_body. apply about_bind.
  - unfold getEmailById. pipeline. destruct (es_get_fails _ _ _); pipeline.
  - intros [existing|]; [apply about_ret|].
    apply about_bind.
    + unfold aiService_categorizeEmail. pipeline.
    + intros c. apply about_bind; [apply about_storeEmailInDatabase|].
      intros _. apply about_after_store.
Qed.

(** What defeats the check: two documents with different ids, whatever
    their message identifiers.  After the turn of the first one, a second one
    whose id was not indexed is still not found, and it reaches the
    classifier and the store. *)
Lemma fresh_id_defeats_the_check env e1 e2 w :
  doc_id e1 <> doc_id e2 ->
  es_index w !! doc_id e2 = None ->
  let w1 := snd (processEmails_body env e1 w) in
  es_get_fails env w1 (doc_id e2) = false ->
  let after := snd (processEmails_body env e2 w1) in
  Classify (subject e2) (bodyText e2) (fromEmail e2) ∈ calls after /\
  exists c, PgQuery (UpsertEmail (set_categorization e2 c)) ∈ calls after.
Proof.
  intros Hne Hnew w1 Hget after.
  assert (es_index w1 !! doc_id e2 = None) as Hnew1.
  { destruct (about_processEmails_body env e1 w) as [Hidx _].
    subst w1. rewrite Hidx; [done | congruence]. }
  set (w2 := record_call (EsGet (doc_id e2)) w1).
  set (c := fst (categorizeEmail (builtins env) (aiService env w2)
                   (subject e2) (bodyText e2) (fromEmail e2))).
  set (w3 := snd (aiService_categorizeEmail env (subject e2) (bodyText e2)
                    (fromEmail e2) w2)).
  set (w4 := snd (storeEmailInDatabase env (set_categorization e2 c) w3)).
  assert (exists cs, calls after = calls w4 ++ cs) as [cs Hafter].
  { subst after. unfold processEmails_body. unfold bind at 1.
    rewrite getEmailById_spec, Hget, Hnew1.
    unfold bind at 1. rewrite aiService_categorizeEmail_spec. cbv zeta.
    fold w2. fold c. cbn [fst snd]. unfold bind at 1.
    rewrite storeEmailInDatabase_spec. cbn [fst snd].
    match goal with |- context [snd (?m ?w')] =>
      destruct (about_after_store env e2 c w') as [_ [cs Hcs]] end.
    exists cs. cbv zeta in Hcs. rewrite Hcs. f_equal.
    subst w4 w3. rewrite storeEmailInDatabase_spec, aiService_categorizeEmail_spec.
    reflexivity. }
  assert (PgQuery (UpsertEmail (set_categorization e2 c)) ∈ calls w4
          /\ Classify (subject e2) (bodyText e2) (fromEmail e2) ∈ calls w4) as [Hpg Hcl].
  { subst w4 w3. rewrite storeEmailInDatabase_spec, aiService_categorizeEmail_spec.
    cbv zeta. cbn [fst snd].
    destruct (pg_rejects _ _ _); simpl; split;
      repeat (rewrite elem_of_app); rewrite ?list_elem_of_singleton; auto. }
  rewrite Hafter. split; [|exists c]; apply elem_of_app; by left.
Qed.

(** C1.  The same message (same Message-ID) is fetched in two bursts.
    parseEmail gives each occurrence a fresh uuidv4() as [id], and the
    existence check of processEmails looks that [id] up: it finds nothing,
    and the second occurrence goes through classification, store, index,
    vector store and the UI event again.  The table, keyed by message_id,
    keeps one row; the index, keyed by [id], holds the message twice. *)
Theorem second_occurrence_is_processed :
  let st := run (quiet_env [])
              (connected ++ first_burst 2 3 "uuid-1" ++ later_burst 4 5 "uuid-2")
              (initial_State world_AB) in
  map call_name (pipeline_calls (world st)) =
    ["getEmailById uuid-1"; "categorizeEmail"; "upsert uuid-1";
     "indexEmail uuid-1"; "vector storeEmail uuid-1"; "emit newEmail uuid-1";
     "getEmailById uuid-2"; "categorizeEmail"; "upsert uuid-2";
     "indexEmail uuid-2"; "vector storeEmail uuid-2"; "emit newEmail uuid-2"] /\
  messageId <$> es_index (world st) !! "uuid-1" = Some "<m1@example.org>" /\
  messageId <$> es_index (world st) !! "uuid-2" = Some "<m1@example.org>" /\
  length (emails_table (world st)) = 1.
Proof. vm_compute. done. Qed.

(** ** The listeners of a fetch *)

(** When a parser settles with a message, the document is pushed at the
    end of the [emails] array of its fetch, whatever the place of the
    message among the fetched ids. *)
Lemma on_parser_done_pushes j job d s f parsed emailDoc :
  job_result job = Some parsed ->
  fetches (runtime s) !! job_fetch job = Some f ->
  parseEmail (accounts (service s)) d parsed (f_accountId f) (f_folderName f)
    = Some emailDoc ->
  fetches (runtime (snd (on_parser_done j job d s))) !! job_fetch job
  = Some (set_fetch (f_awaited f) (f_emails f ++ [emailDoc]) (f_ended f) f).
Proof.
  intros Hres Hf Hdoc. unfold on_parser_done, bind, get, update_runtime, modify.
  simpl. rewrite Hres. simpl. rewrite Hf, Hdoc. simpl. apply lookup_insert_eq.
Qed.

(** When a parser rejects, the array is left as it is and the failure is
    logged. *)
Lemma on_parser_done_skips j job d s :
  job_result job = None ->
  fetches (runtime (snd (on_parser_done j job d s))) = fetches (runtime s) /\
  logs (world (snd (on_parser_done j job d s)))
  = logs (world s) ++ [(LError, "Error parsing email:")].
Proof.
  intros Hres. unfold on_parser_done, bind, get, update_runtime, modify.
  simpl. by rewrite Hres.
Qed.

(** When the fetch ends, the array as it stands is handed to
    processEmails. *)
Lemma on_fetch_end_forwards env fid f s :
  f_emails f <> [] ->
  world (snd (on_fetch_end env fid f s))
  = log_lines [(LInfo, "Processed emails from folder")]
      (snd (processEmails env (f_emails f) (world s))).
Proof.
  intros Hne. unfold on_fetch_end, bind, update_runtime, modify, lift. simpl.
  destruct (f_emails f) as [|e es] eqn:Hes; [done|]. simpl.
  assert (fst (processEmails env (e :: es) (world s)) = Ok tt) as Hok.
  { unfold processEmails, try_catch.
    by destruct (for_of (processEmails_body env) (e :: es) (world s)) as [[[]|?] ?]. }
  destruct (processEmails env (e :: es) (world s)) as [r w']. simpl in *.
  by subst r.
Qed.

(** C6.  A fetch of ids 1, 2, 3 whose second message cannot be parsed.
    The parse failure is logged and skips only that message; but each
    message is pushed when its parser settles, and the batch is handed to
    processEmails when the fetch ends.  When the parsers settle in fetch
    order before the end, messages 1 and 3 are processed in that order;
    when the parser of message 3 settles first they are processed as 3, 1;
    when the fetch ends before the parsers settle nothing is processed. *)
Theorem fetched_batch_depends_on_parsers :
  let env := quiet_env [] in
  let d uuid := draws uuid "2024-01-01T00:00:00.000Z" in
  let fetched := run env (connected ++ three_messages 2) (initial_State world_AB) in
  let in_order :=
    run env [ParserDone 3 (d "uuid-1"); ParserDone 4 (d "uuid-2");
             ParserDone 5 (d "uuid-3"); FetchEnd 2] fetched in
  let last_first :=
    run env [ParserDone 5 (d "uuid-3"); ParserDone 4 (d "uuid-2");
             ParserDone 3 (d "uuid-1"); FetchEnd 2] fetched in
  let early_end :=
    run env [FetchEnd 2; ParserDone 3 (d "uuid-1"); ParserDone 4 (d "uuid-2");
             ParserDone 5 (d "uuid-3")] fetched in
  indexed_subjects (world in_order) = ["first"; "third"] /\
  indexed_subjects (world last_first) = ["third"; "first"] /\
  indexed_subjects (world early_end) = [] /\
  (LError, "Error parsing email:") ∈ logs (world last_first).
Proof.
  split; [by vm_compute|]. split; [by vm_compute|]. split; [by vm_compute|].
  apply list_elem_of_In. vm_compute. repeat (first [left; reflexivity | right]).
Qed.

(** ** Connections *)

Lemma startIDLEConnection_spec k a st :
  startIDLEConnection k a st =
  (Ok tt,
   set_runtime (fun r => issue (Connect (next_handle r))
                           (set_imaps (insert (next_handle r) (new_Imap k a)) (bump r))) st).
Proof. reflexivity. Qed.

Lemma step_ImapError env c st :
  step env (ImapError c) st =
  match imaps (runtime st) !! c with
  | Some i => if once_error i then on_error c i st else (Ok tt, st)
  | None => (Ok tt, st)
  end.
Proof.
  unfold step, bind, get. simpl.
  destruct (imaps (runtime st) !! c) as [i|]; [|done]. by destruct (once_error i).
Qed.

Lemma step_TimerFires env t st :
  step env (TimerFires t) st =
  match timers (runtime st) !! t with
  | Some tm => on_timer t tm st
  | None => (Ok tt, st)
  end.
Proof.
  unfold step, bind, get. simpl. by destruct (timers (runtime st) !! t).
Qed.

(** What the two listeners of a connection do.  A failure that the IMAP
    client reports through the 'error' event, while the once-listener of
    startIDLEConnection is still registered: the handler returns normally;
    the entry of that account is removed from [connections] and the entries
    of the other accounts stay; isRunning is not touched and nothing is
    asked of the IMAP library; one timer is armed, with a delay of 30000 ms,
    for the same account.  When that timer fires it is spent, and a new
    connection for the account is started if and only if isRunning is true at
    that moment.  A connection that ends ('end' event) is removed from
    [connections] and no timer is armed for it. *)
Lemma connection_error_schedules_retry env st c i :
  imaps (runtime st) !! c = Some i ->
  once_error i = true ->
  let r := step env (ImapError c) st in
  let t := next_handle (runtime st) in
  let retry := ReconnectTimeout 30000 (imap_accountId i) (imap_account i) in
  fst r = Ok tt /\
  Map_get (connections (service (snd r))) (imap_accountId i) = None /\
  (forall k, k <> imap_accountId i ->
     Map_get (connections (service (snd r))) k = Map_get (connections (service st)) k) /\
  isRunning (service (snd r)) = isRunning (service st) /\
  timers (runtime (snd r)) = <[t := retry]> (timers (runtime st)) /\
  commands (runtime (snd r)) = commands (runtime st) /\
  (forall st2,
     timers (runtime st2) !! t = Some retry ->
     let r2 := step env (TimerFires t) st2 in
     let c2 := next_handle (runtime st2) in
     fst r2 = Ok tt /\
     timers (runtime (snd r2)) = delete t (timers (runtime st2)) /\
     service (snd r2) = service st2 /\
     commands (runtime (snd r2)) =
       commands (runtime st2) ++ (if isRunning (service st2) then [Connect c2] else []) /\
     imaps (runtime (snd r2)) =
       if isRunning (service st2)
       then <[c2 := new_Imap (imap_accountId i) (imap_account i)]> (imaps (runtime st2))
       else imaps (runtime st2)) /\
  (once_end i = true ->
   let r' := step env (ImapEnd c) st in
   fst r' = Ok tt /\
   Map_get (connections (service (snd r'))) (imap_accountId i) = None /\
   timers (runtime (snd r')) = timers (runtime st) /\
   commands (runtime (snd r')) = commands (runtime st)).
Proof.
  intros Hc Harmed. cbv zeta. rewrite step_ImapError, Hc, Harmed.
  split; [done|]. split; [apply Map_get_delete_eq|].
  split; [intros k Hk; by apply Map_get_delete_ne|].
  split; [done|]. split; [done|]. split; [done|].
  split; cycle 1.
  { intros Hend. unfold step, bind, get. simpl. rewrite Hc, Hend.
    split; [done|]. split; [apply Map_get_delete_eq|]. done. }
  intros st2 Ht. rewrite step_TimerFires, Ht.
  unfold on_timer, bind, get, update_runtime, modify. simpl.
  destruct (isRunning (service st2)) eqn:Hrun; simpl.
  - done.
  - by rewrite app_nil_r.
Qed.

(** Account A is connected and its connection reports an error. *)
Lemma connection_error_schedules_retry_witness :
  let st := run (quiet_env []) connected (initial_State world_AB) in
  let r := step (quiet_env []) (ImapError 0) st in
  Map_get (connections (service st)) 1 = Some 0 /\
  Map_get (connections (service (snd r))) 1 = None /\
  timers (runtime (snd r)) !! 2 = Some (ReconnectTimeout 30000 1 account_A).
Proof.
  intros st r.
  destruct (connection_error_schedules_retry (quiet_env []) st 0
              {| imap_accountId := 1; imap_account := account_A;
                 once_ready := false; once_error := true; once_end := true;
                 end_called := false; mail_listeners := ["INBOX"] |}
              ltac:(vm_compute; reflexivity) eq_refl)
    as (_ & Hgone & _ & _ & Htimers & _ & _ & _).
  split; [by vm_compute|]. split; [exact Hgone|].
  subst r. rewrite Htimers. apply lookup_insert_eq.
Defined.

(** C8.  The reconnection is armed by the 'error' listener only.  When
    the connection of account A ends without an error (the server says BYE
    after an idle timeout, or hangs up, and the client emits 'end'), the
    'end' listener removes the connection and schedules nothing: isRunning
    is true, the account has no connection, the only timer armed is the
    periodic one, and when it fires no connection is started. *)
Theorem ended_connection_is_not_retried :
  let st := run (quiet_env []) (connected ++ [ImapEnd 0]) (initial_State world_AB) in
  isRunning (service st) = true /\
  Map_get (connections (service st)) 1 = None /\
  map_to_list (timers (runtime st)) = [(1, PeriodicInterval 300000)] /\
  connects (runtime (run (quiet_env []) [TimerFires 1] st)) = [Connect 0].
Proof. vm_compute. done. Qed.

(** ** stopSync *)







(** ** startSync *)

Lemma load_accounts_loop rows s :
  let r := for_of load_account rows s in
  fst r = Ok tt /\ runtime (snd r) = runtime s /\ world (snd r) = world s /\
  forall k a, (k, a) ∈ accounts (service (snd r)) ->
    (k, a) ∈ accounts (service s) \/
    exists row, row ∈ rows /\ k = acc_id row /\ a = account_of_row row.
Proof.
  revert s. induction rows as [|row rows IH]; intros s; simpl.
  - repeat split; auto.
  - unfold bind. simpl.
    destruct (IH (set_service (set_accounts
                (fun m => Map_set m (acc_id row) (account_of_row row))) s))
      as (I1 & I2 & I3 & I4).
    unfold load_account at 1, update_service, modify. simpl.
    split; [done|]. split; [done|]. split; [done|].
    intros k a Hin. destruct (I4 k a Hin) as [Hold|(row' & Hr & -> & ->)].
    + simpl in Hold. apply Map_set_elem in Hold as [Hold|[-> ->]]; [by left|].
      right. exists row. split; [apply elem_of_cons; by left | done].
    + right. exists row'. split; [apply elem_of_cons; by right | done].
Qed.

Lemma connect_if_active_spec k a s :
  connect_if_active (k, a) s =
  (Ok tt,
   if isActive a
   then set_runtime (fun r => issue (Connect (next_handle r))
                       (set_imaps (insert (next_handle r) (new_Imap k a)) (bump r))) s
   else s).
Proof. unfold connect_if_active. simpl. by destruct (isActive a). Qed.

Lemma connect_loop (l : list (Z * IMAPAccount)) s :
  let r := for_of connect_if_active l s in
  fst r = Ok tt /\ service (snd r) = service s /\ world (snd r) = world s /\
  timers (runtime (snd r)) = timers (runtime s) /\
  forall c i, imaps (runtime (snd r)) !! c = Some i ->
    imaps (runtime s) !! c = Some i \/
    exists k a, (k, a) ∈ l /\ isActive a = true /\ i = new_Imap k a.
Proof.
  revert s. induction l as [|[k a] l IH]; intros s; simpl.
  - repeat split; auto.
  - unfold bind. rewrite connect_if_active_spec.
    match goal with |- context [for_of connect_if_active l ?s1] =>
      destruct (IH s1) as (I1 & I2 & I3 & I4 & I5) end.
    clear IH. destruct (isActive a) eqn:Hact; simpl in I2, I3, I4, I5.
    + split; [done|]. split; [done|]. split; [done|]. split; [done|].
      intros c i Hin. destruct (I5 c i Hin) as [Hold|(k' & a' & Hk & Ha & ->)].
      * apply lookup_insert_Some in Hold as [[<- <-]|[_ Hold]]; [|by left].
        right. exists k, a. split; [apply elem_of_cons; by left | done].
      * right. exists k', a'. split; [apply elem_of_cons; by right | done].
    + split; [done|]. split; [done|]. split; [done|]. split; [done|].
      intros c i Hin. destruct (I5 c i Hin) as [Hold|(k' & a' & Hk & Ha & ->)]; [by left|].
      right. exists k', a'. split; [apply elem_of_cons; by right | done].
Qed.

Lemma query_select env w :
  query env SelectActiveAccounts w =
  if pg_rejects env w SelectActiveAccounts
  then (Throw "pg: statement failed", record_call (PgQuery SelectActiveAccounts) w)
  else (Ok (Rows (filter (fun r => is_active_true r = true) (accounts_table w))),
        record_call (PgQuery SelectActiveAccounts) w).
Proof. unfold query. run_monad. by destruct (pg_rejects env w SelectActiveAccounts). Qed.

Lemma loadAccounts_run env s :
  loadAccounts env s =
  if pg_rejects env (world s) SelectActiveAccounts
  then (Throw "pg: statement failed",
        set_world (fun w => log_lines [(LError, "Failed to load email accounts:")]
                              (record_call (PgQuery SelectActiveAccounts) w)) s)
  else
    match for_of load_account
            (filter (fun r => is_active_true r = true) (accounts_table (world s)))
            (loading s) with
    | (Ok _, s2) => (Ok tt, set_world (log_lines [(LInfo, "Loaded active email accounts")]) s2)
    | (Throw e, s2) =>
        (Throw e, set_world (log_lines [(LError, "Failed to load email accounts:")]) s2)
    end.
Proof.
  unfold loadAccounts, try_catch, bind at 1, lift. rewrite query_select.
  destruct (pg_rejects env (world s) SelectActiveAccounts); simpl.
  - by destruct s.
  - set (R := for_of _ _ (loading _)).
    unfold bind. simpl.
    match goal with |- context [for_of ?b ?l ?s] => change (for_of b l s) with R end.
    destruct R as [[[]|e] s2]; reflexivity.
Qed.

Lemma loadAccounts_facts env s :
  let r := loadAccounts env s in
  runtime (snd r) = runtime s /\
  accounts_table (world (snd r)) = accounts_table (world s) /\
  (fst r = Ok tt ->
   forall k a, (k, a) ∈ accounts (service (snd r)) ->
     exists row, row ∈ accounts_table (world s) /\ is_active row = Some true /\
                 k = acc_id row /\ a = account_of_row row).
Proof.
  cbv zeta. rewrite loadAccounts_run.
  destruct (pg_rejects env (world s) SelectActiveAccounts); simpl; [done|].
  match goal with |- context [for_of load_account ?rows ?s1] =>
    destruct (load_accounts_loop rows s1) as (L1 & L2 & L3 & L4);
    destruct (for_of load_account rows s1) as [[[]|e] s2] end;
    simpl in *; [|done].
  rewrite L2, L3. simpl. split; [done|]. split; [done|].
  intros _ k a Hin. destruct (L4 k a Hin) as [Hold|(row & Hrow & -> & ->)].
  { by apply elem_of_nil in Hold. }
  apply list_elem_of_filter in Hrow as [Hact Hrow].
  exists row. split; [done|]. split; [|done].
  unfold is_active_true in Hact. by destruct (is_active row) as [[]|].
Qed.

Lemma same_key_same_row (t : list AccountRow) (r1 r2 : AccountRow) :
  account_id_unique t -> r1 ∈ t -> r2 ∈ t -> acc_id r1 = acc_id r2 -> r1 = r2.
Proof.
  unfold account_id_unique. induction t as [|r t IH]; simpl.
  - intros _ H. by apply elem_of_nil in H.
  - intros Hnd H1 H2 Hid. apply list.NoDup_cons in Hnd as [Hr Hnd].
    apply elem_of_cons in H1 as [->|H1]; apply elem_of_cons in H2 as [->|H2].
    + done.
    + exfalso. apply Hr. rewrite Hid. by apply list_elem_of_fmap_2.
    + exfalso. apply Hr. rewrite <- Hid. by apply list_elem_of_fmap_2.
    + by apply IH.
Qed.

Lemma startSync_imaps env st c i :
  imaps (runtime (snd (startSync env st))) !! c = Some i ->
  imaps (runtime st) !! c = Some i \/
  exists row, row ∈ accounts_table (world st) /\ is_active row = Some true /\
              i = new_Imap (acc_id row) (account_of_row row).
Proof.
  unfold startSync, try_catch. unfold bind at 1.
  change (log LInfo "Starting email synchronization..." st)
    with (Ok tt, set_world (log_lines [(LInfo, "Starting email synchronization...")]) st).
  cbv beta iota. unfold bind at 1.
  set (s0 := set_world _ st).
  destruct (loadAccounts_facts env s0) as (F1 & F2 & F3).
  destruct (loadAccounts env s0) as [[[]|e] s1]; simpl in F1, F2, F3.
  - specialize (F3 eq_refl). unfold bind at 1, get. cbv beta iota. unfold bind at 1.
    destruct (connect_loop (accounts (service s1)) s1) as (K1 & K2 & K3 & K4 & K5).
    destruct (for_of connect_if_active (accounts (service s1)) s1) as [[[]|e] s2];
      simpl in K1, K2, K3, K4, K5; [|done].
    simpl. intros Hin. destruct (K5 c i Hin) as [Hold|(k & a & Hka & Hact & ->)].
    + left. by rewrite <- F1.
    + right. destruct (F3 k a Hka) as (row & Hrow & Hactive & -> & ->). by exists row.
  - simpl. rewrite F1. by left.
Qed.

(** ** Only active accounts are connected: an invariant of every run *)

Lemma Map_delete_elem {V} (m : JsMap V) k k' (v' : V) :
  (k', v') ∈ Map_delete m k -> (k', v') ∈ m.
Proof.
  induction m as [|[k0 v0] m IH]; simpl; [done|].
  destruct (Z.eqb k0 k); intros H.
  - apply elem_of_cons. right. by apply IH.
  - apply elem_of_cons in H as [H|H]; apply elem_of_cons; [by left | right; by apply IH].
Qed.

Lemma evolves_refl s : evolves s s.
Proof.
  repeat split; intros; eauto.
Qed.

Lemma evolves_trans s1 s2 s3 : evolves s1 s2 -> evolves s2 s3 -> evolves s1 s3.
Proof.
  intros (A1 & A2 & A3 & A4) (B1 & B2 & B3 & B4). repeat split.
  - intros c i3 H3. destruct (B1 c i3 H3) as [(i2 & H2 & E2)|?]; [|by right].
    destruct (A1 c i2 H2) as [(i1 & H1 & E1)|Hact].
    + left. exists i1. split; [done|congruence].
    + right. congruence.
  - intros c H. by apply B2, A2.
  - intros t d k a H3. destruct (B3 t d k a H3) as [H2|?]; [|by right].
    by apply A3.
  - intros k c H3. destruct (B4 k c H3) as [H2|?]; [|by right].
    destruct (A4 k c H2) as [H1|H1]; [by left|]. right. by apply B2.
Qed.

Lemma evolves_only_active s s' : only_active s -> evolves s s' -> only_active s'.
Proof.
  intros (I1 & I2 & I3) (T1 & T2 & T3 & T4). repeat split.
  - intros c i' H. destruct (T1 c i' H) as [(i & Hi & E)|?]; [|done].
    rewrite E. by eapply I1.
  - intros t d k a H. destruct (T3 t d k a H) as [H0|?]; [|done]. by eapply I2.
  - intros k c H. destruct (T4 k c H) as [H0|?]; [|done]. by eapply T2, I3.
Qed.

(** A step that leaves the Imap objects, the timers and [connections] as
    they are. *)
Lemma evolves_frame s s' :
  imaps (runtime s') = imaps (runtime s) ->
  timers (runtime s') = timers (runtime s) ->
  connections (service s') = connections (service s) ->
  evolves s s'.
Proof.
  intros Hi Ht Hc. unfold evolves. rewrite Hi, Ht, Hc. apply evolves_refl.
Qed.

Lemma keeps_active_ret {A} (a : A) : keeps_active (ret a).
Proof. intros s _. apply evolves_refl. Qed.

Lemma keeps_active_throw {A} e : keeps_active (throw (A := A) e).
Proof. intros s _. apply evolves_refl. Qed.

Lemma keeps_active_bind {A B} (m : Sync A) (k : A -> Sync B) :
  keeps_active m -> (forall a, keeps_active (k a)) -> keeps_active (bind m k).
Proof.
  intros Hm Hk s Hs. unfold bind. specialize (Hm s Hs).
  destruct (m s) as [[a|e] s1]; simpl in *; [|done].
  eapply evolves_trans; [exact Hm|]. apply Hk. by eapply evolves_only_active.
Qed.

(** [get] hands the current state to the rest of the computation. *)
Lemma keeps_active_get {B} (k : State -> Sync B) :
  (forall s, only_active s -> evolves s (snd (k s s))) -> keeps_active (bind get k).
Proof. intros Hk s Hs. unfold bind, get. simpl. by apply Hk. Qed.

Lemma keeps_active_try_catch {A} (m : Sync A) (h : string -> Sync A) :
  keeps_active m -> (forall e, keeps_active (h e)) -> keeps_active (try_catch m h).
Proof.
  intros Hm Hh s Hs. unfold try_catch. specialize (Hm s Hs).
  destruct (m s) as [[a|e] s1]; simpl in *; [done|].
  eapply evolves_trans; [exact Hm|]. apply Hh. by eapply evolves_only_active.
Qed.

Lemma keeps_active_for_of {A} (body : A -> Sync unit) (xs : list A) :
  (forall x, keeps_active (body x)) -> keeps_active (for_of body xs).
Proof.
  intros Hbody. induction xs as [|x xs IH]; simpl.
  - apply keeps_active_ret.
  - apply keeps_active_bind; [apply Hbody | intros _; exact IH].
Qed.

Lemma keeps_active_lift {A} (m : M A) : keeps_active (lift m).
Proof. intros s _. by apply evolves_frame. Qed.

Lemma keeps_active_log lv msg : keeps_active (log lv msg).
Proof. apply keeps_active_lift. Qed.

Lemma keeps_active_runtime (f : Runtime -> Runtime) :
  (forall r, imaps (f r) = imaps r) -> (forall r, timers (f r) = timers r) ->
  keeps_active (update_runtime f).
Proof. intros Hi Ht s _. apply evolves_frame; simpl; auto. Qed.

Lemma keeps_active_service (f : Service -> Service) :
  (forall sv, connections (f sv) = connections sv) -> keeps_active (update_service f).
Proof. intros Hc s _. apply evolves_frame; simpl; auto. Qed.

Lemma keeps_active_fresh : keeps_active fresh.
Proof.
  unfold fresh. apply keeps_active_get. intros s _. by apply evolves_frame.
Qed.

Lemma keeps_active_insert_imap c (i : Imap) :
  isActive (imap_account i) = true ->
  keeps_active (update_runtime (set_imaps (insert c i))).
Proof.
  intros Hact s _. repeat split; simpl.
  - intros c' i' H. apply lookup_insert_Some in H as [[_ <-]|[_ H]]; [by right|].
    left. by exists i'.
  - intros c' [i' H]. destruct (decide (c = c')) as [->|Hne].
    + rewrite lookup_insert_eq. eauto.
    + rewrite lookup_insert_ne by done. eauto.
  - intros; by left.
  - intros; by left.
Qed.

Lemma keeps_active_alter_imap c (f : Imap -> Imap) :
  (forall i, imap_account (f i) = imap_account i) ->
  keeps_active (update_runtime (set_imaps (alter f c))).
Proof.
  intros Hf s _. repeat split; simpl.
  - intros c' i' H. left. apply lookup_alter_Some in H as [(_ & i & Hi & ->)|[_ H]]; eauto.
  - intros c' [i' H]. destruct (decide (c = c')) as [->|Hne].
    + rewrite lookup_alter_eq, H. simpl. eauto.
    + rewrite lookup_alter_ne by done. eauto.
  - intros; by left.
  - intros; by left.
Qed.

Lemma keeps_active_insert_timer t (tm : Timer) :
  (forall d k a, tm = ReconnectTimeout d k a -> isActive a = true) ->
  keeps_active (update_runtime (set_timers (insert t tm))).
Proof.
  intros Htm s _. repeat split; simpl.
  - intros c i' H. left. by exists i'.
  - done.
  - intros t' d k a H. apply lookup_insert_Some in H as [[_ H]|[_ H]]; [|by left].
    right. by eapply Htm.
  - intros; by left.
Qed.

Lemma keeps_active_delete_timer t :
  keeps_active (update_runtime (set_timers (delete t))).
Proof.
  intros s _. repeat split; simpl.
  - intros c i' H. left. by exists i'.
  - done.
  - intros t' d k a H. apply lookup_delete_Some in H as [_ H]. by left.
  - intros; by left.
Qed.

Lemma keeps_active_delete_connection k :
  keeps_active (update_service (set_connections (fun m => Map_delete m k))).
Proof.
  intros s _. repeat split; simpl.
  - intros c i' H. left. by exists i'.
  - done.
  - intros; by left.
  - intros k' c H. left. by eapply Map_delete_elem.
Qed.

Lemma keeps_active_clear_connections :
  keeps_active (update_service (set_connections Map_clear)).
Proof.
  intros s _. repeat split; simpl.
  - intros c i' H. left. by exists i'.
  - done.
  - intros; by left.
  - intros k' c H. by apply elem_of_nil in H.
Qed.

Lemma keeps_active_read : keeps_active get.
Proof. intros s _. apply evolves_refl. Qed.

Ltac keep :=
  repeat first
    [ apply keeps_active_ret | apply keeps_active_throw | apply keeps_active_log
    | apply keeps_active_lift | apply keeps_active_fresh | apply keeps_active_read
    | apply keeps_active_delete_timer | apply keeps_active_delete_connection
    | apply keeps_active_clear_connections
    | apply keeps_active_runtime; [done|done]
    | apply keeps_active_service; done
    | apply keeps_active_bind; [|intros ?]
    | apply keeps_active_try_catch; [|intros ?]
    | apply keeps_active_for_of; intros ? ].

Lemma keeps_active_startIDLEConnection k (acct : IMAPAccount) :
  isActive acct = true -> keeps_active (startIDLEConnection k acct).
Proof. intros Hact. unfold startIDLEConnection. keep. by apply keeps_active_insert_imap. Qed.

Lemma keeps_active_fetchEmails k c folderName uids :
  keeps_active (fetchEmails k c folderName uids).
Proof. unfold fetchEmails. destruct uids; keep. Qed.

Lemma keeps_active_startIDLE k c (acct : IMAPAccount) :
  keeps_active (startIDLE k c acct).
Proof. unfold startIDLE. keep. Qed.

Lemma keeps_active_handleNewMail k c folderName :
  keeps_active (handleNewMail k c folderName).
Proof. unfold handleNewMail. keep. Qed.

Lemma keeps_active_on_ready c i :
  isActive (imap_account i) = true -> keeps_active (on_ready c i).
Proof.
  intros Hact s Hs.
  set (s1 := set_service (set_connections (fun m => Map_set m (imap_accountId i) c))
               (set_world (log_lines [(LInfo, "IMAP connection ready for account")])
                  (set_runtime (set_imaps (insert c (set_imap_flags false true true false i))) s))).
  assert (evolves s s1) as H1.
  { repeat split; simpl.
    - intros c' i' H. apply lookup_insert_Some in H as [[_ <-]|[_ H]]; [by right|].
      left. by exists i'.
    - intros c' [i' H]. destruct (decide (c = c')) as [->|Hne].
      + rewrite lookup_insert_eq. eauto.
      + rewrite lookup_insert_ne by done. eauto.
    - intros; by left.
    - intros k c' H. apply Map_set_elem in H as [H|[-> ->]]; [by left|].
      right. rewrite lookup_insert_eq. eauto. }
  change (snd (on_ready c i s)) with (snd (startIDLE (imap_accountId i) c (imap_account i) s1)).
  eapply evolves_trans; [exact H1|].
  apply keeps_active_startIDLE. by eapply evolves_only_active.
Qed.

Lemma keeps_active_on_error c i :
  isActive (imap_account i) = true -> keeps_active (on_error c i).
Proof.
  intros Hact. unfold on_error. keep.
  - by apply keeps_active_insert_imap.
  - apply keeps_active_insert_timer. by intros d' k' a' [= _ _ <-].
Qed.

Lemma keeps_active_on_end c i :
  isActive (imap_account i) = true -> keeps_active (on_end c i).
Proof. intros Hact. unfold on_end. keep. by apply keeps_active_insert_imap. Qed.

Lemma keeps_active_on_box_opened c i folderName err :
  isActive (imap_account i) = true -> keeps_active (on_box_opened c i folderName err).
Proof.
  intros Hact. unfold on_box_opened. destruct err; keep.
  by apply keeps_active_insert_imap.
Qed.

Lemma keeps_active_on_search_done c i folderName results :
  keeps_active (on_search_done c i folderName results).
Proof.
  unfold on_search_done. destruct results as [[|uid uids]|]; keep.
  all: apply keeps_active_fetchEmails.
Qed.

Lemma keeps_active_on_mail c i : keeps_active (on_mail c i).
Proof. unfold on_mail. keep. all: apply keeps_active_handleNewMail. Qed.

Lemma keeps_active_on_unseen_done c i folderName results :
  keeps_active (on_unseen_done c i folderName results).
Proof.
  unfold on_unseen_done. destruct results as [[|uid uids]|]; keep.
  all: apply keeps_active_fetchEmails.
Qed.

Lemma keeps_active_fetch_update fid (f : Fetch) :
  keeps_active (update_runtime (set_fetches (insert fid f))).
Proof. by apply keeps_active_runtime. Qed.

Lemma keeps_active_on_message_end fid f result :
  keeps_active (on_message_end fid f result).
Proof. unfold on_message_end. destruct (f_awaited f); keep. Qed.

Lemma keeps_active_on_parser_done j job d : keeps_active (on_parser_done j job d).
Proof.
  unfold on_parser_done. keep. destruct (job_result job); keep.
  destruct (fetches _ !! job_fetch job) as [f|]; keep.
  destruct (parseEmail _ _ _ _ _); keep.
Qed.

Lemma keeps_active_on_fetch_end env fid f : keeps_active (on_fetch_end env fid f).
Proof. unfold on_fetch_end. keep. destruct (f_emails f); keep. Qed.

Lemma keeps_active_on_timer t tm :
  (forall d k a, tm = ReconnectTimeout d k a -> isActive a = true) ->
  keeps_active (on_timer t tm).
Proof.
  intros Htm. unfold on_timer. destruct tm as [d k acct|period]; keep.
  - destruct (isRunning _); keep.
    apply keeps_active_insert_imap. simpl. by eapply Htm.
  - destruct (isRunning _); keep. destruct (isActive _); keep.
Qed.

Lemma keeps_active_startSync env : keeps_active (startSync env).
Proof.
  unfold startSync. keep.
  - unfold connect_if_active. destruct (isActive x.2) eqn:Hact; keep.
    by apply keeps_active_insert_imap.
  - by apply keeps_active_insert_timer.
Qed.

Lemma keeps_active_stopSync env : keeps_active (stopSync env).
Proof.
  unfold stopSync. keep.
  - destruct (syncInterval _); keep.
  - unfold close_connection, imap_end. keep.
    destruct (imap_end_throws _ _ _); keep.
    by apply keeps_active_alter_imap.
Qed.

Lemma keeps_active_addAccount env accountData : keeps_active (addAccount env accountData).
Proof.
  unfold addAccount. keep. destruct a; keep.
  destruct (isActive accountData) eqn:Hact; keep.
  by apply keeps_active_insert_imap.
Qed.

Lemma keeps_active_answer r (k : Sync unit) : keeps_active k -> keeps_active (answer r k).
Proof. intros Hk. unfold answer. keep. destruct (take_request _ _); keep. exact Hk. Qed.

Lemma keeps_active_step env ev : keeps_active (step env ev).
Proof.
  unfold step. apply keeps_active_get. intros s Hs.
  pose proof Hs as (I1 & I2 & I3).
  destruct ev; simpl.
  - by apply keeps_active_startSync.
  - by apply keeps_active_stopSync.
  - revert s Hs I1 I2 I3. intros s Hs _ _ _. revert s Hs.
    change (keeps_active (addAccount env accountData ;;; ret tt)).
    apply keeps_active_bind; [apply keeps_active_addAccount | intros; apply keeps_active_ret].
  - destruct (imaps (runtime s) !! c) as [i|] eqn:Hc; [|apply evolves_refl].
    destruct (once_ready i); [|apply evolves_refl].
    apply keeps_active_on_ready; [by eapply I1 | done].
  - destruct (imaps (runtime s) !! c) as [i|] eqn:Hc; [|apply evolves_refl].
    destruct (once_error i); [|apply evolves_refl].
    apply keeps_active_on_error; [by eapply I1 | done].
  - destruct (imaps (runtime s) !! c) as [i|] eqn:Hc; [|apply evolves_refl].
    destruct (once_end i); [|apply evolves_refl].
    apply keeps_active_on_end; [by eapply I1 | done].
  - destruct (imaps (runtime s) !! c) as [i|] eqn:Hc; [|apply evolves_refl].
    apply keeps_active_answer; [|done].
    apply keeps_active_on_box_opened. by eapply I1.
  - destruct (imaps (runtime s) !! c) as [i|] eqn:Hc; [|apply evolves_refl].
    apply keeps_active_answer; [|done]. apply keeps_active_on_search_done.
  - destruct (imaps (runtime s) !! c) as [i|] eqn:Hc; [|apply evolves_refl].
    apply keeps_active_answer; [|done]. apply keeps_active_on_unseen_done.
  - destruct (imaps (runtime s) !! c) as [i|] eqn:Hc; [|apply evolves_refl].
    by apply keeps_active_on_mail.
  - destruct (fetches (runtime s) !! f) as [fe|]; [|apply evolves_refl].
    destruct (f_ended fe); [apply evolves_refl|].
    by apply keeps_active_on_message_end.
  - destruct (parsing (runtime s) !! j) as [job|]; [|apply evolves_refl].
    by apply keeps_active_on_parser_done.
  - destruct (fetches (runtime s) !! f) as [fe|]; [|apply evolves_refl].
    destruct (f_ended fe); [apply evolves_refl|].
    by apply keeps_active_on_fetch_end.
  - destruct (fetches (runtime s) !! f) as [fe|]; [|apply evolves_refl].
    by apply keeps_active_log.
  - destruct (timers (runtime s) !! t) as [tm|] eqn:Ht; [|apply evolves_refl].
    apply keeps_active_on_timer; [|done].
    intros d k a ->. by eapply I2.
Qed.

Lemma only_active_initial w : only_active (initial_State w).
Proof.
  repeat split; simpl.
  - intros c i H. by apply lookup_empty_Some in H.
  - intros t d k a H. by apply lookup_empty_Some in H.
  - intros k c H. by apply elem_of_nil in H.
Qed.

Lemma only_active_run env evs st : only_active st -> only_active (run env evs st).
Proof.
  revert st. induction evs as [|ev evs IH]; intros st Hst; simpl; [done|].
  apply IH. eapply evolves_only_active; [exact Hst|]. by apply keeps_active_step.
Qed.

(** ** startSync and the connections of a run *)

(** C7.  Every Imap object that exists after startSync() was there before
    the call or was made for a row of [email_accounts] whose is_active is
    true; so, the ids being a primary key, no connection is started for a
    row whose flag is false or null; on a service fresh from its
    constructor every connection that exists when startSync() completes
    belongs to an active row; and whatever happens to a service after its
    construction (calls, IMAP events, timers), every entry of [connections]
    is the Imap object of an account whose isActive flag was true when the
    connection was started. *)
Theorem startSync_skips_inactive env st :
  let st' := snd (startSync env st) in
  (forall c i, imaps (runtime st') !! c = Some i ->
     imaps (runtime st) !! c = Some i \/
     exists row, row ∈ accounts_table (world st) /\ is_active row = Some true /\
                 i = new_Imap (acc_id row) (account_of_row row)) /\
  (account_id_unique (accounts_table (world st)) ->
   forall row, row ∈ accounts_table (world st) -> is_active row <> Some true ->
   forall c i, imaps (runtime st') !! c = Some i -> imap_accountId i = acc_id row ->
     imaps (runtime st) !! c = Some i) /\
  (imaps (runtime st) = ∅ ->
   forall c i, imaps (runtime st') !! c = Some i ->
     isActive (imap_account i) = true /\
     exists row, row ∈ accounts_table (world st) /\ is_active row = Some true /\
                 imap_accountId i = acc_id row) /\
  (forall evs w k c,
     let reached := run env evs (initial_State w) in
     (k, c) ∈ connections (service reached) ->
     exists i, imaps (runtime reached) !! c = Some i /\
               isActive (imap_account i) = true).
Proof.
  cbv zeta. split; [apply startSync_imaps|]. split; [|split]; cycle 2.
  { intros evs w k c Hin.
    destruct (only_active_run env evs (initial_State w) (only_active_initial w))
      as (I1 & _ & I3).
    destruct (I3 k c Hin) as [i Hi]. exists i. split; [done|]. by eapply I1. }
  - intros Hpk row Hrow Hoff c i Hin Hid.
    destruct (startSync_imaps env st c i Hin) as [Hold|(row' & Hrow' & Hon & ->)]; [done|].
    simpl in Hid. rewrite (same_key_same_row _ row' row Hpk Hrow' Hrow Hid) in Hon. done.
  - intros Hfresh c i Hin.
    destruct (startSync_imaps env st c i Hin) as [Hold|(row & Hrow & Hon & ->)].
    + rewrite Hfresh in Hold. by apply lookup_empty_Some in Hold.
    + simpl. split; [unfold is_active_true; by rewrite Hon|]. by exists row.
Qed.

(** A (active) and B (inactive) are configured: after startSync() the one
    Imap object is the one of A. *)
Lemma startSync_skips_inactive_witness :
  let st' := snd (startSync (quiet_env []) (initial_State world_AB)) in
  connects (runtime st') = [Connect 0] /\
  forall c i, imaps (runtime st') !! c = Some i -> imap_accountId i <> 2%Z.
Proof.
  intros st'. split; [by vm_compute|].
  intros c i Hin Hid.
  destruct (startSync_skips_inactive (quiet_env []) (initial_State world_AB))
    as (_ & Hoff & _ & _).
  assert (account_id_unique (accounts_table world_AB)) as Hpk.
  { unfold account_id_unique. simpl. apply NoDup_cons_2; [|apply NoDup_singleton].
    intros H. apply list_elem_of_singleton in H. discriminate. }
  specialize (Hoff Hpk (row_of_account 2 account_B)
                ltac:(simpl; apply list_elem_of_further, list_elem_of_here)
                ltac:(simpl; discriminate) c i Hin Hid).
  simpl in Hoff. by apply lookup_empty_Some in Hoff.
Defined.

(* ===================================================================== *)
(** * Further properties of the code around the pipeline *)
(* ===================================================================== *)

(** ** AIService: which client is asked, and what comes back *)

Lemma substring_app (n : nat) (s t : string) :
  n <= String.length s -> String.substring 0 n (s +:+ t) = String.substring 0 n s.
Proof.
  revert n. induction s as [|a s IH]; intros n Hn; simpl in *.
  - assert (n = 0) as -> by lia. destruct t; reflexivity.
  - destruct n as [|n]; [reflexivity|]. simpl. f_equal. apply IH. lia.
Qed.

(** X1: the classifier sees the first 1000 characters of the body only:
    whatever follows them cannot change the categorization. *)
Lemma body_beyond_1000_is_ignored bi ai subject body more fromEmail :
  1000 <= String.length body ->
  categorizeEmail bi ai subject (body +:+ more) fromEmail
  = categorizeEmail bi ai subject body fromEmail.
Proof.
  intros Hlen. unfold categorizeEmail, buildCategorizationPrompt.
  rewrite (substring_app 1000 body more Hlen). reflexivity.
Qed.

Lemma body_beyond_1000_is_ignored_witness :
  categorizeEmail no_builtins (answers_with "openai" (VNumber (Finite (9 # 10))))
    "offer" (long_body +:+ "Please unsubscribe me.") "a@example.org"
  = categorizeEmail no_builtins (answers_with "openai" (VNumber (Finite (9 # 10))))
      "offer" long_body "a@example.org".
Proof.
  apply (body_beyond_1000_is_ignored no_builtins _ "offer" long_body
           "Please unsubscribe me." "a@example.org").
  apply Nat.leb_le. vm_compute. reflexivity.
Defined.

(** X2: the fallback between the providers goes one way.  With
    AI_PROVIDER set to anything but 'openai' and no Anthropic key, nobody is
    asked and every message gets the default label, although an OpenAI key
    may be configured; without an OpenAI key, the Anthropic client is asked
    whatever AI_PROVIDER says. *)
Lemma provider_fallback_is_one_way env subject body fromEmail w :
  let r := aiService_categorizeEmail env subject body fromEmail w in
  let prompt := buildCategorizationPrompt subject body fromEmail in
  (forall p, AI_PROVIDER env = Some p -> p <> "" -> p <> "openai" ->
     ANTHROPIC_API_KEY env = false ->
     r = (Ok default_categorization,
          log_lines [(LError, "Failed to categorize email:")]
            (record_call (Classify subject body fromEmail) w))) /\
  (OPENAI_API_KEY env = false -> ANTHROPIC_API_KEY env = true ->
   fst r = Ok match anthropic_create env w prompt with
              | AnthropicRejects _ => default_categorization
              | AnthropicResolves ty txt =>
                  if String.eqb ty "text"
                  then match fst (categorization_of_parsed (builtins env) "Anthropic"
                                    (JSON_parse txt)) with
                       | Ok c => c
                       | Throw _ => default_categorization
                       end
                  else default_categorization
              end).
Proof.
  cbv zeta. rewrite aiService_categorizeEmail_spec. cbv zeta.
  unfold categorizeEmail, aiService. simpl. split.
  - intros p Hp Hne Hno Ha. rewrite Hp, Ha. simpl.
    apply String.eqb_neq in Hne. rewrite Hne.
    apply String.eqb_neq in Hno. rewrite Hno. simpl.
    destruct (OPENAI_API_KEY env); reflexivity.
  - intros Ho Ha. rewrite Ho, Ha. rewrite andb_false_r. simpl.
    unfold categorizeWithAnthropic. simpl.
    destruct (anthropic_create env w _) as [e|ty txt]; [reflexivity|].
    destruct (String.eqb ty "text"); [|reflexivity].
    destruct (categorization_of_parsed (builtins env) "Anthropic" (JSON_parse txt))
      as [[c|e] logs]; reflexivity.
Qed.

(** X3: a numeric confidence is clamped to [0, 1] and the category is
    passed on as the provider gave it, unchecked. *)
Lemma numeric_confidence_is_clamped bi ai create subject body fromEmail content props q :
  provider ai = "openai" ->
  openai ai = Some create ->
  create (buildCategorizationPrompt subject body fromEmail) = OpenAIResolves (Some content) ->
  chars content <> "" ->
  JSON_parse content = Some (VObject props) ->
  own_property props "confidence" = VNumber (Finite q) ->
  let r := categorizeEmail bi ai subject body fromEmail in
  snd r = [] /\
  category (fst r) = own_property props "category" /\
  exists c, confidence (fst r) = Finite c /\
    ((q <= 0)%Q -> (c == 0)%Q) /\
    ((1 <= q)%Q -> (c == 1)%Q) /\
    ((0 <= q)%Q -> (q <= 1)%Q -> (c == q)%Q).
Proof.
  intros Hp Ho Hc Hne Hj Hq. unfold categorizeEmail.
  rewrite Hp, Ho. simpl. unfold categorizeWithOpenAI. rewrite Ho, Hc.
  apply String.eqb_neq in Hne. rewrite Hne, Hj. simpl. rewrite Hq. simpl.
  split; [reflexivity|]. split; [reflexivity|].
  unfold Math_max, Math_min.
  destruct (Qle_bool q 0) eqn:H0.
  - exists 0%Q. apply Qle_bool_iff in H0. split; [reflexivity|].
    split; [|split]; intros.
    + reflexivity.
    + exfalso. assert (1 <= 0)%Q as A by (eapply Qle_trans; eauto).
      revert A. unfold Qle. simpl. lia.
    + apply Qle_antisym; assumption.
  - assert (~ (q <= 0)%Q) as N0 by (intros A; apply Qle_bool_iff in A; congruence).
    destruct (Qle_bool q 1) eqn:H1.
    + exists q. apply Qle_bool_iff in H1. split; [reflexivity|].
      split; [|split]; intros.
      * contradiction.
      * apply Qle_antisym; assumption.
      * reflexivity.
    + exists 1%Q. split; [reflexivity|].
      split; [|split]; intros.
      * contradiction.
      * reflexivity.
      * exfalso. apply Qle_bool_iff in H2. congruence.
Qed.

Lemma numeric_confidence_is_clamped_witness :
  confidence (fst (categorizeEmail no_builtins
                     (answers_with "openai" (VNumber (Finite (17 # 10))))
                     "offer" "hello" "a@example.org")) = Finite 1 /\
  category (fst (categorizeEmail no_builtins
                     (answers_with "openai" (VNumber (Finite (17 # 10))))
                     "offer" "hello" "a@example.org")) = VString "Interested".
Proof.
  pose proof (numeric_confidence_is_clamped no_builtins
                (answers_with "openai" (VNumber (Finite (17 # 10))))
                _ "offer" "hello" "a@example.org" _ _ (17 # 10)
                eq_refl eq_refl eq_refl ltac:(discriminate) eq_refl eq_refl) as H.
  split; [|apply H]. reflexivity.
Defined.

(** ** generateReplySuggestion and extractKeyInformation *)

Lemma suggestion_of_parsed_range bi who parsed r :
  fst (Reply.suggestion_of_parsed bi who parsed) = Ok r ->
  Reply.confidence r = NaN \/ in_unit_interval (Reply.confidence r).
Proof.
  unfold Reply.suggestion_of_parsed.
  destruct parsed as [p|]; [|discriminate].
  destruct (get_property p "suggestedReply"); [|discriminate].
  destruct (get_property p "confidence") as [conf|]; [|discriminate].
  destruct (get_property p "reasoning"); [|discriminate].
  simpl. intros [= <-]. simpl. apply clamp_is_NaN_or_in_range.
Qed.

(** X4: the confidence of a reply suggestion is a number of [0, 1] or
    NaN, whatever the provider answers and when nobody answers. *)
Lemma generateReplySuggestion_confidence bi ai originalEmail context productInfo agenda :
  let r := fst (Reply.generateReplySuggestion bi ai originalEmail
                  context productInfo agenda) in
  Reply.confidence r = NaN \/ in_unit_interval (Reply.confidence r).
Proof.
  unfold Reply.generateReplySuggestion.
  set (prompt := Reply.buildReplySuggestionPrompt _ _ _ _).
  assert (in_unit_interval (Reply.confidence Reply.fallback)) as Hfb.
  { split; unfold Qle; simpl; lia. }
  assert (forall who t, let a := Reply.suggestion_of_parsed bi who t in
            let r := fst (match a with
                          | (Ok r, logs) => (r, logs)
                          | (Throw _, logs) =>
                              (Reply.fallback,
                               logs ++ [(LError, "Failed to generate reply suggestion:")])
                          end) in
            Reply.confidence r = NaN \/ in_unit_interval (Reply.confidence r)) as Hp.
  { intros who t. pose proof (suggestion_of_parsed_range bi who t) as H.
    destruct (Reply.suggestion_of_parsed bi who t) as [[r|e] logs]; simpl in *.
    - apply H. reflexivity.
    - right. exact Hfb. }
  destruct (String.eqb (provider ai) "openai" && bool_decide (is_Some (openai ai))).
  - unfold Reply.generateReplyWithOpenAI.
    destruct (openai ai) as [create|]; [|right; exact Hfb].
    destruct (create prompt) as [e|[content|]]; try (right; exact Hfb).
    destruct (String.eqb (chars content) ""); [right; exact Hfb|].
    apply Hp.
  - destruct (bool_decide (is_Some (anthropic ai))); [|right; exact Hfb].
    unfold Reply.generateReplyWithAnthropic.
    destruct (anthropic ai) as [create|]; [|right; exact Hfb].
    destruct (create prompt) as [e|ty txt]; [right; exact Hfb|].
    destruct (String.eqb ty "text"); [|right; exact Hfb].
    apply Hp.
Qed.

(** X5: when the provider that is asked rejects the request, the fixed
    fallback reply comes back, with confidence 0.3, and the failure is
    logged once. *)
Lemma generateReplySuggestion_fallback bi ai originalEmail context productInfo agenda :
  collaborator_throws ai
    (Reply.buildReplySuggestionPrompt originalEmail context productInfo agenda) ->
  Reply.generateReplySuggestion bi ai originalEmail context productInfo agenda
  = (Reply.fallback, [(LError, "Failed to generate reply suggestion:")]).
Proof.
  unfold collaborator_throws, Reply.generateReplySuggestion.
  set (prompt := Reply.buildReplySuggestionPrompt _ _ _ _).
  destruct (String.eqb (provider ai) "openai" && bool_decide (is_Some (openai ai))).
  - intros (create & e & Ho & Hr).
    unfold Reply.generateReplyWithOpenAI. rewrite Ho, Hr. reflexivity.
  - intros (create & e & Ha & Hr). rewrite Ha. simpl.
    unfold Reply.generateReplyWithAnthropic. rewrite Ha, Hr. reflexivity.
Qed.

Lemma generateReplySuggestion_fallback_witness :
  Reply.generateReplySuggestion no_builtins (aiService openai_down_env world_AB)
    {| Reply.subject := "offer"; Reply.body := "hello";
       Reply.fromEmail := "a@example.org" |} "" "" ""
  = (Reply.fallback, [(LError, "Failed to generate reply suggestion:")]).
Proof.
  apply generateReplySuggestion_fallback.
  exists (openai_create openai_down_env world_AB), "Request timed out.".
  split; reflexivity.
Defined.

(** X6: extractKeyInformation asks the OpenAI client or nobody.  With
    another provider, or without that client, the fixed analysis comes
    back and nothing is logged; otherwise the result is the fixed analysis
    or whatever value the text of the answer parses to. *)
Lemma extractKeyInformation_asks_openai_only ai subject body :
  let r := extractKeyInformation ai subject body in
  (provider ai <> "openai" \/ openai ai = None -> r = (fallback_analysis, [])) /\
  (fst r = fallback_analysis \/
   exists create content,
     provider ai = "openai" /\ openai ai = Some create /\
     create (key_information_prompt subject body) = OpenAIResolves (Some content) /\
     JSON_parse content = Some (fst r) /\ snd r = []).
Proof.
  unfold extractKeyInformation. split.
  - intros [Hp|Ho].
    + apply String.eqb_neq in Hp. rewrite Hp. destruct (openai ai); reflexivity.
    + rewrite Ho. reflexivity.
  - destruct (openai ai) as [create|]; [|left; reflexivity].
    destruct (String.eqb (provider ai) "openai") eqn:Hp; [|left; reflexivity].
    apply String.eqb_eq in Hp.
    destruct (create (key_information_prompt subject body)) as [e|[content|]] eqn:Hc;
      try (left; reflexivity).
    destruct (String.eqb (chars content) ""); [left; reflexivity|].
    destruct (JSON_parse content) as [v|] eqn:Hj; [|left; reflexivity].
    right. exists create, content. simpl. auto.
Qed.

(** ** DatabaseService.query and transaction, on the pool *)

Lemma pool_query_run {R} (pg : Pool.Pg R) text t :
  Pool.query pg text t =
  if Pool.connect_rejects pg t
  then (Throw "pool: connect failed", t ++ [Pool.PoolConnect])
  else (Pool.client_answers pg (t ++ [Pool.PoolConnect]) text,
        (t ++ [Pool.PoolConnect]) ++ [Pool.ClientQuery text] ++ [Pool.ClientRelease]).
Proof.
  unfold Pool.query, Pool.pool_connect, Pool.client_query, Pool.client_release, finally.
  unfold bind, get, modify, throw, ret. simpl.
  destruct (Pool.connect_rejects pg t); [reflexivity|]. simpl.
  destruct (Pool.client_answers pg (t ++ [Pool.PoolConnect]) text);
    simpl; rewrite <- app_assoc; reflexivity.
Qed.

(** X7: query gives the client back to the pool whether the statement
    succeeds or is rejected, and the caller gets the statement's own
    outcome; when no client can be had, no statement is sent and nothing
    is released. *)
Lemma pool_query_releases {R} (pg : Pool.Pg R) text t :
  let r := Pool.query pg text t in
  (Pool.connect_rejects pg t = false ->
   snd r = t ++ [Pool.PoolConnect; Pool.ClientQuery text; Pool.ClientRelease] /\
   fst r = Pool.client_answers pg (t ++ [Pool.PoolConnect]) text) /\
  (Pool.connect_rejects pg t = true ->
   snd r = t ++ [Pool.PoolConnect] /\ exists e, fst r = Throw e).
Proof.
  simpl. rewrite pool_query_run. split; intros ->; simpl.
  - rewrite <- app_assoc. split; reflexivity.
  - split; [reflexivity|]. eexists; reflexivity.
Qed.

(** transaction after a successful connect, case by case; [rollback] is
    what its catch and its finally do from the operations [tr], for the
    error [e]. *)
Lemma pool_transaction_run {R T} (pg : Pool.Pg R) (callback : Pool.P T) t :
  Pool.connect_rejects pg t = false ->
  let rollback (tr : list Pool.Op) (e : string) : Result T * list Pool.Op :=
    (match Pool.client_answers pg tr "ROLLBACK" with
     | Ok _ => Throw e
     | Throw e' => Throw e'
     end, tr ++ [Pool.ClientQuery "ROLLBACK"; Pool.ClientRelease]) in
  let t1 := t ++ [Pool.PoolConnect] in
  Pool.transaction pg callback t =
  match Pool.client_answers pg t1 "BEGIN" with
  | Throw e => rollback (t1 ++ [Pool.ClientQuery "BEGIN"]) e
  | Ok _ =>
      match callback (t1 ++ [Pool.ClientQuery "BEGIN"]) with
      | (Throw e, t3) => rollback t3 e
      | (Ok a, t3) =>
          match Pool.client_answers pg t3 "COMMIT" with
          | Ok _ => (Ok a, t3 ++ [Pool.ClientQuery "COMMIT"; Pool.ClientRelease])
          | Throw e => rollback (t3 ++ [Pool.ClientQuery "COMMIT"]) e
          end
      end
  end.
Proof.
  intros Hc. simpl.
  unfold Pool.transaction, Pool.pool_connect, Pool.client_query, Pool.client_release,
    finally, try_catch.
  unfold bind, get, modify, throw, ret. simpl. rewrite Hc. simpl.
  destruct (Pool.client_answers pg (t ++ [Pool.PoolConnect]) "BEGIN") as [b|e]; simpl.
  - destruct (callback _) as [[a|e] t3]; simpl.
    + destruct (Pool.client_answers pg t3 "COMMIT") as [c|e]; simpl.
      * rewrite <- app_assoc. reflexivity.
      * destruct (Pool.client_answers pg _ "ROLLBACK"); simpl;
          rewrite <- !app_assoc; reflexivity.
    + destruct (Pool.client_answers pg _ "ROLLBACK"); simpl;
        rewrite <- !app_assoc; reflexivity.
  - destruct (Pool.client_answers pg _ "ROLLBACK"); simpl;
      rewrite <- !app_assoc; reflexivity.
Qed.

(** X8: a transaction ends with COMMIT and the release of the client
    exactly when BEGIN, the callback and COMMIT all succeeded, and then it
    returns what the callback returned; in every other case it throws and
    its last two operations are ROLLBACK and the release. *)
Lemma transaction_commits_or_rolls_back {R T} (pg : Pool.Pg R) (callback : Pool.P T) t :
  Pool.connect_rejects pg t = false ->
  let r := Pool.transaction pg callback t in
  match fst r with
  | Ok a =>
      exists b c t3,
        Pool.client_answers pg (t ++ [Pool.PoolConnect]) "BEGIN" = Ok b /\
        callback (t ++ [Pool.PoolConnect; Pool.ClientQuery "BEGIN"]) = (Ok a, t3) /\
        Pool.client_answers pg t3 "COMMIT" = Ok c /\
        snd r = t3 ++ [Pool.ClientQuery "COMMIT"; Pool.ClientRelease]
  | Throw _ =>
      exists tr, snd r = tr ++ [Pool.ClientQuery "ROLLBACK"; Pool.ClientRelease]
  end.
Proof.
  intros Hc. simpl. rewrite (pool_transaction_run pg callback t Hc). simpl.
  rewrite <- app_assoc. simpl.
  destruct (Pool.client_answers pg (t ++ [Pool.PoolConnect]) "BEGIN") as [b|e] eqn:Hb.
  - destruct (callback _) as [[a|e] t3] eqn:Hcb.
    + destruct (Pool.client_answers pg t3 "COMMIT") as [c|e] eqn:Hco; simpl.
      * exists b, c, t3. auto.
      * destruct (Pool.client_answers pg _ "ROLLBACK"); eexists; reflexivity.
    + simpl. destruct (Pool.client_answers pg _ "ROLLBACK"); eexists; reflexivity.
  - simpl. destruct (Pool.client_answers pg _ "ROLLBACK"); eexists; reflexivity.
Qed.

Lemma transaction_commits_or_rolls_back_witness :
  let pg := pg_rejecting ["COMMIT"] in
  Pool.connect_rejects pg [] = false /\
  exists tr, snd (Pool.transaction pg (one_update pg) [])
             = tr ++ [Pool.ClientQuery "ROLLBACK"; Pool.ClientRelease].
Proof.
  split; [reflexivity|].
  exact (transaction_commits_or_rolls_back (pg_rejecting ["COMMIT"])
           (one_update (pg_rejecting ["COMMIT"])) [] eq_refl).
Defined.

(** X9: when the callback throws, the caller gets the callback's error
    if ROLLBACK succeeds, and the error of ROLLBACK if it does not: a
    failed ROLLBACK hides the cause.  The client is released in both
    cases. *)
Lemma failed_rollback_hides_the_cause {R T} (pg : Pool.Pg R) (callback : Pool.P T)
    t b e t3 :
  Pool.connect_rejects pg t = false ->
  Pool.client_answers pg (t ++ [Pool.PoolConnect]) "BEGIN" = Ok b ->
  callback (t ++ [Pool.PoolConnect; Pool.ClientQuery "BEGIN"]) = (Throw e, t3) ->
  let r := Pool.transaction pg callback t in
  snd r = t3 ++ [Pool.ClientQuery "ROLLBACK"; Pool.ClientRelease] /\
  fst r = match Pool.client_answers pg t3 "ROLLBACK" with
          | Ok _ => Throw e
          | Throw e' => Throw e'
          end.
Proof.
  intros Hc Hb Hcb. simpl. rewrite (pool_transaction_run pg callback t Hc). simpl.
  rewrite Hb. rewrite <- app_assoc. simpl. rewrite Hcb. simpl. split; reflexivity.
Qed.

Lemma failed_rollback_hides_the_cause_witness :
  let pg := pg_rejecting ["UPDATE emails SET is_read = true"; "ROLLBACK"] in
  fst (Pool.transaction pg (one_update pg) []) = Throw "pg: ROLLBACK failed" /\
  list.last (snd (Pool.transaction pg (one_update pg) [])) = Some Pool.ClientRelease.
Proof.
  cbv zeta.
  destruct (failed_rollback_hides_the_cause
              (pg_rejecting ["UPDATE emails SET is_read = true"; "ROLLBACK"])
              (one_update (pg_rejecting ["UPDATE emails SET is_read = true"; "ROLLBACK"]))
              [] tt "pg: UPDATE emails SET is_read = true failed"
              [Pool.PoolConnect; Pool.ClientQuery "BEGIN";
               Pool.ClientQuery "UPDATE emails SET is_read = true"]
              eq_refl eq_refl eq_refl) as [H1 H2].
  rewrite H1, H2. split; reflexivity.
Defined.

(** ** The pipeline: what a turn does to the world *)

Lemma record_calls_fields cs ls w :
  let w' := log_lines ls (fold_left (fun w c => record_call c w) cs w) in
  es_index w' = es_index w /\ emails_table w' = emails_table w /\
  emails_serial w' = emails_serial w /\ calls w' = calls w ++ cs.
Proof.
  simpl. revert w. induction cs as [|c cs IH]; intros w; simpl.
  - rewrite app_nil_r. auto.
  - destruct (IH (record_call c w)) as (H1 & H2 & H3 & H4).
    simpl in *. rewrite H1, H2, H3, H4, <- app_assoc. auto.
Qed.

Lemma VectorDB_storeEmail_effect env e w :
  exists cs ls,
    VectorDB_storeEmail env e w =
    (Ok tt, log_lines ls (fold_left (fun w c => record_call c w) cs w)) /\
    Forall (fun c => c = ChromaAdd e) cs.
Proof.
  unfold VectorDB_storeEmail. run_monad.
  destruct (chroma_collection env); simpl.
  - destruct (chroma_add_fails env w e); simpl.
    + exists [ChromaAdd e], [(LError, "Failed to store email in vector database:")].
      split; [reflexivity|]. repeat constructor.
    + exists [ChromaAdd e], [(LDebug, "Email stored in vector database")].
      split; [reflexivity|]. repeat constructor.
  - exists [], [(LError, "Failed to store email in vector database:")].
    split; [reflexivity|]. constructor.
Qed.

Lemma handleInterestedEmail_effect env e w :
  exists w' posts,
    handleInterestedEmail env e w = (Ok tt, w') /\
    calls w' = calls w ++ posts /\
    es_index w' = es_index w /\
    emails_table w' = emails_table w /\
    Forall (fun c => c = SlackPost e \/ c = WebhookPost e) posts.
Proof.
  unfold handleInterestedEmail, sendInterestedEmailNotification,
    triggerInterestedEmailWebhook.
  run_monad.
  destruct (String.eqb (SLACK_WEBHOOK_URL env) ""); simpl;
    repeat match goal with
           | |- context [slack_post_fails ?a ?b ?c] =>
               destruct (slack_post_fails a b c); simpl
           end;
    (destruct (String.eqb (WEBHOOK_URL env) ""); simpl;
     repeat match goal with
            | |- context [webhook_post_fails ?a ?b ?c] =>
                destruct (webhook_post_fails a b c); simpl
            end);
    eexists _, _; (split; [reflexivity|]); simpl;
    rewrite <- ?app_assoc; simpl;
    first [ split; [symmetry; apply app_nil_r|]; repeat split; constructor
          | split; [reflexivity|]; repeat split; auto ].
Qed.

(** X10: handleInterestedEmail never throws, and a failure of Slack does
    not keep the webhook from being called: each of the two is posted to
    exactly when its URL is configured, Slack first, and the handling is
    logged as done whatever the two answered.  The stores are not
    touched. *)
Lemma handleInterestedEmail_posts env e w :
  let r := handleInterestedEmail env e w in
  fst r = Ok tt /\
  calls (snd r) =
    calls w
    ++ (if String.eqb (SLACK_WEBHOOK_URL env) "" then [] else [SlackPost e])
    ++ (if String.eqb (WEBHOOK_URL env) "" then [] else [WebhookPost e]) /\
  es_index (snd r) = es_index w /\
  emails_table (snd r) = emails_table w /\
  list.last (logs (snd r)) = Some (LInfo, "Handled interested email").
Proof.
  unfold handleInterestedEmail, sendInterestedEmailNotification,
    triggerInterestedEmailWebhook.
  run_monad.
  destruct (String.eqb (SLACK_WEBHOOK_URL env) ""); simpl;
    repeat match goal with
           | |- context [slack_post_fails ?a ?b ?c] =>
               destruct (slack_post_fails a b c); simpl
           end;
    (destruct (String.eqb (WEBHOOK_URL env) ""); simpl;
     repeat match goal with
            | |- context [webhook_post_fails ?a ?b ?c] =>
                destruct (webhook_post_fails a b c); simpl
            end);
    rewrite ?app_nil_r, <- ?app_assoc;
    (repeat split; try reflexivity; rewrite last_app; reflexivity).
Qed.
Lemma strict_equal_string_eq v s : strict_equal_string v s = true -> v = VString s.
Proof.
  destruct v; simpl; try discriminate. intros H. apply String.eqb_eq in H. congruence.
Qed.

Lemma turn_effect env email w :
  let r := processEmails_body env email w in
  ((es_get_fails env w (doc_id email) = true \/ is_Some (es_index w !! doc_id email)) /\
   calls (snd r) = calls w ++ [EsGet (doc_id email)] /\
   es_index (snd r) = es_index w /\ emails_table (snd r) = emails_table w /\
   (fst r = Ok tt -> is_Some (es_index w !! doc_id email))) \/
  exists c tail,
    let e' := set_categorization email c in
    c = fst (categorizeEmail (builtins env) (aiService env (world_at_classify email w))
               (subject email) (bodyText email) (fromEmail email)) /\
    es_index w !! doc_id email = None /\
    calls (snd r) =
      calls w ++ [EsGet (doc_id email);
                  Classify (subject email) (bodyText email) (fromEmail email);
                  PgQuery (UpsertEmail e'); EsIndex e'] ++ tail /\
    (emails_table (snd r) = emails_table w /\
     (exists w', pg_rejects env w' (UpsertEmail e') = true) \/
     emails_table (snd r) = upsert_email e' (emails_table w) (emails_serial w)) /\
    ((exists err, fst r = Throw err) /\ tail = [] /\ es_index (snd r) = es_index w /\
     (exists w', es_index_fails env w' e' = true) \/
     fst r = Ok tt /\ (exists w', es_index_fails env w' e' = false) /\
     es_index (snd r) = <[doc_id email := e']> (es_index w) /\
     exists follow, tail = follow ++ [IoEmit (newEmail_of e')] /\
                    Forall (is_follow_up e') follow).
Proof.
  intros r. assert (r = processEmails_body env email w) as Hr by reflexivity.
  clearbody r. unfold processEmails_body in Hr. unfold bind at 1 in Hr.
  rewrite getEmailById_spec in Hr.
  destruct (es_get_fails env w (doc_id email)).
  { left. subst r. simpl. split; [left; reflexivity|].
    repeat split; try reflexivity. discriminate. }
  destruct (es_index w !! doc_id email) as [old|] eqn:Hold.
  { left. subst r. simpl. split; [right; eauto|].
    repeat split; try reflexivity. intros _. eauto. }
  right.
  unfold bind at 1 in Hr. rewrite aiService_categorizeEmail_spec in Hr.
  cbv beta iota zeta in Hr.
  change (aiService env (record_call (EsGet (doc_id email)) w))
    with (aiService env (world_at_classify email w)) in Hr.
  revert Hr.
  remember (categorizeEmail (builtins env) (aiService env (world_at_classify email w))
              (subject email) (bodyText email) (fromEmail email)) as rc eqn:Hrc in *.
  remember (fst rc) as c eqn:Hcdef in *.
  intros Hr. exists c. cbv zeta. revert Hr.
  remember (set_categorization email c) as e' eqn:He' in *.
  intros Hr.
  unfold bind at 1 in Hr. rewrite storeEmailInDatabase_spec in Hr.
  cbv beta iota zeta in Hr.
  revert Hr.
  remember (log_lines (snd rc) (record_call
              (Classify (subject email) (bodyText email) (fromEmail email))
              (record_call (EsGet (doc_id email)) w))) as w2 eqn:Hw2 in *.
  remember (if pg_rejects env w2 (UpsertEmail e')
            then log_lines [(LError, "Error storing email in database:")]
                   (record_call (PgQuery (UpsertEmail e')) w2)
            else set_emails (upsert_email e' (emails_table w2) (emails_serial w2))
                   (emails_serial w2 + 1) (record_call (PgQuery (UpsertEmail e')) w2))
    as w3 eqn:Hw3 in *.
  intros Hr.
  assert (es_index w3 = es_index w /\
          calls w3 = calls w ++ [EsGet (doc_id email);
                                 Classify (subject email) (bodyText email) (fromEmail email);
                                 PgQuery (UpsertEmail e')] /\
          (emails_table w3 = emails_table w /\
           (exists w', pg_rejects env w' (UpsertEmail e') = true) \/
           emails_table w3 = upsert_email e' (emails_table w) (emails_serial w)))
    as (Hi3 & Hc3 & Ht3).
  { subst w3 w2. destruct (pg_rejects env _ (UpsertEmail e')) eqn:Hpg; simpl;
      rewrite <- !app_assoc; simpl; eauto 6. }
  clear Hw3.
  unfold bind at 1 in Hr. rewrite indexEmail_spec in Hr.
  destruct (es_index_fails env w3 e') eqn:Hif; cbv beta iota zeta in Hr.
  { exists []. subst r. simpl. rewrite Hc3, <- app_assoc. simpl.
    repeat split; auto. left. repeat split; eauto. }
  revert Hr.
  remember (log_lines [(LDebug, "Email indexed")]
              (set_es_index (insert (doc_id e') e') (record_call (EsIndex e') w3)))
    as w4 eqn:Hw4 in *.
  intros Hr.
  assert (es_index w4 = <[doc_id email := e']> (es_index w) /\
          calls w4 = calls w3 ++ [EsIndex e'] /\ emails_table w4 = emails_table w3)
    as (Hi4 & Hc4 & Ht4).
  { subst w4. simpl. rewrite Hi3. subst e'. auto. }
  clear Hw4.
  unfold bind at 1 in Hr.
  destruct (VectorDB_storeEmail_effect env e' w4) as (cs & ls & Hv & Hcs).
  rewrite Hv in Hr. cbv beta iota zeta in Hr.
  destruct (record_calls_fields cs ls w4) as (Hi5 & Ht5 & _ & Hc5).
  cbv zeta in Hi5, Ht5, Hc5.
  revert Hr.
  remember (log_lines ls (fold_left (fun w c => record_call c w) cs w4)) as w5 eqn:Hw5 in *.
  intros Hr.
  clear Hw5.
  unfold bind at 1 in Hr.
  match type of Hr with
  | _ = (let (_, _) := ?t in _) =>
      assert (exists w6 posts,
                t = (Ok tt, w6) /\
                calls w6 = calls w5 ++ posts /\ es_index w6 = es_index w5 /\
                emails_table w6 = emails_table w5 /\
                Forall (is_follow_up e') posts)
        as (w6 & posts & Hh & Hc6 & Hi6 & Ht6 & Hp)
  end.
  { destruct (strict_equal_string (category c) "Interested") eqn:Hcat.
    - apply strict_equal_string_eq in Hcat.
      destruct (handleInterestedEmail_effect env e' w5)
        as (w6 & posts & Hrun & Hc & Hi & Ht & Hposts).
      exists w6, posts. repeat split; auto.
      eapply list.Forall_impl; [exact Hposts|]. intros x Hx. right.
      split; [exact Hx|]. rewrite He'. exact Hcat.
    - exists w5, []. rewrite app_nil_r. repeat split; auto. }
  rewrite Hh in Hr. cbv beta iota zeta in Hr.
  exists ((cs ++ posts) ++ [IoEmit (newEmail_of e')]).
  subst r. unfold call, modify. simpl.
  rewrite Hc6, Hc5, Hc4, Hc3, Hi6, Hi5, Hi4, Ht6, Ht5, Ht4, <- !app_assoc. simpl.
  repeat split; auto.
  right. split; [reflexivity|]. split; [eauto|]. split; [reflexivity|].
  exists (cs ++ posts). split; [apply app_assoc|].
  apply Forall_app. split; [|exact Hp].
  eapply list.Forall_impl; [exact Hcs|]. intros x ->. left. reflexivity.
Qed.

Lemma upsert_email_present e (t : list EmailRow) serial :
  messageId e ∈ map message_id (upsert_email e t serial).
Proof.
  unfold upsert_email. destruct (existsb (conflicts (messageId e)) t) eqn:Hex.
  - destruct (on_conflict_update_keys e t) as [-> _].
    apply existsb_conflicts. exact Hex.
  - rewrite map_app. apply elem_of_app. right. simpl. apply list_elem_of_here.
Qed.

(** X11: a turn stores the row before it indexes the document.  When
    Postgres accepts the statement and Elasticsearch then refuses the
    document, the turn throws: the message has its row in the table, no
    document in the index, and no 'newEmail' event was emitted for it. *)
Lemma index_failure_leaves_row_without_document env email w :
  es_get_fails env w (doc_id email) = false ->
  es_index w !! doc_id email = None ->
  (forall w' s, pg_rejects env w' s = false) ->
  (forall w' e, doc_id e = doc_id email -> es_index_fails env w' e = true) ->
  let r := processEmails_body env email w in
  (exists err, fst r = Throw err) /\
  stored_records (messageId email) (emails_table (snd r)) <> [] /\
  es_index (snd r) !! doc_id email = None /\
  (forall ev, IoEmit ev ∈ calls (snd r) -> IoEmit ev ∈ calls w).
Proof.
  intros Hget Hnew Hpg Hes r.
  pose proof (turn_effect env email w) as H. cbv zeta in H. fold r in H.
  destruct H as [(Hl & _)|(c & tail & Hx)].
  { exfalso. destruct Hl as [Hl|[x Hl]]; congruence. }
  destruct Hx as (_ & _ & Hcalls & Htab & Hend).
  destruct Hend as [(Herr & -> & Hidx & _)|(_ & (w' & Hacc) & _)].
  2:{ rewrite Hes in Hacc by reflexivity. discriminate. }
  split; [exact Herr|]. split; [|split].
  - destruct Htab as [(_ & w' & Hrej)|Htab]; [rewrite Hpg in Hrej; discriminate|].
    rewrite Htab.
    pose proof (stored_records_present (messageId email)
                  (upsert_email (set_categorization email c) (emails_table w)
                     (emails_serial w))
                  (upsert_email_present (set_categorization email c) _ _)) as Hlen.
    intros Hnil. rewrite Hnil in Hlen. simpl in Hlen. lia.
  - rewrite Hidx. exact Hnew.
  - intros ev. rewrite Hcalls. rewrite app_nil_r. intros Hin.
    apply elem_of_app in Hin. destruct Hin as [Hin|Hin]; [exact Hin|].
    exfalso. repeat (apply elem_of_cons in Hin; destruct Hin as [Hin|Hin];
                     [discriminate Hin|]).
    inversion Hin.
Qed.

Lemma index_failure_leaves_row_without_document_witness :
  let email := document "uuid-1" (Some "<m1@example.org>") "offer" in
  let r := processEmails_body (quiet_env ["uuid-1"]) email world_AB in
  (exists err, fst r = Throw err) /\
  stored_records "<m1@example.org>" (emails_table (snd r)) <> [] /\
  es_index (snd r) !! "uuid-1" = None /\
  (forall ev, IoEmit ev ∈ calls (snd r) -> IoEmit ev ∈ []).
Proof.
  apply (index_failure_leaves_row_without_document (quiet_env ["uuid-1"])
           (document "uuid-1" (Some "<m1@example.org>") "offer") world_AB).
  - reflexivity.
  - reflexivity.
  - reflexivity.
  - intros w' e He. simpl. rewrite He. reflexivity.
Defined.

(** *** Properties of the world that every turn keeps *)

Lemma preserves_for_of (I : World -> Prop) {A} (body : A -> M unit) (xs : list A) :
  (forall x, preserves I (body x)) -> preserves I (for_of body xs).
Proof.
  intros Hb. induction xs as [|x xs IH]; intros w Hw; simpl; [exact Hw|].
  unfold bind. pose proof (Hb x w Hw) as H1.
  destruct (body x w) as [[[]|e] w1]; simpl in *; [apply IH; exact H1|exact H1].
Qed.

Lemma preserves_processEmails (I : World -> Prop) env emails :
  (forall ls w, I w -> I (log_lines ls w)) ->
  (forall email, preserves I (processEmails_body env email)) ->
  preserves I (processEmails env emails).
Proof.
  intros Hlog Hb w Hw. unfold processEmails, try_catch.
  pose proof (preserves_for_of I (processEmails_body env) emails Hb w Hw) as H.
  destruct (for_of (processEmails_body env) emails w) as [[[]|e] w1]; simpl in *.
  - exact H.
  - apply Hlog. exact H.
Qed.

Lemma preserves_query (I : World -> Prop) env s :
  (forall c w, I w -> I (record_call (PgQuery c) w)) ->
  (forall e w, I w -> I (set_emails (upsert_email e (emails_table w) (emails_serial w))
                           (emails_serial w + 1) w)) ->
  (forall t n w, I w -> I (set_accounts_table t n w)) ->
  preserves I (query env s).
Proof.
  intros Hc He Ha w Hw. unfold query. run_monad.
  destruct (pg_rejects env w s); simpl; [apply Hc; exact Hw|].
  destruct s; simpl.
  - apply Hc; exact Hw.
  - apply (He e (record_call (PgQuery (UpsertEmail e)) w)). apply Hc; exact Hw.
  - apply (Ha _ _ (record_call (PgQuery (InsertAccount a)) w)). apply Hc; exact Hw.
Qed.

Lemma turn_keeps_posts env email :
  preserves posts_are_Interested (processEmails_body env email).
Proof.
  intros w Hw e He.
  destruct (turn_effect env email w) as [(_ & Hc & _)|(c & tail & Hx)].
  - rewrite Hc in He. apply Hw.
    destruct He as [He|He]; apply elem_of_app in He;
      destruct He as [He|He]; auto;
      apply list_elem_of_singleton in He; discriminate He.
  - cbv zeta in Hx. destruct Hx as (_ & _ & Hc & _ & Hend).
    assert (Forall (fun x => x = IoEmit (newEmail_of (set_categorization email c)) \/
                             is_follow_up (set_categorization email c) x) tail) as Htail.
    { destruct Hend as [(_ & -> & _)|(_ & _ & _ & follow & -> & Hf)]; [constructor|].
      apply Forall_app. split.
      - eapply list.Forall_impl; [exact Hf|]. auto.
      - repeat constructor. }
    rewrite Hc in He.
    assert (forall x, (x = SlackPost e \/ x = WebhookPost e) ->
                      x ∈ calls w ++ [EsGet (doc_id email);
                             Classify (subject email) (bodyText email) (fromEmail email);
                             PgQuery (UpsertEmail (set_categorization email c));
                             EsIndex (set_categorization email c)] ++ tail ->
                      aiCategory e = VString "Interested") as Hall.
    { intros x Hx Hin. apply elem_of_app in Hin. destruct Hin as [Hin|Hin].
      - apply Hw. destruct Hx as [->| ->]; auto.
      - repeat (apply elem_of_cons in Hin; destruct Hin as [Hin|Hin];
                [destruct Hx; congruence|]).
        rewrite list.Forall_forall in Htail. specialize (Htail x Hin).
        destruct Htail as [Ht|[Ht|[Ht Hcat]]]; [destruct Hx; congruence..|].
        assert (e = set_categorization email c) as ->
          by (destruct Hx, Ht; congruence).
        exact Hcat. }
    destruct He as [He|He];
      [apply (Hall (SlackPost e)) | apply (Hall (WebhookPost e))]; auto.
Qed.

Lemma turn_keeps_emitted env email :
  preserves emitted_are_indexed (processEmails_body env email).
Proof.
  intros w Hw ev He.
  destruct (turn_effect env email w) as [(_ & Hc & Hi & _)|(c & tail & Hx)].
  - rewrite Hi. apply Hw. rewrite Hc in He. apply elem_of_app in He.
    destruct He as [He|He]; [exact He|].
    apply list_elem_of_singleton in He. discriminate He.
  - cbv zeta in Hx. destruct Hx as (_ & _ & Hc & _ & Hend).
    rewrite Hc in He. apply elem_of_app in He.
    destruct Hend as [(_ & -> & Hi & _)|(_ & _ & Hi & follow & -> & Hf)]; rewrite Hi.
    + destruct He as [He|He]; [apply Hw; exact He|].
      exfalso. repeat (apply elem_of_cons in He; destruct He as [He|He];
                       [discriminate He|]).
      inversion He.
    + destruct He as [He|He].
      * destruct (decide (ev_id ev = doc_id email)) as [->|Hne].
        -- rewrite lookup_insert_eq. eauto.
        -- rewrite lookup_insert_ne by congruence. apply Hw. exact He.
      * repeat (apply elem_of_cons in He; destruct He as [He|He];
                [discriminate He|]).
        apply elem_of_app in He. destruct He as [He|He].
        -- exfalso. rewrite list.Forall_forall in Hf. specialize (Hf _ He).
           destruct Hf as [Hf|[[Hf|Hf] _]]; discriminate Hf.
        -- apply list_elem_of_singleton in He. injection He as ->. simpl.
           rewrite lookup_insert_eq. eauto.
Qed.

Lemma turn_keeps_unique env email :
  preserves (fun w => message_id_unique (emails_table w)) (processEmails_body env email).
Proof.
  intros w Hw.
  destruct (turn_effect env email w) as [(_ & _ & _ & Ht & _)|(c & tail & Hx)].
  - rewrite Ht. exact Hw.
  - cbv zeta in Hx. destruct Hx as (_ & _ & _ & [(Ht & _)|Ht] & _); rewrite Ht.
    + exact Hw.
    + apply upsert_email_unique. exact Hw.
Qed.

(** *** Properties of the world that every run keeps *)

Section WorldInvariant.
Variable I : World -> Prop.
Hypothesis I_log : forall ls w, I w -> I (log_lines ls w).
Hypothesis I_query : forall env s, preserves I (query env s).
Hypothesis I_turn : forall env email, preserves I (processEmails_body env email).

Lemma maintains_ret {A} (a : A) : maintains I (ret a).
Proof. intros st H. exact H. Qed.

Lemma maintains_throw {A} e : maintains I (throw (A := A) e).
Proof. intros st H. exact H. Qed.

Lemma maintains_get : maintains I get.
Proof. intros st H. exact H. Qed.

Lemma maintains_bind {A B} (m : Sync A) (k : A -> Sync B) :
  maintains I m -> (forall a, maintains I (k a)) -> maintains I (bind m k).
Proof.
  intros Hm Hk st H. unfold bind. specialize (Hm st H).
  destruct (m st) as [[a|e] s1]; simpl in *; [apply Hk; exact Hm|exact Hm].
Qed.

Lemma maintains_try_catch {A} (m : Sync A) (h : string -> Sync A) :
  maintains I m -> (forall e, maintains I (h e)) -> maintains I (try_catch m h).
Proof.
  intros Hm Hh st H. unfold try_catch. specialize (Hm st H).
  destruct (m st) as [[a|e] s1]; simpl in *; [exact Hm|apply Hh; exact Hm].
Qed.

Lemma maintains_for_of {A} (body : A -> Sync unit) (xs : list A) :
  (forall x, maintains I (body x)) -> maintains I (for_of body xs).
Proof.
  intros Hb. induction xs as [|x xs IH]; simpl.
  - apply maintains_ret.
  - apply maintains_bind; [apply Hb|intros _; exact IH].
Qed.

Lemma maintains_lift {A} (m : M A) : preserves I m -> maintains I (lift m).
Proof. intros Hm st H. unfold lift. simpl. apply Hm. exact H. Qed.

Lemma maintains_log lv msg : maintains I (log lv msg).
Proof. apply maintains_lift. intros w H. apply (I_log [(lv, msg)]). exact H. Qed.

Lemma maintains_service (f : Service -> Service) : maintains I (update_service f).
Proof. intros st H. exact H. Qed.

Lemma maintains_runtime (f : Runtime -> Runtime) : maintains I (update_runtime f).
Proof. intros st H. exact H. Qed.

Lemma maintains_fresh : maintains I fresh.
Proof. intros st H. exact H. Qed.

Lemma maintains_processEmails env emails : maintains I (lift (processEmails env emails)).
Proof.
  apply maintains_lift. apply preserves_processEmails; [exact I_log|apply I_turn].
Qed.

Ltac stable :=
  repeat first
    [ apply maintains_ret | apply maintains_throw | apply maintains_log
    | apply maintains_get | apply maintains_fresh
    | apply maintains_service | apply maintains_runtime
    | apply maintains_processEmails
    | apply maintains_lift; apply I_query
    | apply maintains_bind; [|intros ?]
    | apply maintains_try_catch; [|intros ?]
    | apply maintains_for_of; intros ?
    | progress unfold connect_if_active, on_box_opened, on_search_done,
        on_unseen_done, on_message_end, on_timer, fetchEmails
    | match goal with
      | |- maintains _ (match ?x with _ => _ end) => destruct x
      | |- maintains _ (if ?x then _ else _) => destruct x
      end ].

Lemma maintains_step env ev : maintains I (step env ev).
Proof.
  unfold step. apply maintains_bind; [apply maintains_get|]. intros st.
  destruct ev; stable.
Qed.

Lemma maintains_run env evs st : I (world st) -> I (world (run env evs st)).
Proof.
  revert st. induction evs as [|ev evs IH]; intros st H; simpl; [exact H|].
  apply IH. apply maintains_step. exact H.
Qed.

End WorldInvariant.

(** X12: in every run of the service, every document posted to Slack
    or to the webhook carries the label 'Interested'. *)
Lemma posts_only_for_Interested env evs st :
  posts_are_Interested (world st) -> posts_are_Interested (world (run env evs st)).
Proof.
  apply maintains_run.
  - intros ls w H. exact H.
  - intros env' s. apply preserves_query.
    + intros c w H e He. apply H.
      destruct He as [He|He]; apply elem_of_app in He;
        destruct He as [He|He]; auto;
        apply list_elem_of_singleton in He; discriminate He.
    + intros e w H. exact H.
    + intros t n w H. exact H.
  - apply turn_keeps_posts.
Qed.

Lemma posts_only_for_Interested_witness :
  let st := run interested_env (connected ++ first_burst 2 3 "uuid-1")
              (initial_State world_AB) in
  posts_are_Interested (world_AB) /\
  posts_are_Interested (world st) /\
  exists e, WebhookPost e ∈ calls (world st).
Proof.
  assert (posts_are_Interested world_AB) as H0.
  { intros e [H|H]; inversion H. }
  split; [exact H0|]. split.
  - apply (posts_only_for_Interested interested_env
             (connected ++ first_burst 2 3 "uuid-1") (initial_State world_AB) H0).
  - eexists. apply list_elem_of_In. vm_compute.
    repeat (first [left; reflexivity | right]).
Defined.

(** X13: in every run of the service, every 'newEmail' event emitted is
    about a document that is in the index under the id of the event: the
    event is emitted after the document was indexed, and no document ever
    leaves the index. *)
Lemma emitted_documents_are_indexed env evs st :
  emitted_are_indexed (world st) -> emitted_are_indexed (world (run env evs st)).
Proof.
  apply maintains_run.
  - intros ls w H. exact H.
  - intros env' s. apply preserves_query.
    + intros c w H ev He. apply elem_of_app in He.
      destruct He as [He|He]; [apply H; exact He|].
      apply list_elem_of_singleton in He. discriminate He.
    + intros e w H. exact H.
    + intros t n w H. exact H.
  - apply turn_keeps_emitted.
Qed.

Lemma emitted_documents_are_indexed_witness :
  let st := run (quiet_env []) (connected ++ first_burst 2 3 "uuid-1")
              (initial_State world_AB) in
  emitted_are_indexed world_AB /\
  emitted_are_indexed (world st) /\
  exists ev, IoEmit ev ∈ calls (world st) /\ ev_id ev = "uuid-1".
Proof.
  assert (emitted_are_indexed world_AB) as H0.
  { intros ev H. inversion H. }
  split; [exact H0|]. split.
  - apply (emitted_documents_are_indexed (quiet_env [])
             (connected ++ first_burst 2 3 "uuid-1") (initial_State world_AB) H0).
  - eexists. split.
    + apply list_elem_of_In. vm_compute.
      repeat (first [left; reflexivity | right]).
    + reflexivity.
Defined.

(** X14: in every run of the service the emails table keeps at most one
    row per message identifier: no statement the service sends can break
    the UNIQUE constraint on message_id. *)
Lemma table_stays_unique env evs st :
  message_id_unique (emails_table (world st)) ->
  message_id_unique (emails_table (world (run env evs st))).
Proof.
  apply (maintains_run (fun w => message_id_unique (emails_table w))).
  - intros ls w H. exact H.
  - intros env' s. apply preserves_query.
    + intros c w H. exact H.
    + intros e w H. simpl. apply upsert_email_unique. exact H.
    + intros t n w H. exact H.
  - apply turn_keeps_unique.
Qed.

Lemma table_stays_unique_witness :
  let st := run (quiet_env [])
              (connected ++ first_burst 2 3 "uuid-1" ++ later_burst 4 5 "uuid-2")
              (initial_State world_AB) in
  message_id_unique (emails_table world_AB) /\
  message_id_unique (emails_table (world st)) /\
  map message_id (emails_table (world st)) = ["<m1@example.org>"].
Proof.
  assert (message_id_unique (emails_table world_AB)) as H0 by constructor.
  split; [exact H0|]. split.
  - apply (table_stays_unique (quiet_env [])
             (connected ++ first_burst 2 3 "uuid-1" ++ later_burst 4 5 "uuid-2")
             (initial_State world_AB) H0).
  - vm_compute. reflexivity.
Defined.

(** X15: the existence check works on the id of the document: after a
    turn that ended normally, a turn for a document with the same id only
    looks the id up. *)
Lemma processed_document_is_skipped_next_time env email again w :
  fst (processEmails_body env email w) = Ok tt ->
  doc_id again = doc_id email ->
  es_get_fails env (snd (processEmails_body env email w)) (doc_id again) = false ->
  processEmails_body env again (snd (processEmails_body env email w))
  = (Ok tt, record_call (EsGet (doc_id again)) (snd (processEmails_body env email w))).
Proof.
  intros Hok Hid Hget.
  assert (is_Some (es_index (snd (processEmails_body env email w)) !! doc_id again))
    as [d Hd].
  { rewrite Hid.
    destruct (turn_effect env email w) as [(_ & _ & Hi & _ & Hs)|(c & tail & Hx)].
    - rewrite Hi. apply Hs. exact Hok.
    - cbv zeta in Hx. destruct Hx as (_ & _ & _ & _ & Hend).
      destruct Hend as [((err & Herr) & _)|(_ & _ & Hi & _)]; [congruence|].
      rewrite Hi, lookup_insert_eq. eauto. }
  unfold processEmails_body at 1. unfold bind at 1.
  rewrite getEmailById_spec, Hget, Hd. reflexivity.
Qed.

Lemma processed_document_is_skipped_next_time_witness :
  let email := document "uuid-1" (Some "<m1@example.org>") "offer" in
  let w1 := snd (processEmails_body (quiet_env []) email world_AB) in
  fst (processEmails_body (quiet_env []) email world_AB) = Ok tt /\
  processEmails_body (quiet_env []) email w1
  = (Ok tt, record_call (EsGet "uuid-1") w1).
Proof.
  split; [reflexivity|].
  apply (processed_document_is_skipped_next_time (quiet_env [])
           (document "uuid-1" (Some "<m1@example.org>") "offer")
           (document "uuid-1" (Some "<m1@example.org>") "offer") world_AB);
    reflexivity.
Defined.

(** X16: a batch of documents whose ids are all in the index costs one
    lookup per document and nothing else: no classification, no
    statement, no notification, no log line. *)
Lemma known_documents_are_only_looked_up env emails w :
  (forall e, e ∈ emails -> is_Some (es_index w !! doc_id e)) ->
  (forall e w', e ∈ emails -> es_get_fails env w' (doc_id e) = false) ->
  let r := processEmails env emails w in
  fst r = Ok tt /\
  calls (snd r) = calls w ++ map (fun e => EsGet (doc_id e)) emails /\
  es_index (snd r) = es_index w /\
  emails_table (snd r) = emails_table w /\
  logs (snd r) = logs w.
Proof.
  intros Hin Hget. cbv zeta. unfold processEmails, try_catch.
  assert (for_of (processEmails_body env) emails w
          = (Ok tt, fold_left (fun w e => record_call (EsGet (doc_id e)) w) emails w))
    as ->.
  { revert w Hin. induction emails as [|e emails IH]; intros w Hin; [reflexivity|].
    simpl. unfold bind at 1. unfold processEmails_body at 1. unfold bind at 1.
    rewrite getEmailById_spec, Hget by apply list_elem_of_here.
    destruct (Hin e (list_elem_of_here _ _)) as [d ->]. simpl.
    apply IH.
    - intros e' w' He'. apply Hget. apply list_elem_of_further. exact He'.
    - intros e' He'. simpl. apply Hin. apply list_elem_of_further. exact He'. }
  simpl. split; [reflexivity|].
  clear Hin Hget. revert w. induction emails as [|e emails IH]; intros w; simpl.
  - rewrite app_nil_r. auto.
  - destruct (IH (record_call (EsGet (doc_id e)) w)) as (H1 & H2 & H3 & H4).
    rewrite H1, H2, H3, H4. simpl. rewrite <- app_assoc. auto.
Qed.

Lemma known_documents_are_only_looked_up_witness :
  let email := document "uuid-1" (Some "<m1@example.org>") "offer" in
  let w1 := snd (processEmails (quiet_env []) [email] world_AB) in
  calls (snd (processEmails (quiet_env []) [email; email] w1))
  = calls w1 ++ [EsGet "uuid-1"; EsGet "uuid-1"].
Proof.
  cbv zeta.
  apply (known_documents_are_only_looked_up (quiet_env [])
           [document "uuid-1" (Some "<m1@example.org>") "offer";
            document "uuid-1" (Some "<m1@example.org>") "offer"]).
  - intros e He. apply list_elem_of_In in He.
    destruct He as [<-|[<-|[]]]; vm_compute; eauto.
  - intros e w' He. reflexivity.
Defined.

(** ** The emails table: what a second store leaves alone *)




(** ** Connections: searches, fetches, new mail *)

(** X18: the first search of a folder fetches the last 50 ids at most:
    the batch is the end of the search result, in the order of the
    result, and the ids before it are never fetched. *)
Lemma initial_fetch_is_limited c i folderName uids st :
  uids <> [] ->
  let st' := snd (on_search_done c i folderName (Some uids) st) in
  exists older batch,
    uids = older ++ batch /\
    length batch = Nat.min 50 (length uids) /\
    commands (runtime st') = commands (runtime st) ++ [FetchCmd c batch] /\
    fetches (runtime st') !! next_handle (runtime st)
    = Some {| f_accountId := imap_accountId i; f_folderName := folderName;
              f_awaited := batch; f_emails := []; f_ended := false |}.
Proof.
  intros Hne. cbv zeta.
  exists (take (length uids - 50) uids), (slice_last 50 uids).
  assert (length (slice_last 50 uids) = Nat.min 50 (length uids)) as Hlen.
  { unfold slice_last. rewrite length_drop. lia. }
  split; [unfold slice_last; symmetry; apply take_drop|]. split; [exact Hlen|].
  unfold on_search_done. destruct uids as [|u us]; [congruence|].
  unfold fetchEmails.
  destruct (slice_last 50 (u :: us)) as [|b bs] eqn:Hs.
  { simpl in Hlen. lia. }
  unfold bind, fresh, update_runtime, get, modify, ret. simpl.
  split; [reflexivity|]. apply lookup_insert_eq.
Qed.

Lemma initial_fetch_is_limited_witness :
  let st := run (quiet_env []) connected (initial_State world_AB) in
  let st' := snd (on_search_done 0 (new_Imap 1 account_A) "INBOX" (Some (seq 1 60)) st) in
  seq 1 60 <> [] /\
  exists older batch,
    seq 1 60 = older ++ batch /\
    length batch = Nat.min 50 (length (seq 1 60)) /\
    commands (runtime st') = commands (runtime st) ++ [FetchCmd 0 batch] /\
    fetches (runtime st') !! next_handle (runtime st)
    = Some {| f_accountId := 1; f_folderName := "INBOX";
              f_awaited := batch; f_emails := []; f_ended := false |}.
Proof.
  split; [discriminate|].
  apply (initial_fetch_is_limited 0 (new_Imap 1 account_A) "INBOX" (seq 1 60)).
  discriminate.
Defined.


Lemma bind_ok {St A B} (m : ST St A) (k : A -> ST St B) s a s' :
  m s = (Ok a, s') -> bind m k s = k a s'.
Proof. intros H. unfold bind. rewrite H. reflexivity. Qed.



Lemma step_UnseenDone env c folderName results st :
  step env (UnseenDone c folderName results) st =
  match imaps (runtime st) !! c with
  | Some i =>
      match take_request (SearchUnseen c folderName) (requests (runtime st)) with
      | Some rest =>
          on_unseen_done c i folderName results
            (set_runtime (set_requests (fun _ => rest)) st)
      | None => (Ok tt, st)
      end
  | None => (Ok tt, st)
  end.
Proof.
  unfold step, bind at 1, get. simpl.
  destruct (imaps (runtime st) !! c); [|done].
  unfold answer, bind at 1, get. simpl.
  by destruct (take_request _ _).
Qed.



Lemma take_request_elem r q :
  r ∈ q -> exists rest, take_request r q = Some rest.
Proof.
  assert (Request_eqb r r = true) as Hrefl.
  { destruct r; simpl; rewrite Nat.eqb_refl, String.eqb_refl; reflexivity. }
  induction q as [|r' q IH]; intros Hin; [inversion Hin|].
  simpl. destruct (Request_eqb r r') eqn:He; [eauto|].
  apply elem_of_cons in Hin. destruct Hin as [->|Hin]; [congruence|].
  destruct (IH Hin) as [rest ->]. simpl. eauto.
Qed.

(** X20: when the UNSEEN search started by a 'mail' event answers, all
    the ids it found are fetched (there is no limit here) and IDLE is
    resumed; when the search fails, the error is logged, nothing is fetched
    and IDLE, stopped by handleNewMail, is not resumed. *)
Lemma unseen_search_resumes_idle env c i folderName results st :
  imaps (runtime st) !! c = Some i ->
  SearchUnseen c folderName ∈ requests (runtime st) ->
  let r := step env (UnseenDone c folderName results) st in
  fst r = Ok tt /\
  commands (runtime (snd r))
  = commands (runtime st)
    ++ match results with
       | None => []
       | Some [] => [Idle c]
       | Some uids => [FetchCmd c uids; Idle c]
       end /\
  (results = None ->
   logs (world (snd r)) = logs (world st) ++ [(LError, "Error searching for new mail:")]).
Proof.
  intros Hi Hreq. cbv zeta. rewrite step_UnseenDone, Hi.
  destruct (take_request_elem _ _ Hreq) as [rest ->].
  unfold on_unseen_done.
  destruct results as [[|u us]|]; simpl.
  - unfold bind, update_runtime, modify, ret. simpl. split; [reflexivity|].
    split; [reflexivity|]. discriminate.
  - unfold bind, fresh, update_runtime, get, modify, ret. simpl.
    rewrite <- app_assoc. simpl. split; [reflexivity|]. split; [reflexivity|].
    discriminate.
  - unfold bind, update_runtime, modify, log, lift, logger. simpl.
    rewrite app_nil_r. auto.
Qed.

Lemma unseen_search_resumes_idle_witness :
  let st := run (quiet_env []) (connected ++ [Mail 0]) (initial_State world_AB) in
  let failed := snd (step (quiet_env []) (UnseenDone 0 "INBOX" None) st) in
  list.last (commands (runtime st)) = Some (SearchCmd 0 "INBOX") /\
  commands (runtime failed) = commands (runtime st) ++ [].
Proof.
  cbv zeta. split; [vm_compute; reflexivity|].
  apply (unseen_search_resumes_idle (quiet_env []) 0
           {| imap_accountId := 1;
              imap_account := account_of_row (row_of_account 1 account_A);
              once_ready := false; once_error := true; once_end := true;
              end_called := false; mail_listeners := ["INBOX"] |}
           "INBOX" None).
  - vm_compute. reflexivity.
  - apply list_elem_of_In. vm_compute. repeat (first [left; reflexivity | right]).
Defined.

(** ** Listeners registered with once, the periodic timer, unknown accounts *)







Lemma syncAllAccounts_loop (l : list (Z * IMAPAccount)) st :
  exists ls,
    for_of (fun entry : Z * IMAPAccount =>
              if isActive entry.2
              then try_catch (syncAccount entry.1 entry.2)
                             (fun _ => log LError "Error syncing account")
              else ret tt) l st
    = (Ok tt, set_world (log_lines ls) st) /\
    length ls = length (filter (fun entry : Z * IMAPAccount => isActive entry.2 = true) l).
Proof.
  revert st. induction l as [|[k a] l IH]; intros st.
  - exists []. simpl. split; [|reflexivity].
    unfold ret. f_equal. destruct st as [sv rt w]. unfold set_world, log_lines. simpl.
    rewrite app_nil_r. by destruct w.
  - cbn [for_of]. destruct (isActive a) eqn:Ha.
    + match goal with
      | |- context [bind ?m ?k st] =>
          rewrite (bind_ok m k st tt
                     (set_world (log_lines [(LDebug, "Syncing account")]) st))
      end.
      2:{ simpl. rewrite Ha. reflexivity. }
      destruct (IH (set_world (log_lines [(LDebug, "Syncing account")]) st))
        as (ls & -> & Hlen).
      exists ((LDebug, "Syncing account") :: ls). split.
      * f_equal. unfold set_world. simpl. f_equal. unfold log_lines. simpl.
        rewrite <- app_assoc. reflexivity.
      * rewrite filter_cons. simpl. rewrite Ha. simpl.
        destruct (decide (true = true)); [|done]. simpl. by rewrite Hlen.
    + match goal with
      | |- context [bind ?m ?k st] => rewrite (bind_ok m k st tt st)
      end.
      2:{ simpl. rewrite Ha. reflexivity. }
      destruct (IH st) as (ls & -> & Hlen).
      exists ls. split; [reflexivity|].
      rewrite filter_cons. simpl. rewrite Ha.
      destruct (decide (false = true)); [done|]. exact Hlen.
Qed.

(** X22: when the periodic timer fires, the service only writes log
    lines: one per active account while it is running, none when it is
    stopped.  It opens no connection, asks nothing of the IMAP library or
    of the collaborators, and the timer stays armed. *)
Lemma periodic_sync_only_logs env t period st :
  timers (runtime st) !! t = Some (PeriodicInterval period) ->
  exists ls,
    step env (TimerFires t) st = (Ok tt, set_world (log_lines ls) st) /\
    length ls =
      if isRunning (service st)
      then S (length (filter (fun entry : Z * IMAPAccount => isActive entry.2 = true)
                        (accounts (service st))))
      else 0.
Proof.
  intros Ht. rewrite step_TimerFires, Ht. unfold on_timer, bind at 1, get.
  cbv beta iota. destruct (isRunning (service st)).
  - match goal with
    | |- context [bind ?m ?k st] =>
        rewrite (bind_ok m k st tt
                   (set_world (log_lines [(LInfo, "Running periodic email sync...")]) st)
                   eq_refl)
    end.
    unfold syncAllAccounts, bind at 1, get. cbv beta iota.
    change (accounts (service (set_world
              (log_lines [(LInfo, "Running periodic email sync...")]) st)))
      with (accounts (service st)).
    destruct (syncAllAccounts_loop (accounts (service st))
                (set_world (log_lines [(LInfo, "Running periodic email sync...")]) st))
      as (ls & -> & Hlen).
    exists ((LInfo, "Running periodic email sync...") :: ls). split.
    + f_equal. unfold set_world. simpl. f_equal. unfold log_lines. simpl.
      rewrite <- app_assoc. reflexivity.
    + simpl. by rewrite Hlen.
  - exists []. split; [|reflexivity]. unfold ret. f_equal.
    destruct st as [sv rt w]. unfold set_world, log_lines. simpl.
    rewrite app_nil_r. by destruct w.
Qed.

Lemma periodic_sync_only_logs_witness :
  let st := run (quiet_env []) connected (initial_State world_AB) in
  timers (runtime st) !! 1 = Some (PeriodicInterval 300000) /\
  exists ls, step (quiet_env []) (TimerFires 1) st = (Ok tt, set_world (log_lines ls) st) /\
             length ls = 2.
Proof.
  split; [vm_compute; reflexivity|].
  apply (periodic_sync_only_logs (quiet_env []) 1 300000
           (run (quiet_env []) connected (initial_State world_AB))).
  vm_compute. reflexivity.
Defined.

(** X23: parseEmail answers null exactly when the account of the fetch
    is not in the accounts map, and the listener then drops the message
    without a word: nothing is pushed on the batch and nothing is logged. *)
Lemma mail_for_unknown_account_is_dropped j job d st f parsed :
  job_result job = Some parsed ->
  fetches (runtime st) !! job_fetch job = Some f ->
  (parseEmail (accounts (service st)) d parsed (f_accountId f) (f_folderName f) = None
   <-> Map_get (accounts (service st)) (f_accountId f) = None) /\
  (Map_get (accounts (service st)) (f_accountId f) = None ->
   on_parser_done j job d st = (Ok tt, set_runtime (set_parsing (delete j)) st)).
Proof.
  intros Hres Hf. split.
  - unfold parseEmail.
    destruct (Map_get (accounts (service st)) (f_accountId f)); split; done.
  - intros Hnone. unfold on_parser_done.
    match goal with
    | |- context [bind ?m ?k st] => rewrite (bind_ok m k st tt _ eq_refl)
    end.
    rewrite Hres. unfold bind, get. simpl. rewrite Hf.
    unfold parseEmail. simpl. rewrite Hnone. reflexivity.
Qed.

Lemma mail_for_unknown_account_is_dropped_witness :
  let st := set_runtime (set_fetches (insert 0
              {| f_accountId := 9; f_folderName := "INBOX"; f_awaited := [];
                 f_emails := []; f_ended := false |}))
              (run (quiet_env []) connected (initial_State world_AB)) in
  let job := {| job_fetch := 0; job_uid := 7;
                job_result := Some (mail (Some "<m1@example.org>") "offer") |} in
  Map_get (accounts (service st)) 9 = None /\
  on_parser_done 3 job (draws "uuid-1" "2024-01-01T00:00:00.000Z") st
  = (Ok tt, set_runtime (set_parsing (delete 3)) st).
Proof.
  split; [vm_compute; reflexivity|].
  eapply (mail_for_unknown_account_is_dropped 3
           {| job_fetch := 0; job_uid := 7;
              job_result := Some (mail (Some "<m1@example.org>") "offer") |}).
  - reflexivity.
  - apply lookup_insert_eq.
  - vm_compute. reflexivity.
Defined.

(** ** Accounts: addAccount, loadAccounts, startSync *)

Lemma query_insert env a w :
  query env (InsertAccount a) w =
  if pg_rejects env w (InsertAccount a)
  then (Throw "pg: statement failed", record_call (PgQuery (InsertAccount a)) w)
  else (Ok (Returning (accounts_serial w)),
        set_accounts_table (accounts_table w ++ [row_of_account (accounts_serial w) a])
          (accounts_serial w + 1) (record_call (PgQuery (InsertAccount a)) w)).
Proof. unfold query. run_monad. by destruct (pg_rejects env w (InsertAccount a)). Qed.

Lemma addAccount_run env accountData st :
  addAccount env accountData st =
  let w := world st in
  let new_id := accounts_serial w in
  let account := with_id accountData new_id in
  if pg_rejects env w (InsertAccount accountData)
  then (Throw "pg: statement failed",
        set_world (fun _ => log_lines [(LError, "Error adding email account:")]
                              (record_call (PgQuery (InsertAccount accountData)) w)) st)
  else
    (Ok new_id,
     set_world (log_lines [(LInfo, "Added new email account")])
       ((if isActive accountData
         then set_runtime (fun r => issue (Connect (next_handle r))
                (set_imaps (insert (next_handle r) (new_Imap new_id account)) (bump r)))
         else fun s => s)
          (set_service (set_accounts (fun m => Map_set m new_id account))
             (set_world (fun _ =>
                set_accounts_table
                  (accounts_table w ++ [row_of_account new_id accountData])
                  (new_id + 1) (record_call (PgQuery (InsertAccount accountData)) w))
                st)))).
Proof.
  cbv zeta. unfold addAccount, try_catch, bind at 1, lift. rewrite query_insert.
  destruct (pg_rejects env (world st) (InsertAccount accountData)); [reflexivity|].
  cbv beta iota zeta. cbn [fst snd].
  destruct (isActive accountData); reflexivity.
Qed.

(** X24: when Postgres accepts the INSERT, addAccount returns the id
    the database gave, puts the account under that id in the accounts map
    (the other entries stay), and starts a connection exactly when the
    account is active.  It does not look at isRunning: the connection is
    started on a stopped service as well. *)
Lemma addAccount_registers env accountData st :
  pg_rejects env (world st) (InsertAccount accountData) = false ->
  let r := addAccount env accountData st in
  let new_id := accounts_serial (world st) in
  let account := with_id accountData new_id in
  fst r = Ok new_id /\
  Map_get (accounts (service (snd r))) new_id = Some account /\
  (forall k, k <> new_id ->
     Map_get (accounts (service (snd r))) k = Map_get (accounts (service st)) k) /\
  accounts_table (world (snd r))
  = accounts_table (world st) ++ [row_of_account new_id accountData] /\
  isRunning (service (snd r)) = isRunning (service st) /\
  commands (runtime (snd r))
  = commands (runtime st)
    ++ (if isActive accountData then [Connect (next_handle (runtime st))] else []) /\
  imaps (runtime (snd r))
  = if isActive accountData
    then <[next_handle (runtime st) := new_Imap new_id account]> (imaps (runtime st))
    else imaps (runtime st).
Proof.
  intros Hpg. cbv zeta. rewrite addAccount_run. cbv zeta. rewrite Hpg.
  destruct (isActive accountData); simpl;
    (split; [reflexivity|]); (split; [apply Map_get_set_eq|]);
    (split; [intros k Hk; apply Map_get_set_ne; congruence|]);
    rewrite ?app_nil_r; repeat split; reflexivity.
Qed.

Lemma addAccount_registers_witness :
  let stopped := run (quiet_env []) [CallStartSync; CallStopSync] (initial_State world_AB) in
  let r := addAccount (quiet_env []) account_A stopped in
  isRunning (service stopped) = false /\
  fst r = Ok 3%Z /\
  commands (runtime (snd r)) = commands (runtime stopped) ++ [Connect 2].
Proof.
  cbv zeta. split; [vm_compute; reflexivity|].
  destruct (addAccount_registers (quiet_env []) account_A
              (run (quiet_env []) [CallStartSync; CallStopSync] (initial_State world_AB))
              eq_refl) as (H1 & _ & _ & _ & _ & H2 & _).
  split; [exact H1|exact H2].
Defined.

(** X25: when Postgres rejects the INSERT, addAccount logs the error
    and throws it again; the accounts map, the connections and the table
    are as before. *)
Lemma addAccount_rejected env accountData st :
  pg_rejects env (world st) (InsertAccount accountData) = true ->
  let r := addAccount env accountData st in
  (exists e, fst r = Throw e) /\
  service (snd r) = service st /\
  runtime (snd r) = runtime st /\
  accounts_table (world (snd r)) = accounts_table (world st) /\
  logs (world (snd r)) = logs (world st) ++ [(LError, "Error adding email account:")].
Proof.
  intros Hpg. cbv zeta. rewrite addAccount_run. cbv zeta. rewrite Hpg. simpl.
  repeat split; eauto.
Qed.

Lemma addAccount_rejected_witness :
  let r := addAccount pg_down_env account_A (initial_State world_AB) in
  pg_rejects pg_down_env world_AB (InsertAccount account_A) = true /\
  (exists e, fst r = Throw e) /\
  service (snd r) = new_Service /\
  runtime (snd r) = empty_Runtime /\
  accounts_table (world (snd r)) = accounts_table world_AB /\
  logs (world (snd r)) = [] ++ [(LError, "Error adding email account:")].
Proof.
  split; [reflexivity|].
  apply (addAccount_rejected pg_down_env account_A (initial_State world_AB)).
  reflexivity.
Defined.

Lemma load_loop_get_other rows s k :
  k ∉ map acc_id rows ->
  Map_get (accounts (service (snd (for_of load_account rows s)))) k
  = Map_get (accounts (service s)) k.
Proof.
  revert s. induction rows as [|row rows IH]; intros s Hk; [reflexivity|].
  cbn [for_of].
  rewrite (bind_ok _ _ s tt
             (set_service (set_accounts
                (fun m => Map_set m (acc_id row) (account_of_row row))) s) eq_refl).
  simpl in Hk. apply not_elem_of_cons in Hk. destruct Hk as [Hne Hk].
  rewrite IH by exact Hk. simpl. apply Map_get_set_ne. congruence.
Qed.

Lemma load_loop_get rows s row :
  NoDup (map acc_id rows) -> row ∈ rows ->
  Map_get (accounts (service (snd (for_of load_account rows s)))) (acc_id row)
  = Some (account_of_row row).
Proof.
  revert s. induction rows as [|r0 rows IH]; intros s Hnd Hin; [inversion Hin|].
  cbn [for_of].
  rewrite (bind_ok _ _ s tt
             (set_service (set_accounts
                (fun m => Map_set m (acc_id r0) (account_of_row r0))) s) eq_refl).
  simpl in Hnd. apply list.NoDup_cons in Hnd. destruct Hnd as [Hr0 Hnd].
  apply elem_of_cons in Hin. destruct Hin as [->|Hin].
  - rewrite load_loop_get_other by exact Hr0. simpl. apply Map_get_set_eq.
  - apply IH; assumption.
Qed.

Lemma account_of_row_of_account n (a : IMAPAccount) :
  isActive a = true -> account_of_row (row_of_account n a) = with_id a n.
Proof.
  intros Ha. unfold account_of_row, row_of_account, with_id, is_active_true. simpl.
  rewrite Ha. reflexivity.
Qed.

(** X26: an account added through addAccount and loaded back by
    loadAccounts: if it was added active, the map holds it again under the
    id the database gave, with the same fields; if it was added inactive,
    the reload drops it from the map, where addAccount had put it. *)
Lemma added_account_is_loaded_back env accountData st :
  account_id_unique (accounts_table (world st)) ->
  accounts_serial (world st) ∉ map acc_id (accounts_table (world st)) ->
  pg_rejects env (world st) (InsertAccount accountData) = false ->
  pg_rejects env (world (snd (addAccount env accountData st))) SelectActiveAccounts
  = false ->
  let new_id := accounts_serial (world st) in
  let added := snd (addAccount env accountData st) in
  let loaded := snd (loadAccounts env added) in
  Map_get (accounts (service added)) new_id = Some (with_id accountData new_id) /\
  Map_get (accounts (service loaded)) new_id
  = if isActive accountData then Some (with_id accountData new_id) else None.
Proof.
  intros Hu Hfresh Hins Hsel. cbv zeta.
  assert (Map_get (accounts (service (snd (addAccount env accountData st))))
            (accounts_serial (world st))
          = Some (with_id accountData (accounts_serial (world st))) /\
          accounts_table (world (snd (addAccount env accountData st)))
          = accounts_table (world st)
            ++ [row_of_account (accounts_serial (world st)) accountData])
    as (Hget & Htab).
  { rewrite addAccount_run. cbv zeta. rewrite Hins.
    destruct (isActive accountData); simpl; (split; [apply Map_get_set_eq|reflexivity]). }
  split; [exact Hget|].
  rewrite loadAccounts_run, Hsel.
  set (added := snd (addAccount env accountData st)) in *.
  set (rows := filter (fun r => is_active_true r = true) (accounts_table (world added))).
  assert (NoDup (map acc_id rows)) as Hnd.
  { subst rows. rewrite Htab.
    assert (NoDup (map acc_id (accounts_table (world st)
                     ++ [row_of_account (accounts_serial (world st)) accountData])))
      as Hall.
    { rewrite map_app. apply list.NoDup_app. split; [exact Hu|]. split.
      - intros x Hx Hx'. simpl in Hx'. apply list_elem_of_singleton in Hx'.
        subst x. exact (Hfresh Hx).
      - simpl. apply NoDup_singleton. }
    revert Hall. generalize (accounts_table (world st)
                     ++ [row_of_account (accounts_serial (world st)) accountData]).
    intros l. induction l as [|x l IHl]; intros Hl; [constructor|].
    simpl in Hl. apply list.NoDup_cons in Hl. destruct Hl as [Hx Hl].
    rewrite filter_cons. destruct (decide (is_active_true x = true)).
    - simpl. apply list.NoDup_cons. split; [|apply IHl; exact Hl].
      intros Hin. apply Hx. apply list_elem_of_fmap in Hin.
      destruct Hin as (y & Hy & Hin). apply list_elem_of_filter in Hin.
      destruct Hin as [_ Hin]. rewrite Hy. apply list_elem_of_fmap_2. exact Hin.
    - apply IHl; exact Hl. }
  destruct (isActive accountData) eqn:Hact.
  - pose proof (load_loop_get rows (loading added)
                  (row_of_account (accounts_serial (world st)) accountData) Hnd) as Hl.
    assert (row_of_account (accounts_serial (world st)) accountData ∈ rows) as Hin.
    { subst rows. apply list_elem_of_filter. split.
      - unfold is_active_true. simpl. rewrite Hact. reflexivity.
      - rewrite Htab. apply elem_of_app. right. apply list_elem_of_here. }
    specialize (Hl Hin). simpl in Hl.
    rewrite account_of_row_of_account in Hl by exact Hact.
    destruct (for_of load_account rows (loading added)) as [[[]|e] s2];
      simpl in *; exact Hl.
  - assert (accounts_serial (world st) ∉ map acc_id rows) as Hout.
    { subst rows. intros Hin. apply list_elem_of_fmap in Hin.
      destruct Hin as (y & Hy & Hin). apply list_elem_of_filter in Hin.
      destruct Hin as [Hya Hin]. rewrite Htab in Hin. apply elem_of_app in Hin.
      destruct Hin as [Hin|Hin].
      - apply Hfresh. rewrite Hy. apply list_elem_of_fmap_2. exact Hin.
      - apply list_elem_of_singleton in Hin. subst y.
        unfold is_active_true in Hya. simpl in Hya. rewrite Hact in Hya. discriminate. }
    pose proof (load_loop_get_other rows (loading added) _ Hout) as Hl.
    simpl in Hl.
    destruct (for_of load_account rows (loading added)) as [[[]|e] s2];
      simpl in *; exact Hl.
Qed.

Lemma added_account_is_loaded_back_witness :
  let added := snd (addAccount (quiet_env []) account_B (initial_State world_AB)) in
  let loaded := snd (loadAccounts (quiet_env []) added) in
  Map_get (accounts (service added)) 3 = Some (with_id account_B 3) /\
  Map_get (accounts (service loaded)) 3 = None.
Proof.
  apply (added_account_is_loaded_back (quiet_env []) account_B (initial_State world_AB)).
  - unfold account_id_unique. simpl. apply (bool_decide_unpack _). vm_compute. reflexivity.
  - simpl. apply (bool_decide_unpack _). vm_compute. reflexivity.
  - reflexivity.
  - reflexivity.
Defined.


Lemma startSync_rejected_run env st :
  pg_rejects env (world (starting st)) SelectActiveAccounts = true ->
  startSync env st =
  (Throw "pg: statement failed",
   set_world (fun w =>
     log_lines [(LError, "Failed to start email synchronization:")]
       (log_lines [(LError, "Failed to load email accounts:")]
          (record_call (PgQuery SelectActiveAccounts)
             (log_lines [(LInfo, "Starting email synchronization...")] w)))) st).
Proof.
  intros Hpg. unfold startSync, try_catch.
  rewrite (bind_ok _ _ st tt (starting st) eq_refl).
  unfold bind at 1. rewrite loadAccounts_run, Hpg. by destruct st.
Qed.

(** X27: when the accounts cannot be read from Postgres, startSync logs
    the failure twice (in loadAccounts and in its own catch) and throws it
    to the caller: the service is as before, not running, with the accounts
    it had; no connection was opened and no timer armed. *)
Lemma startSync_rejected env st :
  pg_rejects env (world (starting st)) SelectActiveAccounts = true ->
  let r := startSync env st in
  (exists e, fst r = Throw e) /\
  service (snd r) = service st /\
  runtime (snd r) = runtime st /\
  calls (world (snd r)) = calls (world st) ++ [PgQuery SelectActiveAccounts] /\
  logs (world (snd r))
  = logs (world st) ++ [(LInfo, "Starting email synchronization...");
                        (LError, "Failed to load email accounts:");
                        (LError, "Failed to start email synchronization:")].
Proof.
  intros Hpg. cbv zeta. rewrite (startSync_rejected_run env st Hpg). simpl.
  rewrite <- !app_assoc. simpl. repeat split; eauto.
Qed.

Lemma startSync_rejected_witness :
  let r := startSync pg_down_env (initial_State world_AB) in
  pg_rejects pg_down_env (world (starting (initial_State world_AB))) SelectActiveAccounts
  = true /\
  (exists e, fst r = Throw e) /\
  service (snd r) = new_Service /\
  runtime (snd r) = empty_Runtime.
Proof.
  split; [reflexivity|].
  destruct (startSync_rejected pg_down_env (initial_State world_AB) eq_refl)
    as (H1 & H2 & H3 & _).
  split; [exact H1|]. split; [exact H2|exact H3].
Defined.



